(** * Slackbase: a shallow embedding of the storage engine

    This development models the storage engine of Slackbase
    ([src/engine/kv.rs], [src/storage/file.rs], [src/engine/wal.rs],
    [src/engine/index.rs], [src/serialization]) and proves or refutes the
    properties stated in its specification.

    Modelling conventions.
    - Rust [&str]/[String] values are byte strings, modelled by Stdlib
      [string] (one [ascii] per byte); files are byte strings as well.
    - [u64]/[usize] are [N]; saturating and wrapping arithmetic is written
      out where the code uses it.
    - Operations that read the clock take the clock value [now] (seconds
      since the epoch) as a parameter; one operation reads one clock value.
    - File-system calls are assumed to succeed; the remaining error paths
      (the serializer, the record codec) are modelled as in the code. *)

From Stdlib Require Import NArith ZArith Ascii String List Lia Sorted.
From stdpp Require Import base gmap sets list strings.

Import ListNotations.
Open Scope string_scope.
Set Warnings "-register-all,-abstract-large-number".
(** [String.append] computes by [simpl], as in the Standard Library. *)
Arguments String.append : simpl nomatch.

(* ------------------------------------------------------------------ *)
(** ** Bytes and [str] helpers *)

Definition TAB : ascii := "009"%char.
Definition LF : ascii := "010"%char.
Definition CR : ascii := "013"%char.

Definition tab_s : string := String TAB EmptyString.
Definition lf_s : string := String LF EmptyString.

Definition byte (c : ascii) : N := N_of_ascii c.

(** [str::starts_with] *)
Fixpoint starts_with (p s : string) : bool :=
  match p, s with
  | EmptyString, _ => true
  | String a p', String b s' => if ascii_dec a b then starts_with p' s' else false
  | String _ _, EmptyString => false
  end.

(** First occurrence of a byte: [Some (before, after)]. *)
Fixpoint break_at (c : ascii) (s : string) : option (string * string) :=
  match s with
  | EmptyString => None
  | String a r =>
      if ascii_dec a c then Some (EmptyString, r)
      else match break_at c r with
           | Some (p, q) => Some (String a p, q)
           | None => None
           end
  end.

(** [str::split(c)]: always at least one piece. *)
Fixpoint split_char (c : ascii) (s : string) : list string :=
  match s with
  | EmptyString => [EmptyString]
  | String a r =>
      if ascii_dec a c then EmptyString :: split_char c r
      else match split_char c r with
           | p :: ps => String a p :: ps
           | [] => [String a EmptyString]
           end
  end.

(** [str::splitn(n, c)]: at most [n] pieces, the last one holds the rest. *)
Fixpoint splitn_char (n : nat) (c : ascii) (s : string) : list string :=
  match n with
  | O => []
  | S O => [s]
  | S n' =>
      match break_at c s with
      | Some (p, q) => p :: splitn_char n' c q
      | None => [s]
      end
  end.

(** The one-byte white space of [char::is_whitespace]: TAB, LF, VT, FF,
    CR and SPACE. *)
Definition is_ws (c : ascii) : bool :=
  let b := byte c in
  ((b =? 9) || (b =? 10) || (b =? 11) || (b =? 12) || (b =? 13) || (b =? 32))%N.

(** The characters of a UTF-8 string, each as the string of its bytes:
    a lead byte below [0xC0] starts a one-byte character, one below
    [0xE0] a two-byte one, one below [0xF0] a three-byte one, any other a
    four-byte one. *)
Fixpoint utf8_chars (s : string) : list string :=
  match s with
  | EmptyString => []
  | String c r =>
      if (byte c <? 192)%N then String c EmptyString :: utf8_chars r
      else if (byte c <? 224)%N then
        match r with
        | String c2 r2 => String c (String c2 EmptyString) :: utf8_chars r2
        | EmptyString => [s]
        end
      else if (byte c <? 240)%N then
        match r with
        | String c2 (String c3 r3) => String c (String c2 (String c3 EmptyString)) :: utf8_chars r3
        | _ => [s]
        end
      else
        match r with
        | String c2 (String c3 (String c4 r4)) =>
            String c (String c2 (String c3 (String c4 EmptyString))) :: utf8_chars r4
        | _ => [s]
        end
  end.

(** [char::is_whitespace] on the UTF-8 bytes of one character: the
    one-byte spaces [is_ws], U+0085, U+00A0, U+1680, U+2000 to U+200A,
    U+2028, U+2029, U+202F, U+205F and U+3000. *)
Definition is_ws_char (ch : string) : bool :=
  match ch with
  | String a EmptyString => is_ws a
  | String a (String b EmptyString) =>
      ((byte a =? 194) && ((byte b =? 133) || (byte b =? 160)))%N
  | String a (String b (String c EmptyString)) =>
      let x := byte a in let y := byte b in let z := byte c in
      ((x =? 225) && (y =? 154) && (z =? 128)
       || (x =? 226) && (y =? 128) && ((128 <=? z) && (z <=? 138) || (z =? 168) || (z =? 169) || (z =? 175))
       || (x =? 226) && (y =? 129) && (z =? 159)
       || (x =? 227) && (y =? 128) && (z =? 128))%N
  | _ => false
  end.

(** The characters without the trailing white-space ones. *)
Fixpoint trim_chars (l : list string) : list string :=
  match l with
  | [] => []
  | ch :: r =>
      match trim_chars r with
      | [] => if is_ws_char ch then [] else [ch]
      | r' => ch :: r'
      end
  end.

Fixpoint str_concat (l : list string) : string :=
  match l with
  | [] => EmptyString
  | x :: r => x ++ str_concat r
  end.

(** [str::trim_end] *)
Definition trim_end (s : string) : string := str_concat (trim_chars (utf8_chars s)).

(** [BufRead::lines]: split on LF; a CR right before an LF is dropped;
    a final LF does not open an empty last line. *)
Definition strip_cr (l : string) : string :=
  match String.get (String.length l - 1) l with
  | Some c => if ascii_dec c CR then String.substring 0 (String.length l - 1) l else l
  | None => l
  end.

Definition lines (s : string) : list string :=
  match rev (split_char LF s) with
  | EmptyString :: rest => map strip_cr (rev rest)
  | last :: rest => map strip_cr (rev rest) ++ [last]
  | [] => []
  end.

(* ------------------------------------------------------------------ *)
(** ** Decimal [u64] printing ([Display]) and parsing ([str::parse]) *)

Definition u64_modulus : N := 18446744073709551616.
Definition u64_max : N := u64_modulus - 1.
Definition usize_max : N := u64_max.
(** Rust slices (and so memory maps) hold at most [isize::MAX] bytes. *)
Definition isize_max : N := 9223372036854775807.

Definition digit_char (d : N) : ascii := ascii_of_N (48 + d).
Definition is_digit (c : ascii) : bool := ((48 <=? byte c) && (byte c <=? 57))%N.
Definition digit_val (c : ascii) : N := (byte c - 48)%N.

Fixpoint show_N_aux (fuel : nat) (n : N) (acc : string) : string :=
  match fuel with
  | O => acc
  | S f =>
      let acc' := String (digit_char (n mod 10)) acc in
      if (n <? 10)%N then acc' else show_N_aux f (n / 10) acc'
  end.

(** [format!("{}", n)] for [n : u64] (20 digits suffice). *)
Definition show_u64 (n : N) : string := show_N_aux 20 n EmptyString.

Fixpoint parse_digits (acc : N) (s : string) : option N :=
  match s with
  | EmptyString => Some acc
  | String c r => if is_digit c then parse_digits (acc * 10 + digit_val c) r else None
  end.

(** [s.parse::<u64>()]: optional [+], at least one digit, no overflow.
    The code checks overflow at every step; the accumulated value only
    grows, so checking the final value is the same. *)
Definition parse_u64 (s : string) : option N :=
  let body := match s with
              | String "+" r => r
              | _ => s
              end in
  match body with
  | EmptyString => None
  | _ => match parse_digits 0 body with
         | Some n => if (n <=? u64_max)%N then Some n else None
         | None => None
         end
  end.

(** [s.parse::<usize>()] on a 64-bit target is the same parser. *)
Definition parse_usize := parse_u64.

(* ------------------------------------------------------------------ *)
(** ** UTF-8 validation ([std::str::from_utf8]) *)

Definition in_range (lo hi : N) (c : ascii) : bool := ((lo <=? byte c) && (byte c <=? hi))%N.
Definition cont := in_range 128 191.

Fixpoint utf8_valid (s : string) : bool :=
  match s with
  | EmptyString => true
  | String c r =>
      if (byte c <? 128)%N then utf8_valid r
      else if in_range 194 223 c then
        match r with
        | String c2 r2 => cont c2 && utf8_valid r2
        | _ => false
        end
      else if in_range 224 239 c then
        match r with
        | String c2 (String c3 r3) =>
            (if (byte c =? 224)%N then in_range 160 191 c2
             else if (byte c =? 237)%N then in_range 128 159 c2
             else cont c2) && cont c3 && utf8_valid r3
        | _ => false
        end
      else if in_range 240 244 c then
        match r with
        | String c2 (String c3 (String c4 r4)) =>
            (if (byte c =? 240)%N then in_range 144 191 c2
             else if (byte c =? 244)%N then in_range 128 143 c2
             else cont c2) && cont c3 && cont c4 && utf8_valid r4
        | _ => false
        end
      else false
  end.

(* ------------------------------------------------------------------ *)
(** ** Base64, [general_purpose::STANDARD] (padded, canonical) *)

Definition b64_char (n : N) : ascii :=
  if (n <? 26)%N then ascii_of_N (65 + n)
  else if (n <? 52)%N then ascii_of_N (97 + (n - 26))
  else if (n <? 62)%N then ascii_of_N (48 + (n - 52))
  else if (n =? 62)%N then "+"%char else "/"%char.

Definition b64_val (c : ascii) : option N :=
  let b := byte c in
  if in_range 65 90 c then Some (b - 65)%N
  else if in_range 97 122 c then Some (b - 97 + 26)%N
  else if in_range 48 57 c then Some (b - 48 + 52)%N
  else if (b =? 43)%N then Some 62%N
  else if (b =? 47)%N then Some 63%N
  else None.

Definition PAD : ascii := "="%char.

Fixpoint b64_encode (s : string) : string :=
  match s with
  | String a (String b (String c r)) =>
      let x := byte a in let y := byte b in let z := byte c in
      String (b64_char (x / 4))
        (String (b64_char ((x mod 4) * 16 + y / 16))
          (String (b64_char ((y mod 16) * 4 + z / 64))
            (String (b64_char (z mod 64)) (b64_encode r))))
  | String a (String b EmptyString) =>
      let x := byte a in let y := byte b in
      String (b64_char (x / 4))
        (String (b64_char ((x mod 4) * 16 + y / 16))
          (String (b64_char ((y mod 16) * 4)) (String PAD EmptyString)))
  | String a EmptyString =>
      let x := byte a in
      String (b64_char (x / 4))
        (String (b64_char ((x mod 4) * 16)) (String PAD (String PAD EmptyString)))
  | EmptyString => EmptyString
  end.

Definition byte3 (v1 v2 v3 v4 : N) : string :=
  String (ascii_of_N (v1 * 4 + v2 / 16))
    (String (ascii_of_N ((v2 mod 16) * 16 + v3 / 4))
      (String (ascii_of_N ((v3 mod 4) * 64 + v4)) EmptyString)).

Fixpoint b64_decode (s : string) : option string :=
  match s with
  | EmptyString => Some EmptyString
  | String c1 (String c2 (String c3 (String c4 r))) =>
      match r, b64_val c1, b64_val c2 with
      | EmptyString, Some v1, Some v2 =>
          if ascii_dec c3 PAD then
            if ascii_dec c4 PAD then
              (* one byte; the unused bits must be zero *)
              if (v2 mod 16 =? 0)%N
              then Some (String (ascii_of_N (v1 * 4 + v2 / 16)) EmptyString)
              else None
            else None
          else
            match b64_val c3 with
            | None => None
            | Some v3 =>
                if ascii_dec c4 PAD then
                  if (v3 mod 4 =? 0)%N
                  then Some (String (ascii_of_N (v1 * 4 + v2 / 16))
                               (String (ascii_of_N ((v2 mod 16) * 16 + v3 / 4)) EmptyString))
                  else None
                else match b64_val c4 with
                     | Some v4 => Some (byte3 v1 v2 v3 v4)
                     | None => None
                     end
            end
      | _, Some v1, Some v2 =>
          match b64_val c3, b64_val c4 with
          | Some v3, Some v4 =>
              match b64_decode r with
              | Some rest => Some (byte3 v1 v2 v3 v4 ++ rest)
              | None => None
              end
          | _, _ => None
          end
      | _, _, _ => None
      end
  | _ => None
  end.

(* ------------------------------------------------------------------ *)
(** ** [serde_json]: values, [to_string] and [from_str]

    [serde_json::Value] with the default [Map] (a [BTreeMap], so object
    fields are kept sorted by key and a repeated key keeps its last value).
    Numbers are modelled for integers in the [i64]/[u64] range.  This
    parser departs from serde_json on: numbers with a fraction or an
    exponent and integers out of range (serde_json reads them as [f64],
    this parser rejects them), [-0] (an [f64] [-0.0] for serde_json, the
    integer 0 here), [\u] escapes of UTF-16 surrogates (a valid pair is
    accepted by serde_json, rejected here), and nesting deeper than 127
    levels (rejected by serde_json only).  [json_plain] below states a
    domain of texts free of all of these. *)

Module Json.

Inductive Value :=
| Null
| Bool (b : bool)
| Number (n : Z)
| Str (s : string)
| Array (l : list Value)
| Object (m : list (string * Value)).

Definition QUOTE : ascii := "034"%char.
Definition BSLASH : ascii := "092"%char.

Definition hex_digit (d : N) : ascii :=
  if (d <? 10)%N then ascii_of_N (48 + d) else ascii_of_N (97 + (d - 10)).

(** serde_json's [format_escaped_str_contents] *)
Fixpoint escape (s : string) : string :=
  match s with
  | EmptyString => EmptyString
  | String c r =>
      let b := byte c in
      let esc := fun (e : ascii) => String BSLASH (String e (escape r)) in
      if (b =? 34)%N then esc QUOTE
      else if (b =? 92)%N then esc BSLASH
      else if (b =? 8)%N then esc "b"%char
      else if (b =? 9)%N then esc "t"%char
      else if (b =? 10)%N then esc "n"%char
      else if (b =? 12)%N then esc "f"%char
      else if (b =? 13)%N then esc "r"%char
      else if (b <? 32)%N then
        String BSLASH (String "u"%char (String "0"%char (String "0"%char
          (String (hex_digit (b / 16)) (String (hex_digit (b mod 16)) (escape r))))))
      else String c (escape r)
  end.

Definition quoted (s : string) : string := String QUOTE (escape s ++ String QUOTE EmptyString).

Definition show_Z (z : Z) : string :=
  match z with
  | Z.neg p => "-" ++ show_u64 (Npos p)
  | _ => show_u64 (Z.to_N z)
  end.

Fixpoint join (sep : string) (l : list string) : string :=
  match l with
  | [] => EmptyString
  | [x] => x
  | x :: r => x ++ sep ++ join sep r
  end.

(** [serde_json::to_string] (compact form) *)
Fixpoint to_string (v : Value) : string :=
  match v with
  | Null => "null"
  | Bool true => "true"
  | Bool false => "false"
  | Number z => show_Z z
  | Str s => quoted s
  | Array l => "[" ++ join "," (map to_string l) ++ "]"
  | Object m =>
      "{" ++ join "," (map (fun '(k, x) => quoted k ++ ":" ++ to_string x) m) ++ "}"
  end.

(** [BTreeMap::insert] on a map kept sorted by key. *)
Fixpoint map_insert (k : string) (x : Value) (m : list (string * Value)) : list (string * Value) :=
  match m with
  | [] => [(k, x)]
  | (k', x') :: r =>
      match String.compare k k' with
      | Lt => (k, x) :: m
      | Eq => (k, x) :: r
      | Gt => (k', x') :: map_insert k x r
      end
  end.

Definition is_json_ws (c : ascii) : bool :=
  let b := byte c in ((b =? 32) || (b =? 9) || (b =? 10) || (b =? 13))%N.

Fixpoint skip_ws (s : string) : string :=
  match s with
  | String c r => if is_json_ws c then skip_ws r else s
  | EmptyString => EmptyString
  end.

Definition hex_val (c : ascii) : option N :=
  if in_range 48 57 c then Some (byte c - 48)%N
  else if in_range 97 102 c then Some (byte c - 87)%N
  else if in_range 65 70 c then Some (byte c - 55)%N
  else None.

(** UTF-8 encoding of a code point of the BMP (surrogates excluded). *)
Definition utf8_of_bmp (u : N) : string :=
  if (u <? 128)%N then String (ascii_of_N u) EmptyString
  else if (u <? 2048)%N then
    String (ascii_of_N (192 + u / 64)) (String (ascii_of_N (128 + u mod 64)) EmptyString)
  else String (ascii_of_N (224 + u / 4096))
         (String (ascii_of_N (128 + (u / 64) mod 64))
            (String (ascii_of_N (128 + u mod 64)) EmptyString)).

(** Body of a string literal, after the opening quote. *)
Fixpoint parse_str (s : string) : option (string * string) :=
  match s with
  | EmptyString => None
  | String c r =>
      if ascii_dec c QUOTE then Some (EmptyString, r)
      else if ascii_dec c BSLASH then
        match r with
        | String e r' =>
            let k := fun (out : string) =>
                       match parse_str r' with
                       | Some (t, rest) => Some (out ++ t, rest)
                       | None => None
                       end in
            if ascii_dec e QUOTE then k (String QUOTE EmptyString)
            else if ascii_dec e BSLASH then k (String BSLASH EmptyString)
            else if ascii_dec e "/"%char then k "/"
            else if ascii_dec e "b"%char then k (String "008"%char EmptyString)
            else if ascii_dec e "f"%char then k (String "012"%char EmptyString)
            else if ascii_dec e "n"%char then k lf_s
            else if ascii_dec e "r"%char then k (String CR EmptyString)
            else if ascii_dec e "t"%char then k tab_s
            else if ascii_dec e "u"%char then
              match r' with
              | String h1 (String h2 (String h3 (String h4 r''))) =>
                  match hex_val h1, hex_val h2, hex_val h3, hex_val h4 with
                  | Some a, Some b, Some c', Some d =>
                      let u := (((a * 16 + b) * 16 + c') * 16 + d)%N in
                      if ((55296 <=? u) && (u <=? 57343))%N then None
                      else match parse_str r'' with
                           | Some (t, rest) => Some (utf8_of_bmp u ++ t, rest)
                           | None => None
                           end
                  | _, _, _, _ => None
                  end
              | _ => None
              end
            else None
        | EmptyString => None
        end
      else if (byte c <? 32)%N then None
      else match parse_str r with
           | Some (t, rest) => Some (String c t, rest)
           | None => None
           end
  end.

Fixpoint digits_prefix (s : string) : string * string :=
  match s with
  | String c r => if is_digit c then let '(d, rest) := digits_prefix r in (String c d, rest)
                  else (EmptyString, s)
  | EmptyString => (EmptyString, EmptyString)
  end.

Definition i64_min_abs : N := 9223372036854775808.

(** Integer literal: an optional minus sign, then 0 or digits without a leading 0; no fraction, no exponent. *)
Definition parse_number (s : string) : option (Value * string) :=
  let '(neg, body) := match s with
                      | String "-" r => (true, r)
                      | _ => (false, s)
                      end in
  let '(ds, rest) := match body with
                     | String "0" r => ("0", r)
                     | _ => digits_prefix body
                     end in
  let float_follows := match rest with
                       | String c _ => (Ascii.eqb c "."%char || Ascii.eqb c "e"%char
                                        || Ascii.eqb c "E"%char)%bool
                       | EmptyString => false
                       end in
  match ds, parse_digits 0 ds with
  | String _ _, Some n =>
      if float_follows then None
      else if neg then (if (n <=? i64_min_abs)%N then Some (Number (- Z.of_N n), rest) else None)
      else if (n <=? u64_max)%N then Some (Number (Z.of_N n), rest) else None
  | _, _ => None
  end.

Definition expect (w s : string) : option string :=
  if starts_with w s then Some (String.substring (String.length w) (String.length s) s) else None.

Fixpoint parse_value (fuel : nat) (s : string) : option (Value * string) :=
  match fuel with
  | O => None
  | S f =>
      let fix elems (g : nat) (s : string) (acc : list Value) : option (list Value * string) :=
        match g with
        | O => None
        | S g' =>
            match parse_value f (skip_ws s) with
            | Some (v, r) =>
                match skip_ws r with
                | String "," r' => elems g' r' (v :: acc)
                | String "]" r' => Some (rev (v :: acc), r')
                | _ => None
                end
            | None => None
            end
        end in
      let fix members (g : nat) (s : string) (acc : list (string * Value))
          : option (list (string * Value) * string) :=
        match g with
        | O => None
        | S g' =>
            match skip_ws s with
            | String c r =>
                if ascii_dec c QUOTE then
                  match parse_str r with
                  | Some (k, r1) =>
                      match skip_ws r1 with
                      | String ":" r2 =>
                          match parse_value f (skip_ws r2) with
                          | Some (v, r3) =>
                              match skip_ws r3 with
                              | String "," r' => members g' r' (map_insert k v acc)
                              | String "}" r' => Some (map_insert k v acc, r')
                              | _ => None
                              end
                          | None => None
                          end
                      | _ => None
                      end
                  | None => None
                  end
                else None
            | EmptyString => None
            end
        end in
      match s with
      | EmptyString => None
      | String c r =>
          if ascii_dec c "n"%char then option_map (fun r' => (Null, r')) (expect "ull" r)
          else if ascii_dec c "t"%char then option_map (fun r' => (Bool true, r')) (expect "rue" r)
          else if ascii_dec c "f"%char then option_map (fun r' => (Bool false, r')) (expect "alse" r)
          else if ascii_dec c QUOTE then
            option_map (fun '(t, r') => (Str t, r')) (parse_str r)
          else if ascii_dec c "["%char then
            match skip_ws r with
            | String "]" r' => Some (Array [], r')
            | _ => option_map (fun '(l, r') => (Array l, r')) (elems (S (String.length r)) r [])
            end
          else if ascii_dec c "{"%char then
            match skip_ws r with
            | String "}" r' => Some (Object [], r')
            | _ => option_map (fun '(m, r') => (Object m, r')) (members (S (String.length r)) r [])
            end
          else if (Ascii.eqb c "-"%char || is_digit c)%bool then parse_number s
          else None
      end
  end.

(** [serde_json::from_str::<Value>]: one value, surrounded by whitespace only. *)
Definition from_str (s : string) : option Value :=
  match parse_value (S (String.length s)) (skip_ws s) with
  | Some (v, rest) => match skip_ws rest with
                      | EmptyString => Some v
                      | _ => None
                      end
  | None => None
  end.

(** [Value::get] with a [&str] index: the member of an object, [None] on
    any other value. *)
Definition get (v : Value) (field : string) : option Value :=
  match v with
  | Object m => match List.find (fun p => String.eqb (fst p) field) m with
                | Some (_, x) => Some x
                | None => None
                end
  | _ => None
  end.

(** [Map::remove] *)
Definition map_remove (k : string) (m : list (string * Value)) : list (string * Value) :=
  List.filter (fun p => negb (String.eqb (fst p) k)) m.

(** [serde_json::from_str::<Map<String, Value>>]: a JSON object. *)
Definition map_from_str (s : string) : option (list (string * Value)) :=
  match from_str s with
  | Some (Object m) => Some m
  | _ => None
  end.

End Json.

(** *** The inputs on which the model of [from_str] is exact

    [json_plain s] holds when the text [s] has no digit followed by [.],
    [e] or [E] (no number with a fraction or an exponent, which serde_json
    reads as [f64]), no [-0] (serde_json reads [-0] as the [f64] [-0.0]),
    no run of more than 18 digits (every integer is then in the [i64] and
    [u64] ranges), no [\u] (no UTF-16 surrogate escape), and at most 126
    opening brackets (serde_json fails at 128 nested levels, and
    [json_set_field] nests the new value one level deeper).  The test is
    on the raw text, inside string literals too, so it is stricter than
    needed.  On such texts [Json.from_str] gives what [serde_json::from_str]
    gives, a failure included. *)

(** Two adjacent bytes [a b] of [s] with [p a b]. *)
Fixpoint has_pair (p : ascii -> ascii -> bool) (s : string) : bool :=
  match s with
  | String a ((String b _) as r) => p a b || has_pair p r
  | _ => false
  end.

(** No run of more than [n] ASCII digits, [run] digits being already seen. *)
Fixpoint digit_runs_le (n run : nat) (s : string) : bool :=
  match s with
  | EmptyString => true
  | String c r =>
      if is_digit c then Nat.ltb run n && digit_runs_le n (S run) r else digit_runs_le n 0 r
  end.

(** The number of [[] and [{] bytes. *)
Fixpoint count_open (s : string) : nat :=
  match s with
  | EmptyString => 0
  | String c r =>
      ((if (Ascii.eqb c "["%char || Ascii.eqb c "{"%char)%bool then 1 else 0) + count_open r)%nat
  end.

Definition json_plain (s : string) : bool :=
  negb (has_pair (fun a b => is_digit a && (Ascii.eqb b "."%char || Ascii.eqb b "e"%char
                                            || Ascii.eqb b "E"%char)) s) &&
  negb (has_pair (fun a b => Ascii.eqb a "-"%char && Ascii.eqb b "0"%char) s) &&
  negb (has_pair (fun a b => Ascii.eqb a Json.BSLASH && Ascii.eqb b "u"%char) s) &&
  digit_runs_le 18 0 s && Nat.leb (count_open s) 126.

(* ------------------------------------------------------------------ *)
(** ** Errors and results ([src/types.rs]) *)

Inductive Error := Io | Serde | NotFound | InvalidRecord | Lua | SystemTime.

Inductive result (A : Type) := Ok (a : A) | Err (e : Error).
Arguments Ok {A} a.
Arguments Err {A} e.

(* ------------------------------------------------------------------ *)
(** ** The secondary index ([src/engine/index.rs])

    [field => value => set of keys].  The JSON parsing done by [update]
    is [serde_json::from_str::<Value>] followed by [as_object]; each field
    value is stringified as the code does: a JSON string gives its raw
    text, any other value its JSON serialization. *)

Module SecondaryIndex.

Abbreviation t := (gmap string (gmap string (gset string))).

Definition new : t := ∅.

Definition strval (v : Json.Value) : string :=
  match v with
  | Json.Str s => s
  | _ => Json.to_string v
  end.

(** The [(field, stringified value)] pairs of a JSON-object text. *)
Definition object_fields (s : string) : option (list (string * string)) :=
  match Json.from_str s with
  | Some (Json.Object m) => Some (map (fun '(f, v) => (f, strval v)) m)
  | _ => None
  end.

Definition remove_pair (key : string) (idx : t) (fv : string * string) : t :=
  let '(field, sv) := fv in
  match idx !! field with
  | Some valmap =>
      let valmap' :=
        match valmap !! sv with
        | Some set =>
            let set' := set ∖ {[key]} in
            if decide (set' = ∅) then delete sv valmap else <[sv := set']> valmap
        | None => valmap
        end in
      if decide (valmap' = ∅) then delete field idx else <[field := valmap']> idx
  | None => idx
  end.

Definition add_pair (key : string) (idx : t) (fv : string * string) : t :=
  let '(field, sv) := fv in
  let valmap := default ∅ (idx !! field) in
  let set := default ∅ (valmap !! sv) in
  <[field := <[sv := {[key]} ∪ set]> valmap]> idx.

Definition update (key : string) (old_json new_json : option string) (idx : t) : t :=
  let idx :=
    match old_json with
    | Some s => match object_fields s with
                | Some fs => fold_left (remove_pair key) fs idx
                | None => idx
                end
    | None => idx
    end in
  match new_json with
  | Some s => match object_fields s with
              | Some fs => fold_left (add_pair key) fs idx
              | None => idx
              end
  | None => idx
  end.

Definition remove (key : string) (old_json : option string) (idx : t) : t :=
  update key old_json None idx.

(** [find] returns the elements of the set (in the set's order). *)
Definition find (idx : t) (field value : string) : list string :=
  match idx !! field with
  | Some m => match m !! value with
              | Some set => elements set
              | None => []
              end
  | None => []
  end.

End SecondaryIndex.

(* ------------------------------------------------------------------ *)
(** ** The LRU read cache ([lru::LruCache], capacity 1024)

    Entries most recently used first. *)

Module Lru.

Definition capacity : nat := 1024.

Fixpoint lookup (k : string) (l : list (string * string)) : option string :=
  match l with
  | [] => None
  | (k', v) :: r => if String.eqb k k' then Some v else lookup k r
  end.

Definition remove (k : string) (l : list (string * string)) : list (string * string) :=
  List.filter (fun kv => negb (String.eqb k kv.1)) l.

(** [get]: a hit moves the entry to the front. *)
Definition get (k : string) (l : list (string * string)) : option (string * list (string * string)) :=
  match lookup k l with
  | Some v => Some (v, (k, v) :: remove k l)
  | None => None
  end.

(** [put]: update and promote, or insert at the front, evicting the least
    recently used entry when the cache is full. *)
Definition put (k v : string) (l : list (string * string)) : list (string * string) :=
  match lookup k l with
  | Some _ => (k, v) :: remove k l
  | None => if Nat.eqb (length l) capacity then (k, v) :: removelast l else (k, v) :: l
  end.

(** [pop] *)
Definition pop (k : string) (l : list (string * string)) : list (string * string) := remove k l.

End Lru.

(* ------------------------------------------------------------------ *)
(** ** Log, hint and record files ([src/storage/file.rs]) *)

Definition len_s (s : string) : N := N.of_nat (String.length s).

(** [append_record]: the offset is the file size before the append, the
    length counts the LF. *)
Definition append_record (file record : string) : string * (N * N) :=
  let line := record ++ lf_s in
  (file ++ line, (len_s file, len_s line)).

(** [read_record_slice]: [Mmap::map] fails on a file too large to be a
    slice; [end] is computed with [saturating_add]. *)
Definition read_record_slice (file : string) (offset len : N) : result (option string) :=
  let size := len_s file in
  if (isize_max <? size)%N then Err Io
  else
    let end_ := N.min (offset + len) usize_max in
    if (size <? end_)%N then Ok None
    else
      let slice := String.substring (N.to_nat offset) (N.to_nat (end_ - offset)) file in
      if utf8_valid slice then Ok (Some (trim_end slice)) else Err Io.

(** [read_records]: the lines of the file (a line that is not UTF-8 is
    skipped), each split at its first TAB; lines without a TAB are dropped. *)
Definition read_records (file : string) : list (string * string) :=
  flat_map (fun l =>
              if utf8_valid l then
                match splitn_char 2 TAB l with
                | [p0; p1] => [(p0, p1)]
                | _ => []
                end
              else [])
           (lines file).

Definition nth_str (n : nat) (parts : list string) : string := nth n parts EmptyString.

(** One step of the scan of [compact_log]. *)
Definition compact_step (now : N) (latest : gmap string (string * option N))
    (r : string * string) : gmap string (string * option N) :=
  let '(key, value) := r in
  if String.eqb value EmptyString then delete key latest
  else
    let parts := split_char TAB value in
    if String.eqb (nth_str 0 parts) "put" then
      let base64_val := nth_str 1 parts in
      let expiry := match nth_error parts 2 with
                    | Some s => parse_u64 s
                    | None => None
                    end in
      match expiry with
      | Some expiry_ts => if (expiry_ts <? now)%N then delete key latest
                          else <[key := (base64_val, expiry)]> latest
      | None => <[key := (base64_val, expiry)]> latest
      end
    else if String.eqb (nth_str 0 parts) "del" then delete key latest
    else latest.

(** The lines [compact_log] writes, in the map's iteration order. *)
Definition compact_line (kv : string * (string * option N)) : string :=
  let '(key, (base64_val, expiry)) := kv in
  match expiry with
  | Some exp => key ++ tab_s ++ "put" ++ tab_s ++ base64_val ++ tab_s ++ show_u64 exp ++ lf_s
  | None => key ++ tab_s ++ "put" ++ tab_s ++ base64_val ++ tab_s ++ lf_s
  end.

(** [compact_log]: the new content of the log file. *)
Definition compact_log (file : string) (now : N) : string :=
  let latest := fold_left (compact_step now) (read_records file) ∅ in
  String.concat EmptyString (map compact_line (map_to_list latest)).

(** [String::from_utf8_lossy] is the identity on valid UTF-8, which every
    line the engine writes is; it is modelled as the identity. *)
Definition from_utf8_lossy (s : string) : string := s.

(** One line of the scan of [build_offset_index]; returns the new map and
    the new offset. *)
Definition index_step (now : N) (acc : gmap string (N * N) * N) (line : string)
    : gmap string (N * N) * N :=
  let '(idx, offset) := acc in
  let next := (offset + len_s line + 1)%N in
  match line with
  | EmptyString => (idx, offset)
  | _ =>
      match break_at TAB line with
      | None => (idx, next)
      | Some (k, r) =>
          let key := from_utf8_lossy k in
          let rest_str := from_utf8_lossy r in
          if String.eqb rest_str EmptyString then (delete key idx, next)
          else
            let parts := split_char TAB rest_str in
            if String.eqb (nth_str 0 parts) "put" then
              let expiry := match nth_error parts 2 with
                            | Some s => parse_u64 s
                            | None => None
                            end in
              match expiry with
              | Some exp =>
                  if (exp <? now)%N then (delete key idx, next)
                  else (<[key := (offset, len_s line)]> idx, next)
              | None => (<[key := (offset, len_s line)]> idx, next)
              end
            else if String.eqb (nth_str 0 parts) "del" then (delete key idx, next)
            else (idx, next)
      end
  end.

(** [build_offset_index] (the log is split on LF as bytes). *)
Definition build_offset_index (file : string) (now : N) : gmap string (N * N) :=
  fst (fold_left (index_step now) (split_char LF file) (∅, 0%N)).

(** [save_hint]: CSV [key,offset,len], in the map's iteration order. *)
Definition save_hint (idx : gmap string (N * N)) : string :=
  String.concat EmptyString
    (map (fun '(k, (off, len)) => k ++ "," ++ show_u64 off ++ "," ++ show_u64 len ++ lf_s)
         (map_to_list idx)).

(** [load_hint]: a line that is not UTF-8 is an I/O error. *)
Definition load_hint (hint : string) : result (gmap string (N * N)) :=
  let ls := lines hint in
  if forallb utf8_valid ls then
    Ok (fold_left (fun map l =>
                     match split_char "," l with
                     | [k; o; n] =>
                         match parse_u64 o, parse_usize n with
                         | Some off, Some len => <[k := (off, len)]> map
                         | _, _ => map
                         end
                     | _ => map
                     end) ls ∅)
  else Err Io.

(* ------------------------------------------------------------------ *)
(** ** The write-ahead log ([src/engine/wal.rs]): a [BufWriter<File>] *)

Module Wal.

Record t := mk { file : string; buf : string }.

(** [DEFAULT_BUF_SIZE] of [BufWriter] *)
Definition capacity : nat := 8192.

Definition flush_buf (w : t) : t := mk (file w ++ buf w) EmptyString.

(** [BufWriter::write_all] *)
Definition write_all (data : string) (w : t) : t :=
  let spare := capacity - String.length (buf w) in
  if Nat.ltb (String.length data) spare then mk (file w) (buf w ++ data)
  else
    let w := if Nat.ltb spare (String.length data) then flush_buf w else w in
    if Nat.leb capacity (String.length data) then mk (file w ++ data) (buf w)
    else mk (file w) (buf w ++ data).

(** [append]: [writeln!(self.writer, "{}", record)] writes the record, then
    the LF, through the buffer. *)
Definition append (record : string) (w : t) : t := write_all lf_s (write_all record w).

(** [flush] *)
Definition flush (w : t) : t := flush_buf w.

(** [iter]: the lines of the file on disk; lines that are not UTF-8 are
    dropped by [filter_map(Result::ok)]. *)
Definition iter (w : t) : list string := List.filter (fun l => utf8_valid l) (lines (file w)).

(** [clear]: truncates the file; the writer's buffer is kept. *)
Definition clear (w : t) : t := mk EmptyString (buf w).

(** [open]: a new writer over the existing file. *)
Definition open (contents : string) : t := mk contents EmptyString.

End Wal.

(* ------------------------------------------------------------------ *)
(** ** Serializers ([src/serialization]) *)

Record Serializer := {
  serialize : string -> result string;
  deserialize : string -> result string
}.

(** [String::from_utf8] *)
Definition from_utf8 (data : string) : result string :=
  if utf8_valid data then Ok data else Err InvalidRecord.

Definition PlainSerializer : Serializer :=
  {| serialize := fun value => Ok value; deserialize := from_utf8 |}.

Definition JsonSerializer : Serializer :=
  {| serialize := fun value => match Json.from_str value with
                               | Some v => Ok (Json.to_string v)
                               | None => Err Serde
                               end;
     deserialize := from_utf8 |}.

(* ------------------------------------------------------------------ *)
(** ** The engine state ([SlackbaseEngine] and its files) *)

Record Engine := mkEngine {
  log : string;                        (** the data log [<db>] *)
  hint : string;                       (** [<db>.hint] *)
  index : gmap string (N * N);         (** [index: HashMap<String, (u64, usize)>] *)
  sec_index : SecondaryIndex.t;
  secindex_file : SecondaryIndex.t;    (** [<db>.secindex], as serde writes it *)
  wal : Wal.t;                         (** [<db>.wal] and its writer *)
  write_buffer : list string;
  lru : list (string * string);
  read_ops : nat;
  write_ops : nat;
  hits : nat;
  misses : nat
}.

Definition set_log x s := mkEngine x (hint s) (index s) (sec_index s) (secindex_file s) (wal s) (write_buffer s) (lru s) (read_ops s) (write_ops s) (hits s) (misses s).
Definition set_hint x s := mkEngine (log s) x (index s) (sec_index s) (secindex_file s) (wal s) (write_buffer s) (lru s) (read_ops s) (write_ops s) (hits s) (misses s).
Definition set_index x s := mkEngine (log s) (hint s) x (sec_index s) (secindex_file s) (wal s) (write_buffer s) (lru s) (read_ops s) (write_ops s) (hits s) (misses s).
Definition set_sec_index x s := mkEngine (log s) (hint s) (index s) x (secindex_file s) (wal s) (write_buffer s) (lru s) (read_ops s) (write_ops s) (hits s) (misses s).
Definition set_secindex_file x s := mkEngine (log s) (hint s) (index s) (sec_index s) x (wal s) (write_buffer s) (lru s) (read_ops s) (write_ops s) (hits s) (misses s).
Definition set_wal x s := mkEngine (log s) (hint s) (index s) (sec_index s) (secindex_file s) x (write_buffer s) (lru s) (read_ops s) (write_ops s) (hits s) (misses s).
Definition set_write_buffer x s := mkEngine (log s) (hint s) (index s) (sec_index s) (secindex_file s) (wal s) x (lru s) (read_ops s) (write_ops s) (hits s) (misses s).
Definition set_lru x s := mkEngine (log s) (hint s) (index s) (sec_index s) (secindex_file s) (wal s) (write_buffer s) x (read_ops s) (write_ops s) (hits s) (misses s).
Definition set_read_ops x s := mkEngine (log s) (hint s) (index s) (sec_index s) (secindex_file s) (wal s) (write_buffer s) (lru s) x (write_ops s) (hits s) (misses s).
Definition set_write_ops x s := mkEngine (log s) (hint s) (index s) (sec_index s) (secindex_file s) (wal s) (write_buffer s) (lru s) (read_ops s) x (hits s) (misses s).
Definition set_hits x s := mkEngine (log s) (hint s) (index s) (sec_index s) (secindex_file s) (wal s) (write_buffer s) (lru s) (read_ops s) (write_ops s) x (misses s).
Definition set_misses x s := mkEngine (log s) (hint s) (index s) (sec_index s) (secindex_file s) (wal s) (write_buffer s) (lru s) (read_ops s) (write_ops s) (hits s) x.

(** Engine methods returning [Result<T>]: the state is threaded through,
    and an error ([?]) keeps the changes made before it. *)
Definition M (A : Type) := Engine -> result A * Engine.

Definition ret {A} (a : A) : M A := fun s => (Ok a, s).
Definition bind {A B} (m : M A) (k : A -> M B) : M B :=
  fun s => match m s with
           | (Ok a, s') => k a s'
           | (Err e, s') => (Err e, s')
           end.

Notation "x <- m ;; k" := (bind m (fun x => k)) (at level 100, m at next level, right associativity).
Notation "m ;;; k" := (bind m (fun _ => k)) (at level 100, right associativity).

(** The engine's methods ([impl SlackbaseEngine] in kv.rs). *)
Module Kv.

(** [flush_buffer]: the pending records go to the WAL writer. *)
Definition flush_buffer (s : Engine) : Engine :=
  set_write_buffer [] (set_wal (fold_left (fun w r => Wal.append r w) (write_buffer s) (wal s)) s).

(** [get] (kv.rs 151-185).  [None] on every failure. *)
Definition get (ser : Serializer) (now : N) (key : string) (s0 : Engine) : option string * Engine :=
  let s := set_read_ops (S (read_ops s0)) s0 in
  match Lru.get key (lru s) with
  | Some (val, l') => (Some val, set_hits (S (hits s)) (set_lru l' s))
  | None =>
      match index s !! key with
      | None => (None, s)
      | Some (offset, len) =>
          match read_record_slice (log s) offset len with
          | Ok (Some raw) =>
              let parts := split_char TAB raw in
              if (Nat.ltb (length parts) 3 || negb (String.eqb (nth_str 0 parts) "put"))%bool
              then (None, set_misses (S (misses s)) s)
              else
                let encoded_str := nth_str 2 parts in
                (* [Some true]: expired, [Some false]: live, [None]: bad expiry *)
                let expired :=
                  if (Nat.leb 4 (length parts) && negb (String.eqb (nth_str 3 parts) EmptyString))%bool
                  then match parse_u64 (nth_str 3 parts) with
                       | Some expires_at => Some (expires_at <? now)%N
                       | None => None
                       end
                  else Some false in
                match expired with
                | None => (None, s)
                | Some true => (None, set_misses (S (misses s)) s)
                | Some false =>
                    match b64_decode encoded_str with
                    | None => (None, s)
                    | Some bytes =>
                        match deserialize ser bytes with
                        | Err _ => (None, s)
                        | Ok value =>
                            (Some value,
                             set_hits (S (hits s)) (set_lru (Lru.put key value (lru s)) s))
                        end
                    end
                end
          | _ => (None, s)
          end
      end
  end.

(** [get] as a step of [M] (it never fails). *)
Definition getM (ser : Serializer) (now : N) (key : string) : M (option string) :=
  fun s => let '(v, s') := get ser now key s in (Ok v, s').

(** The log line [put_internal] writes. *)
Definition put_record (key encoded_str : string) (expires_at : option N) : string :=
  match expires_at with
  | Some ts => "put" ++ tab_s ++ key ++ tab_s ++ encoded_str ++ tab_s ++ show_u64 ts
  | None => "put" ++ tab_s ++ key ++ tab_s ++ encoded_str ++ tab_s
  end.

(** [put_internal] (kv.rs 109-137) *)
Definition put_internal (ser : Serializer) (now : N) (key value : string)
    (expires_at : option N) : M unit := fun s0 =>
  let s1 := set_write_ops (S (write_ops s0)) s0 in
  (* secondary index update *)
  let '(old_val, s2) := get ser now key s1 in
  let sec := SecondaryIndex.update key old_val (Some value) (sec_index s2) in
  let s3 := set_secindex_file sec (set_sec_index sec s2) in
  (* serialize value *)
  match serialize ser value with
  | Err e => (Err e, s3)
  | Ok encoded =>
      let encoded_str := b64_encode encoded in
      let record := put_record key encoded_str expires_at in
      (* write to WAL and buffer *)
      let s4 := flush_buffer (set_write_buffer (write_buffer s3 ++ [record]) s3) in
      let '(log', (offset, len)) := append_record (log s4) record in
      let idx := <[key := (offset, len)]> (index s4) in
      let s5 := set_hint (save_hint idx) (set_index idx (set_log log' s4)) in
      (* LRU cache: insert or update *)
      (Ok tt, set_lru (Lru.put key value (lru s5)) s5)
  end.

Definition put (ser : Serializer) (now : N) (key value : string) : M unit :=
  put_internal ser now key value None.

(** [putex]: [now + ttl_secs] on [u64] (wrapping, as in a release build). *)
Definition putex (ser : Serializer) (now : N) (key value : string) (ttl_secs : N) : M unit :=
  put_internal ser now key value (Some ((now + ttl_secs) mod u64_modulus)%N).

Definition del_record (key : string) : string := "del" ++ tab_s ++ key.

(** [delete] (kv.rs 188-208) *)
Definition delete (ser : Serializer) (now : N) (key : string) : M unit := fun s0 =>
  let s1 := set_write_ops (S (write_ops s0)) s0 in
  let '(old_val, s2) := get ser now key s1 in
  let record := del_record key in
  let s3 := flush_buffer (set_write_buffer (write_buffer s2 ++ [record]) s2) in
  let '(log', _) := append_record (log s3) record in
  let s4 := set_index (delete key (index s3)) (set_log log' s3) in
  let sec := SecondaryIndex.remove key old_val (sec_index s4) in
  let s5 := set_secindex_file sec (set_sec_index sec s4) in
  let s6 := set_lru (Lru.pop key (lru s5)) s5 in
  (Ok tt, set_hint (save_hint (index s6)) s6).

(** [crate::engine::batch::BatchOp] (src/engine/batch.rs is not among the
    sources): the two variants kv.rs and cli.rs build and match. *)
Inductive BatchOp := BPut (k v : string) | BDel (k : string).

(** The WAL line [batch] writes for an operation (the value is not
    encoded). *)
Definition batch_line (op : BatchOp) : string :=
  match op with
  | BPut k v => "put" ++ tab_s ++ k ++ tab_s ++ v
  | BDel k => "del" ++ tab_s ++ k
  end.

Definition apply_op (ser : Serializer) (now : N) (op : BatchOp) : M unit :=
  match op with
  | BPut k v => put ser now k v
  | BDel k => delete ser now k
  end.

Fixpoint apply_ops (ser : Serializer) (now : N) (ops : list BatchOp) : M unit :=
  match ops with
  | [] => ret tt
  | op :: r => apply_op ser now op ;;; apply_ops ser now r
  end.

(** The WAL writer after [batch] has written and flushed its lines. *)
Definition batch_wal (ops : list BatchOp) (w : Wal.t) : Wal.t :=
  let w := Wal.append "BEGIN" w in
  let w := fold_left (fun w op => Wal.append (batch_line op) w) ops w in
  Wal.flush (Wal.append "END" w).

(** [batch] (kv.rs 224-242) *)
Definition batch (ser : Serializer) (now : N) (ops : list BatchOp) : M unit := fun s0 =>
  let s1 := flush_buffer s0 in
  apply_ops ser now ops (set_wal (batch_wal ops (wal s1)) s1).

(** Replaying one buffered WAL line, as [recover_from_wal] does on [END]. *)
Definition replay_op (ser : Serializer) (now : N) (op : string) : M unit :=
  if starts_with ("put" ++ tab_s) op then
    match splitn_char 3 TAB op with
    | [_; k; v] => put ser now k v
    | _ => ret tt
    end
  else if starts_with ("del" ++ tab_s) op then
    match splitn_char 2 TAB op with
    | [_; k] => delete ser now k
    | _ => ret tt
    end
  else ret tt.

Fixpoint replay_ops (ser : Serializer) (now : N) (ops : list string) : M unit :=
  match ops with
  | [] => ret tt
  | op :: r => replay_op ser now op ;;; replay_ops ser now r
  end.

(** The loop of [recover_from_wal] over the WAL lines, with its [in_tx]
    flag and its [batch] buffer. *)
Fixpoint recover_loop (ser : Serializer) (now : N) (entries : list string)
    (in_tx : bool) (batch : list string) : M unit :=
  match entries with
  | [] => ret tt
  | entry :: r =>
      if String.eqb entry "BEGIN" then recover_loop ser now r true []
      else if (String.eqb entry "END" && in_tx)%bool then
        replay_ops ser now batch ;;; recover_loop ser now r false []
      else if in_tx then recover_loop ser now r true (batch ++ [entry])
      else recover_loop ser now r in_tx batch
  end.

(** [recover_from_wal] (kv.rs 245-278) *)
Definition recover_from_wal (ser : Serializer) (now : N) : M unit := fun s =>
  recover_loop ser now (Wal.iter (wal s)) false [] s.

(** [open] (kv.rs 43-97) over the files [<db>], [<db>.hint], [<db>.wal]
    and [<db>.secindex]; [use_hint] is the outcome of the mtime test. *)
Definition open (ser : Serializer) (now : N) (db_log hint_file wal_file : string)
    (secfile : SecondaryIndex.t) (use_hint : bool) : result Engine :=
  let w := Wal.open wal_file in
  let loaded := if use_hint then load_hint hint_file else Ok (build_offset_index db_log now) in
  match loaded with
  | Err e => Err e
  | Ok idx =>
      let hint' := if use_hint then hint_file else save_hint idx in
      let s := mkEngine db_log hint' idx secfile secfile w [] [] 0 0 0 0 in
      match recover_from_wal ser now s with
      | (Ok _, s') => Ok s'
      | (Err e, _) => Err e
      end
  end.

(** [compact] (kv.rs 211-221).  The hint is written after the rename, so
    the reopened engine loads it.  Replacing [*self] drops the old engine,
    whose WAL writer then flushes its buffer into the WAL file. *)
Definition compact (ser : Serializer) (now : N) : M unit := fun s0 =>
  let s1 := flush_buffer s0 in
  let s2 := set_log (compact_log (log s1) now) s1 in
  let idx := build_offset_index (log s2) now in
  let s3 := set_hint (save_hint idx) (set_index idx s2) in
  let s4 := set_wal (Wal.clear (wal s3)) s3 in
  match open ser now (log s4) (hint s4) (Wal.file (wal s4)) (secindex_file s4) true with
  | Err e => (Err e, s4)
  | Ok s5 =>
      (Ok tt, set_wal (Wal.mk (Wal.file (wal s5) ++ Wal.buf (wal s4)) (Wal.buf (wal s5))) s5)
  end.

(** [self.get(key).and_then(|s| serde_json::from_str::<Value>(&s).ok())] *)
Definition get_json (ser : Serializer) (now : N) (key : string) (s : Engine)
    : option Json.Value * Engine :=
  let '(v, s') := get ser now key s in
  (match v with Some x => Json.from_str x | None => None end, s').

(** [list_lpush] *)
Definition list_lpush (ser : Serializer) (now : N) (key value : string) : M unit := fun s0 =>
  let '(j, s1) := get_json ser now key s0 in
  let arr := match j with Some x => x | None => Json.Array [] end in
  let arr := match arr with
             | Json.Array vec => Json.Array (Json.Str value :: vec)
             | _ => Json.Array [Json.Str value]
             end in
  put ser now key (Json.to_string arr) s1.

(** [list_rpush] *)
Definition list_rpush (ser : Serializer) (now : N) (key value : string) : M unit := fun s0 =>
  let '(j, s1) := get_json ser now key s0 in
  let arr := match j with Some x => x | None => Json.Array [] end in
  let arr := match arr with
             | Json.Array vec => Json.Array (vec ++ [Json.Str value])
             | _ => Json.Array [Json.Str value]
             end in
  put ser now key (Json.to_string arr) s1.

(** [list_lpop]: the put's result is ignored ([let _ = ...]). *)
Definition list_lpop (ser : Serializer) (now : N) (key : string) (s0 : Engine)
    : option string * Engine :=
  match get_json ser now key s0 with
  | (Some (Json.Array (v :: vec)), s1) =>
      let val := Json.to_string v in
      (Some val, snd (put ser now key (Json.to_string (Json.Array vec)) s1))
  | (_, s1) => (None, s1)
  end.

(** The index arithmetic of [list_range] on [isize] (as [Z]); [None]
    stands for the empty result. *)
Definition range_bounds (len start end_ : Z) : option (Z * Z) :=
  let s := if (start <? 0)%Z then (len + start)%Z else start in
  let e := if (end_ <? 0)%Z then (len + end_)%Z else end_ in
  let s := Z.min (Z.max s 0) len in
  let e := Z.min (Z.max e 0) (len - 1) in
  if ((e <? s)%Z || (len =? 0)%Z)%bool then None else Some (s, e).

(** [vec[s..=e]] *)
Definition slice_incl {A} (vec : list A) (s e : Z) : list A :=
  firstn (Z.to_nat (e - s + 1)) (skipn (Z.to_nat s) vec).

(** [list_range] *)
Definition list_range (ser : Serializer) (now : N) (key : string) (start end_ : Z) (s0 : Engine)
    : option (list string) * Engine :=
  match get_json ser now key s0 with
  | (Some (Json.Array vec), s1) =>
      match range_bounds (Z.of_nat (length vec)) start end_ with
      | None => (Some [], s1)
      | Some (s, e) => (Some (map Json.to_string (slice_incl vec s e)), s1)
      end
  | (_, s1) => (None, s1)
  end.

(** [list_len] *)
Definition list_len (ser : Serializer) (now : N) (key : string) (s0 : Engine) : nat * Engine :=
  match get_json ser now key s0 with
  | (Some (Json.Array vec), s1) => (length vec, s1)
  | (_, s1) => (0%nat, s1)
  end.

(** [list_rpop]: the put's result is ignored ([let _ = ...]). *)
Definition list_rpop (ser : Serializer) (now : N) (key : string) (s0 : Engine)
    : option string * Engine :=
  match get_json ser now key s0 with
  | (Some (Json.Array (v :: vec)), s1) =>
      let val := Json.to_string (List.last (v :: vec) Json.Null) in
      (Some val, snd (put ser now key (Json.to_string (Json.Array (removelast (v :: vec)))) s1))
  | (_, s1) => (None, s1)
  end.

(** [list_push] *)
Definition list_push (ser : Serializer) (now : N) (key value : string) : M unit := fun s0 =>
  let '(j, s1) := get_json ser now key s0 in
  let arr := match j with Some x => x | None => Json.Array [] end in
  let arr := match arr with
             | Json.Array vec => Json.Array (vec ++ [Json.Str value])
             | _ => Json.Array [Json.Str value]
             end in
  put ser now key (Json.to_string arr) s1.

(** [v == &Value::String(value.to_string())] *)
Definition is_str (value : string) (v : Json.Value) : bool :=
  match v with
  | Json.Str t => String.eqb t value
  | _ => false
  end.

(** [set_add] *)
Definition set_add (ser : Serializer) (now : N) (key value : string) : M unit := fun s0 =>
  let '(j, s1) := get_json ser now key s0 in
  let arr := match j with Some x => x | None => Json.Array [] end in
  let arr := match arr with
             | Json.Array vec =>
                 if negb (existsb (is_str value) vec) then Json.Array (vec ++ [Json.Str value])
                 else Json.Array vec
             | _ => Json.Array [Json.Str value]
             end in
  put ser now key (Json.to_string arr) s1.

(** [json_set_field]; [save_sec_index] writes [<db>.secindex] and its
    result is ignored ([.ok()]). *)
Definition json_set_field (ser : Serializer) (now : N) (key field value : string) : M unit :=
  fun s0 =>
  let '(old_val, s1) := get ser now key s0 in
  let root := match old_val with
              | Some s => match Json.from_str s with Some v => v | None => Json.Object [] end
              | None => Json.Object []
              end in
  let new_val := match Json.from_str value with Some v => v | None => Json.Str value end in
  match root with
  | Json.Object map =>
      let new_json := Json.to_string (Json.Object (Json.map_insert field new_val map)) in
      let sec := SecondaryIndex.update key old_val (Some new_json) (sec_index s1) in
      put ser now key new_json (set_secindex_file sec (set_sec_index sec s1))
  | _ =>
      let new_json := Json.to_string (Json.Object (Json.map_insert field new_val [])) in
      let sec := SecondaryIndex.update key old_val (Some new_json) (sec_index s1) in
      put ser now key new_json (set_secindex_file sec (set_sec_index sec s1))
  end.

(** [json_get_field] *)
Definition json_get_field (ser : Serializer) (now : N) (key field : string) (s0 : Engine)
    : option string * Engine :=
  let '(j, s1) := get_json ser now key s0 in
  (match j with Some v => option_map Json.to_string (Json.get v field) | None => None end, s1).

(** The map [hash_set] and [hash_del] start from: the stored JSON object,
    or an empty one ([unwrap_or_default]). *)
Definition stored_map (o : option string) : list (string * Json.Value) :=
  match o with
  | Some s => match Json.map_from_str s with Some m => m | None => [] end
  | None => []
  end.

(** [hash_set] *)
Definition hash_set (ser : Serializer) (now : N) (key field value : string) : M unit := fun s0 =>
  let '(o, s1) := get ser now key s0 in
  let obj := Json.map_insert field (Json.Str value) (stored_map o) in
  put ser now key (Json.to_string (Json.Object obj)) s1.

(** [hash_get] *)
Definition hash_get (ser : Serializer) (now : N) (key field : string) (s0 : Engine)
    : option string * Engine :=
  let '(j, s1) := get_json ser now key s0 in
  (match j with Some v => option_map Json.to_string (Json.get v field) | None => None end, s1).

(** [hash_del] *)
Definition hash_del (ser : Serializer) (now : N) (key field : string) : M unit := fun s0 =>
  let '(o, s1) := get ser now key s0 in
  let obj := Json.map_remove field (stored_map o) in
  put ser now key (Json.to_string (Json.Object obj)) s1.

(** [hash_getall]: the members collected into a [HashMap], values
    JSON-serialized. *)
Definition hash_getall (ser : Serializer) (now : N) (key : string) (s0 : Engine)
    : option (gmap string string) * Engine :=
  let '(o, s1) := get ser now key s0 in
  (match o with
   | Some s => option_map (fun m => fold_left (fun acc '(k, v) => <[k := Json.to_string v]> acc)
                                              m ∅) (Json.map_from_str s)
   | None => None
   end, s1).

(** [keys.sort()] on distinct keys: the keys in increasing byte order. *)
Fixpoint insert_sorted (k : string) (l : list string) : list string :=
  match l with
  | [] => [k]
  | x :: r => if String.leb k x then k :: l else x :: insert_sorted k r
  end.

Definition sort_keys (l : list string) : list string := fold_right insert_sorted [] l.

(** The loop of [scan] over the sorted keys. *)
Fixpoint scan_loop (ser : Serializer) (now : N) (prefix : option string)
    (range : option (string * string)) (keys : list string) (s : Engine)
    : list (string * option string) * Engine :=
  match keys with
  | [] => ([], s)
  | key :: r =>
      let skip :=
        (match prefix with Some pfx => negb (starts_with pfx key) | None => false end ||
         match range with
         | Some (a, b) => String.ltb key a || String.ltb b key
         | None => false
         end)%bool in
      if skip then scan_loop ser now prefix range r s
      else
        let '(value, s1) := get ser now key s in
        let '(result, s2) := scan_loop ser now prefix range r s1 in
        ((key, value) :: result, s2)
  end.

(** [scan] *)
Definition scan (ser : Serializer) (now : N) (prefix : option string)
    (range : option (string * string)) (s : Engine) : list (string * option string) * Engine :=
  scan_loop ser now prefix range (sort_keys (map fst (map_to_list (index s)))) s.

End Kv.

(** The engine over a database whose files do not exist yet. *)
Definition empty_engine : Engine :=
  mkEngine EmptyString EmptyString ∅ ∅ ∅ (Wal.mk EmptyString EmptyString) [] [] 0 0 0 0.

(** Single public operations and runs of them; each operation of a run is
    a separate call, so a failing one does not stop the run. *)
Inductive Op := OPut (k v : string) | OPutex (k v : string) (ttl : N) | ODel (k : string).

Definition run_op (ser : Serializer) (now : N) (op : Op) : M unit :=
  match op with
  | OPut k v => Kv.put ser now k v
  | OPutex k v ttl => Kv.putex ser now k v ttl
  | ODel k => Kv.delete ser now k
  end.

Fixpoint run (ser : Serializer) (ops : list (N * Op)) (s : Engine) : Engine :=
  match ops with
  | [] => s
  | (now, op) :: r => run ser r (snd (run_op ser now op s))
  end.


(* ------------------------------------------------------------------ *)
(** ** Auxiliary notions used in the statements *)

(** Every byte of [s] satisfies [p]. *)
Fixpoint all_chars (p : ascii -> bool) (s : string) : bool :=
  match s with
  | EmptyString => true
  | String c r => p c && all_chars p r
  end.

Definition no_char (c : ascii) (s : string) : bool := all_chars (fun a => negb (Ascii.eqb a c)) s.

(** The last byte of [s] is [c] ([false] on the empty string). *)
Definition ends_with (c : ascii) (s : string) : bool :=
  match String.get (String.length s - 1) s with
  | Some a => Ascii.eqb a c
  | None => false
  end.

(** [n] puts of the fresh keys [f0], [f1], ... at time [t]; with [n = 1024]
    they push every earlier key out of the LRU cache. *)
Definition filler (t : N) (n : nat) : list (N * Op) :=
  map (fun i => (t, OPut ("f" ++ show_u64 (N.of_nat i)) "x")) (seq 0 n).

(** *** WAL recovery *)

(** The lines [recover_loop] hands to [replay_ops], in order. *)
Fixpoint recovered (entries : list string) (in_tx : bool) (batch : list string) : list string :=
  match entries with
  | [] => []
  | entry :: r =>
      if String.eqb entry "BEGIN" then recovered r true []
      else if (String.eqb entry "END" && in_tx)%bool then batch ++ recovered r false []
      else if in_tx then recovered r true (batch ++ [entry])
      else recovered r in_tx batch
  end.

Definition not_marker (l : string) : Prop := l <> "BEGIN" /\ l <> "END".

(** The specification's reading of a WAL: the lines enclosed by matched
    [BEGIN]/[END] pairs, in order; lines outside a pair are ignored, and a
    [BEGIN] that is not closed before the next [BEGIN] or the end of the
    file contributes nothing. *)
Inductive enclosed : list string -> list string -> Prop :=
| enc_nil : enclosed [] []
| enc_outside l r o : l <> "BEGIN" -> enclosed r o -> enclosed (l :: r) o
| enc_pair body r o : Forall not_marker body -> enclosed r o ->
    enclosed (("BEGIN" :: body) ++ "END" :: r) (body ++ o)
| enc_dangling body r o : Forall not_marker body -> enclosed ("BEGIN" :: r) o ->
    enclosed (("BEGIN" :: body) ++ "BEGIN" :: r) o
| enc_dangling_last body : Forall not_marker body -> enclosed ("BEGIN" :: body) [].

(** The bytes [batch] adds to the WAL stream. *)
Definition batch_bytes (ops : list Kv.BatchOp) : string :=
  "BEGIN" ++ lf_s ++ String.concat EmptyString (map (fun op => Kv.batch_line op ++ lf_s) ops)
  ++ "END" ++ lf_s.

(** A batch operation whose WAL line reads back as itself: a UTF-8 line
    (Rust strings are) with no LF and no final CR, and a put key with no
    TAB. *)
Definition batch_op_ok (op : Kv.BatchOp) : bool :=
  let l := Kv.batch_line op in
  no_char LF l && negb (ends_with CR l) && utf8_valid l &&
  match op with
  | Kv.BPut k _ => no_char TAB k
  | Kv.BDel _ => true
  end.

(** *** The live mapping of a run of [put]/[putex]/[delete] *)

(** Key to (value, expiry). *)
Abbreviation store := (gmap string (string * option N)).

Definition abs_op (now : N) (op : Op) (cur : store) : store :=
  match op with
  | OPut k v => <[k := (v, None)]> cur
  | OPutex k v ttl => <[k := (v, Some ((now + ttl) mod u64_modulus)%N)]> cur
  | ODel k => delete k cur
  end.

Fixpoint abs_run (ops : list (N * Op)) (cur : store) : store :=
  match ops with
  | [] => cur
  | (now, op) :: r => abs_run r (abs_op now op cur)
  end.

(** A record is live at [now] unless its expiry is before [now]
    ([get] tests [now > expires_at]). *)
Definition live (now : N) (e : option N) : bool :=
  match e with
  | Some x => (now <=? x)%N
  | None => true
  end.

Definition live_at (now : N) (cur : store) : bool :=
  forallb (fun kve => live now kve.2.2) (map_to_list cur).

(** No stored expiry has passed at the time of a later operation. *)
Fixpoint no_expiry_passed (ops : list (N * Op)) (cur : store) : bool :=
  match ops with
  | [] => true
  | (now, op) :: r => live_at now cur && no_expiry_passed r (abs_op now op cur)
  end.

(** Keys without TAB (the record separator); keys and values UTF-8. *)
Definition op_ok (op : Op) : bool :=
  match op with
  | OPut k v | OPutex k v _ => no_char TAB k && utf8_valid k && utf8_valid v
  | ODel _ => true
  end.

(** The (field, stringified value) pairs the secondary index holds for a
    value. *)
Definition fields_of (o : option string) : list (string * string) :=
  match o with
  | Some s => default [] (SecondaryIndex.object_fields s)
  | None => []
  end.

Definition sec_mem (idx : SecondaryIndex.t) (f sv k : string) : Prop :=
  exists m set, idx !! f = Some m /\ m !! sv = Some set /\ k ∈ set.

(** *** The engine invariant relating a state to the live mapping *)

Definition record_at (file : string) (off len : N) (k v : string) (e : option N) : Prop :=
  (off + len <= len_s file)%N /\
  String.substring (N.to_nat off) (N.to_nat len) file = Kv.put_record k (b64_encode v) e ++ lf_s.

Definition lru_ok (cur : store) (l : list (string * string)) : Prop :=
  forall k v, In (k, v) l -> exists e, cur !! k = Some (v, e).

Definition index_ok (file : string) (idx : gmap string (N * N)) (cur : store) : Prop :=
  forall k, match idx !! k, cur !! k with
            | Some (off, len), Some (v, e) => record_at file off len k v e
            | None, None => True
            | _, _ => False
            end.

Record inv (s : Engine) (cur : store) : Prop := {
  inv_lru : lru_ok cur (lru s);
  inv_index : index_ok (log s) (index s) cur;
  inv_sec : forall f sv k, sec_mem (sec_index s) f sv k <->
              exists v e, cur !! k = Some (v, e) /\ In (f, sv) (fields_of (Some v));
  inv_ok : forall k v e, cur !! k = Some (v, e) ->
             no_char TAB k = true /\ utf8_valid k = true /\ utf8_valid v = true /\
             match e with Some x => (x <= u64_max)%N | None => True end
}.

(** *** Character classes of the record fields *)

(** Not one-byte white space. *)
Definition not_ws (c : ascii) : bool := negb (is_ws c).

(** The base64 alphabet and its padding. *)
Definition b64c (c : ascii) : bool :=
  match b64_val c with
  | Some _ => true
  | None => Ascii.eqb c PAD
  end.

(** The bytes of the record fields are plain ASCII, neither TAB nor white
    space. *)
Definition field_char (c : ascii) : bool :=
  (byte c <? 128)%N && negb (Ascii.eqb c TAB) && not_ws c.

(** *** The WAL writer *)

(** The bytes written to the WAL writer so far: the file, then the
    writer's buffer. *)
Definition wal_stream (w : Wal.t) : string := Wal.file w ++ Wal.buf w.

(** The bytes [flush_buffer] hands to the WAL writer for pending records. *)
Definition pending_bytes (rs : list string) : string :=
  String.concat EmptyString (map (fun r => r ++ lf_s) rs).

(** No prefix of the line is the marker [END]. *)
Definition no_end_prefix (l : string) : Prop := forall u v, l = u ++ v -> u <> "END".

(** *** Lists *)

(** The specification's reading of [list_range vec start end]: a negative
    index counts from the tail ([len + index]), an index below 0 is taken
    as 0, and the result is the elements whose position lies between the
    two, in list order. *)
Definition range_elements (vec : list Json.Value) (start end_ : Z) : list Json.Value :=
  let len := Z.of_nat (length vec) in
  let from_tail i := if (i <? 0)%Z then (len + i)%Z else i in
  let a := Z.max (from_tail start) 0 in
  let b := Z.max (from_tail end_) 0 in
  map snd (List.filter (fun p => (a <=? Z.of_nat p.1) && (Z.of_nat p.1 <=? b))%Z
                       (combine (seq 0 (length vec)) vec)).


(** *** JSON values that [serde_json] writes and reads back *)

(** Object keys in strictly increasing byte order, as serde_json's
    [Map] (a [BTreeMap]) keeps them. *)
Fixpoint keys_sorted (m : list (string * Json.Value)) : bool :=
  match m with
  | [] => true
  | (k, _) :: r =>
      forallb (fun p => match String.compare k p.1 with Lt => true | _ => false end) r &&
      keys_sorted r
  end.

(** The values [Json.from_str] can produce: integers in the [i64]/[u64]
    range, objects with sorted distinct keys. *)
Fixpoint json_wf (v : Json.Value) : bool :=
  match v with
  | Json.Number z => (- Z.of_N Json.i64_min_abs <=? z)%Z && (z <=? Z.of_N u64_max)%Z
  | Json.Array l => forallb json_wf l
  | Json.Object m => keys_sorted m && forallb (fun '(_, x) => json_wf x) m
  | _ => true
  end.

(** The array loop of [Json.parse_value] at fuel [f]. *)
Definition json_elems (f : nat) :=
  fix elems (g : nat) (s : string) (acc : list Json.Value) : option (list Json.Value * string) :=
    match g with
    | O => None
    | S g' =>
        match Json.parse_value f (Json.skip_ws s) with
        | Some (v, r) =>
            match Json.skip_ws r with
            | String "," r' => elems g' r' (v :: acc)
            | String "]" r' => Some (rev (v :: acc), r')
            | _ => None
            end
        | None => None
        end
    end.

(** The object loop of [Json.parse_value] at fuel [f]. *)
Definition json_members (f : nat) :=
  fix members (g : nat) (s : string) (acc : list (string * Json.Value))
      : option (list (string * Json.Value) * string) :=
    match g with
    | O => None
    | S g' =>
        match Json.skip_ws s with
        | String c r =>
            if ascii_dec c Json.QUOTE then
              match Json.parse_str r with
              | Some (k, r1) =>
                  match Json.skip_ws r1 with
                  | String ":" r2 =>
                      match Json.parse_value f (Json.skip_ws r2) with
                      | Some (v, r3) =>
                          match Json.skip_ws r3 with
                          | String "," r' => members g' r' (Json.map_insert k v acc)
                          | String "}" r' => Some (Json.map_insert k v acc, r')
                          | _ => None
                          end
                      | None => None
                      end
                  | _ => None
                  end
              | None => None
              end
            else None
        | EmptyString => None
        end
    end.

(** What may follow a value inside a document: nothing, or a
    separator or closing bracket. *)
Definition json_delim (rest : string) : Prop :=
  match rest with
  | EmptyString => True
  | String c _ => c = ","%char \/ c = "]"%char \/ c = "}"%char
  end.

(** The characters a serialized JSON value can start with. *)
Definition json_first_chars : list ascii :=
  ["n"; "t"; "f"; "-"; "0"; "1"; "2"; "3"; "4"; "5"; "6"; "7"; "8"; "9"; Json.QUOTE; "["; "{"]%char.

Definition hint_ok (k : string) (p : N * N) : Prop :=
  no_char "," k = true /\ no_char LF k = true /\ utf8_valid k = true /\
  (p.1 <= u64_max)%N /\ (p.2 <= u64_max)%N.

(** The key filter of [scan]: [true] when the key is skipped. *)
Definition scan_skip (prefix : option string) (range : option (string * string)) (key : string) : bool :=
  (match prefix with Some pfx => negb (starts_with pfx key) | None => false end ||
   match range with
   | Some (a, b) => String.ltb key a || String.ltb b key
   | None => false
   end)%bool.

Definition slt (a b : string) : Prop := String.compare a b = Lt.


(* ================================================================== *)
(** * Proofs *)

(** ** Strings *)

Lemma sapp_assoc (a b c : string) : (a ++ b) ++ c = a ++ (b ++ c).
Proof. induction a as [|x a IH]; simpl; congruence. Qed.

Lemma sapp_nil_r (a : string) : a ++ EmptyString = a.
Proof. induction a as [|x a IH]; simpl; congruence. Qed.

Lemma slength_app (a b : string) :
  String.length (a ++ b) = (String.length a + String.length b)%nat.
Proof. induction a as [|x a IH]; simpl; auto. Qed.

Lemma substring_app_l (a b : string) n m :
  (n + m <= String.length a)%nat -> String.substring n m (a ++ b) = String.substring n m a.
Proof.
  revert n m. induction a as [|x a IH]; intros [|n] [|m] H; simpl in *; try lia;
    try (destruct b; reflexivity); try (f_equal; apply IH; lia); apply IH; lia.
Qed.

Lemma substring_prefix (a b : string) :
  String.substring 0 (String.length a) (a ++ b) = a.
Proof. induction a as [|x a IH]; [destruct b; reflexivity|simpl; rewrite IH; reflexivity]. Qed.

Lemma substring_app_r (a b : string) n m :
  String.substring (String.length a + n) m (a ++ b) = String.substring n m b.
Proof. induction a as [|x a IH]; simpl; auto. Qed.

Lemma substring_middle (a b c : string) :
  String.substring (String.length a) (String.length b) (a ++ b ++ c) = b.
Proof.
  rewrite <- (Nat.add_0_r (String.length a)). rewrite substring_app_r. apply substring_prefix.
Qed.

Lemma all_chars_app p (a b : string) : all_chars p (a ++ b) = all_chars p a && all_chars p b.
Proof. induction a as [|x a IH]; simpl; [|rewrite IH; destruct (p x)]; auto. Qed.

Lemma ascii_eqb_false a c : Ascii.eqb a c = false -> a <> c.
Proof. intros H ->. rewrite Ascii.eqb_refl in H. discriminate. Qed.

Lemma split_char_no_char c s : no_char c s = true -> split_char c s = [s].
Proof.
  induction s as [|x s IH]; simpl; auto. unfold no_char in *; simpl.
  intros H. apply andb_prop in H as [H1 H2]. apply negb_true_iff, ascii_eqb_false in H1.
  destruct (ascii_dec x c); [contradiction|]. rewrite IH by exact H2. reflexivity.
Qed.

Lemma split_char_app c a b :
  no_char c a = true -> split_char c (a ++ String c b) = a :: split_char c b.
Proof.
  induction a as [|x a IH]; simpl; intros H.
  - destruct (ascii_dec c c); [reflexivity|contradiction].
  - unfold no_char in H; simpl in H. apply andb_prop in H as [H1 H2].
    apply negb_true_iff, ascii_eqb_false in H1.
    destruct (ascii_dec x c); [contradiction|]. rewrite IH by exact H2. reflexivity.
Qed.

Lemma str_concat_app (l1 l2 : list string) :
  str_concat (l1 ++ l2)%list = str_concat l1 ++ str_concat l2.
Proof. induction l1 as [|x l1 IH]; simpl; [reflexivity|]. rewrite IH, sapp_assoc. reflexivity. Qed.

Lemma str_concat_utf8_chars s : str_concat (utf8_chars s) = s.
Proof.
  remember (String.length s) as n eqn:En. assert (String.length s <= n)%nat as Hn by lia.
  clear En. revert s Hn. induction n as [n IH] using lt_wf_ind. intros s Hn.
  destruct s as [|c r]; [reflexivity|]. simpl in Hn. cbn [utf8_chars].
  destruct (byte c <? 192)%N.
  { cbn [str_concat]. rewrite (IH (String.length r)) by lia. reflexivity. }
  destruct (byte c <? 224)%N.
  { destruct r as [|c2 r2]; [reflexivity|]. cbn [str_concat]. simpl in Hn.
    rewrite (IH (String.length r2)) by lia. reflexivity. }
  destruct (byte c <? 240)%N.
  { destruct r as [|c2 [|c3 r3]]; try reflexivity. cbn [str_concat]. simpl in Hn.
    rewrite (IH (String.length r3)) by lia. reflexivity. }
  destruct r as [|c2 [|c3 [|c4 r4]]]; try reflexivity. cbn [str_concat]. simpl in Hn.
  rewrite (IH (String.length r4)) by lia. reflexivity.
Qed.

Lemma utf8_chars_nonempty s : List.Forall (fun x => x <> EmptyString) (utf8_chars s).
Proof.
  remember (String.length s) as n eqn:En. assert (String.length s <= n)%nat as Hn by lia.
  clear En. revert s Hn. induction n as [n IH] using lt_wf_ind. intros s Hn.
  destruct s as [|c r]; [constructor|]. simpl in Hn. cbn [utf8_chars].
  destruct (byte c <? 192)%N.
  { constructor; [discriminate|]. apply (IH (String.length r)); lia. }
  destruct (byte c <? 224)%N.
  { destruct r as [|c2 r2]; [repeat constructor; discriminate|]. simpl in Hn.
    constructor; [discriminate|]. apply (IH (String.length r2)); lia. }
  destruct (byte c <? 240)%N.
  { destruct r as [|c2 [|c3 r3]]; try (repeat constructor; discriminate). simpl in Hn.
    constructor; [discriminate|]. apply (IH (String.length r3)); lia. }
  destruct r as [|c2 [|c3 [|c4 r4]]]; try (repeat constructor; discriminate). simpl in Hn.
  constructor; [discriminate|]. apply (IH (String.length r4)); lia.
Qed.

Lemma utf8_chars_app a b :
  utf8_valid a = true -> utf8_chars (a ++ b) = (utf8_chars a ++ utf8_chars b)%list.
Proof.
  remember (String.length a) as n eqn:En. assert (String.length a <= n)%nat as Hn by lia.
  clear En. revert a Hn. induction n as [n IH] using lt_wf_ind. intros a Hn Ha.
  destruct a as [|c r]; [reflexivity|]. simpl in Hn.
  cbn [String.append utf8_valid utf8_chars] in Ha |- *.
  unfold in_range in Ha.
  destruct (N.ltb_spec (byte c) 128) as [L1|L1].
  { assert ((byte c <? 192)%N = true) as -> by (apply N.ltb_lt; lia).
    rewrite (IH (String.length r)) by (auto; lia). reflexivity. }
  destruct (N.leb_spec 194 (byte c)) as [L2|L2]; cbn [andb] in Ha.
  2:{ assert ((224 <=? byte c)%N = false) as E1 by (apply N.leb_gt; lia).
      assert ((240 <=? byte c)%N = false) as E2 by (apply N.leb_gt; lia).
      rewrite E1, E2 in Ha. discriminate. }
  assert ((byte c <? 192)%N = false) as -> by (apply N.ltb_ge; lia).
  destruct (N.leb_spec (byte c) 223) as [L3|L3]; cbn [andb] in Ha.
  { assert ((byte c <? 224)%N = true) as -> by (apply N.ltb_lt; lia).
    destruct r as [|c2 r2]; [discriminate|]. cbn [String.append]. simpl in Hn.
    apply andb_prop in Ha as [_ Ha].
    rewrite (IH (String.length r2)) by (auto; lia). reflexivity. }
  assert ((byte c <? 224)%N = false) as -> by (apply N.ltb_ge; lia).
  assert ((224 <=? byte c)%N = true) as E by (apply N.leb_le; lia). rewrite E in Ha. clear E.
  destruct (N.leb_spec (byte c) 239) as [L4|L4]; cbn [andb] in Ha.
  { assert ((byte c <? 240)%N = true) as -> by (apply N.ltb_lt; lia).
    destruct r as [|c2 [|c3 r3]]; try discriminate. cbn [String.append]. simpl in Hn.
    apply andb_prop in Ha as [_ Ha].
    rewrite (IH (String.length r3)) by (auto; lia). reflexivity. }
  assert ((byte c <? 240)%N = false) as -> by (apply N.ltb_ge; lia).
  assert ((240 <=? byte c)%N = true) as E by (apply N.leb_le; lia). rewrite E in Ha. clear E.
  destruct (N.leb_spec (byte c) 244) as [L5|L5]; cbn [andb] in Ha; [|discriminate].
  destruct r as [|c2 [|c3 [|c4 r4]]]; try discriminate. cbn [String.append]. simpl in Hn.
  apply andb_prop in Ha as [_ Ha].
  rewrite (IH (String.length r4)) by (auto; lia). reflexivity.
Qed.

Lemma trim_chars_app_ne (la lb : list string) :
  trim_chars lb <> [] -> trim_chars (la ++ lb)%list = (la ++ trim_chars lb)%list.
Proof.
  intros Hb. induction la as [|x la IH]; simpl; auto. rewrite IH.
  destruct (la ++ trim_chars lb)%list eqn:E; [|reflexivity].
  destruct la; simpl in E; [contradiction|discriminate].
Qed.

Lemma trim_chars_app_e (la lb : list string) :
  trim_chars lb = [] -> trim_chars (la ++ lb)%list = trim_chars la.
Proof. intros Hb. induction la as [|x la IH]; simpl; auto. rewrite IH. reflexivity. Qed.

Lemma trim_chars_prefix (l : list string) : exists t, l = (trim_chars l ++ t)%list.
Proof.
  induction l as [|x l [t IH]]; [exists []; reflexivity|]. simpl.
  destruct (trim_chars l) as [|y r] eqn:E.
  - destruct (is_ws_char x); [exists (x :: t)|exists t]; simpl; rewrite IH; reflexivity.
  - exists t. rewrite IH at 1. reflexivity.
Qed.

Lemma trim_end_nil s :
  trim_end s = EmptyString -> trim_chars (utf8_chars s) = [].
Proof.
  unfold trim_end. intros H. destruct (trim_chars_prefix (utf8_chars s)) as [t Et].
  pose proof (utf8_chars_nonempty s) as Hne. rewrite Et in Hne.
  apply List.Forall_app in Hne as [Hne _].
  destruct (trim_chars (utf8_chars s)) as [|x r]; [reflexivity|].
  inversion Hne as [|? ? Hx _]; subst. simpl in H. destruct x; [contradiction|discriminate].
Qed.

Lemma trim_end_app_ne (a b : string) :
  utf8_valid a = true -> trim_end b <> EmptyString -> trim_end (a ++ b) = a ++ trim_end b.
Proof.
  intros Ha Hb. unfold trim_end in *. rewrite utf8_chars_app by exact Ha.
  rewrite trim_chars_app_ne.
  - rewrite str_concat_app, str_concat_utf8_chars. reflexivity.
  - intros E. apply Hb. rewrite E. reflexivity.
Qed.

Lemma trim_end_app_e (a b : string) :
  utf8_valid a = true -> trim_end b = EmptyString -> trim_end (a ++ b) = trim_end a.
Proof.
  intros Ha Hb. apply trim_end_nil in Hb. unfold trim_end.
  rewrite utf8_chars_app by exact Ha. rewrite trim_chars_app_e by exact Hb. reflexivity.
Qed.

Lemma trim_chars_field s :
  all_chars field_char s = true -> trim_chars (utf8_chars s) = utf8_chars s.
Proof.
  induction s as [|x s IH]; simpl; auto. intros H. apply andb_prop in H as [H1 H2].
  unfold field_char, not_ws in H1. apply andb_prop in H1 as [H1 H3].
  apply andb_prop in H1 as [H1 _]. apply N.ltb_lt in H1.
  assert ((byte x <? 192)%N = true) as -> by (apply N.ltb_lt; lia). simpl.
  rewrite IH by exact H2. destruct (utf8_chars s); [|reflexivity].
  destruct (is_ws x); [discriminate|reflexivity].
Qed.

Lemma trim_end_id s : all_chars field_char s = true -> trim_end s = s.
Proof.
  intros H. unfold trim_end. rewrite trim_chars_field by exact H. apply str_concat_utf8_chars.
Qed.

Lemma all_chars_trim_end p s : all_chars p s = true -> all_chars p (trim_end s) = true.
Proof.
  intros H. unfold trim_end. destruct (trim_chars_prefix (utf8_chars s)) as [t Et].
  rewrite <- (str_concat_utf8_chars s), Et, str_concat_app, all_chars_app in H.
  apply andb_prop in H as [H _]. exact H.
Qed.

Lemma all_chars_impl (p q : ascii -> bool) s :
  (forall c, p c = true -> q c = true) -> all_chars p s = true -> all_chars q s = true.
Proof.
  intros Hpq. induction s as [|x s IH]; simpl; auto. intros H.
  apply andb_prop in H as [H1 H2]. rewrite Hpq, IH; auto.
Qed.

(** ** Decimal round trip *)

Lemma digit_char_ok d :
  (d < 10)%N -> is_digit (digit_char d) = true /\ digit_val (digit_char d) = d.
Proof.
  intros H.
  assert (d = 0 \/ d = 1 \/ d = 2 \/ d = 3 \/ d = 4 \/ d = 5 \/ d = 6 \/ d = 7 \/ d = 8 \/ d = 9)%N
    as Hd by lia.
  repeat destruct Hd as [-> | Hd]; [..|subst]; split; reflexivity.
Qed.

Lemma parse_show_aux f n acc a :
  (n < 10 ^ N.of_nat f)%N ->
  exists k, parse_digits a (show_N_aux f n acc) = parse_digits (a * 10 ^ k + n) acc.
Proof.
  revert n acc a. induction f as [|f IH]; intros n acc a H; simpl.
  - exists 0%N. simpl in H. assert (n = 0%N) as -> by lia. f_equal; lia.
  - destruct (digit_char_ok (n mod 10)) as [Hd Hv]; [apply N.mod_lt; lia|].
    rewrite Nat2N.inj_succ, N.pow_succ_r' in H.
    destruct (n <? 10)%N eqn:Hlt.
    + apply N.ltb_lt in Hlt. exists 1%N. simpl. rewrite Hd, Hv.
      rewrite N.mod_small by exact Hlt. f_equal; lia.
    + apply N.ltb_ge in Hlt.
      destruct (IH (n / 10)%N (String (digit_char (n mod 10)) acc) a) as [k Hk].
      { apply N.Div0.div_lt_upper_bound. lia. }
      exists (k + 1)%N. rewrite Hk. simpl. rewrite Hd, Hv. f_equal.
      rewrite N.pow_add_r. pose proof (N.div_mod n 10). lia.
Qed.

Lemma show_aux_digits f n acc :
  all_chars is_digit acc = true -> all_chars is_digit (show_N_aux f n acc) = true.
Proof.
  revert n acc. induction f as [|f IH]; intros n acc H; simpl; auto.
  destruct (digit_char_ok (n mod 10)) as [Hd _]; [apply N.mod_lt; lia|].
  destruct (n <? 10)%N; [|apply IH]; simpl; rewrite Hd; exact H.
Qed.

Lemma show_aux_head f n c acc :
  is_digit c = true -> exists c' r, show_N_aux f n (String c acc) = String c' r /\ is_digit c' = true.
Proof.
  revert n c acc. induction f as [|f IH]; intros n c acc H; simpl; eauto.
  destruct (digit_char_ok (n mod 10)) as [Hd _]; [apply N.mod_lt; lia|].
  destruct (n <? 10)%N; [eauto|]. apply IH. exact Hd.
Qed.

Lemma show_N_aux_S f n acc :
  show_N_aux (S f) n acc =
  (if (n <? 10)%N then String (digit_char (n mod 10)) acc
   else show_N_aux f (n / 10) (String (digit_char (n mod 10)) acc)).
Proof. reflexivity. Qed.

Lemma show_u64_head n : exists c r, show_u64 n = String c r /\ is_digit c = true.
Proof.
  unfold show_u64. rewrite show_N_aux_S.
  destruct (digit_char_ok (n mod 10)) as [Hd _]; [apply N.mod_lt; lia|].
  destruct (n <? 10)%N; [eauto|]. apply show_aux_head. exact Hd.
Qed.

Lemma show_u64_digits n : all_chars is_digit (show_u64 n) = true.
Proof. apply show_aux_digits. reflexivity. Qed.

Lemma parse_u64_digit c r :
  is_digit c = true ->
  parse_u64 (String c r) = match parse_digits 0 (String c r) with
                           | Some n => if (n <=? u64_max)%N then Some n else None
                           | None => None
                           end.
Proof. intros H. destruct c as [[|][|][|][|][|][|][|][|]]; try discriminate H; reflexivity. Qed.

Lemma parse_show_u64 n : (n <= u64_max)%N -> parse_u64 (show_u64 n) = Some n.
Proof.
  intros H. destruct (show_u64_head n) as (c & r & E & Hc). rewrite E, parse_u64_digit by exact Hc.
  rewrite <- E. destruct (parse_show_aux 20 n EmptyString 0) as [k Hk].
  { unfold u64_max, u64_modulus in H. simpl. lia. }
  unfold show_u64. rewrite Hk. cbn [parse_digits]. replace (0 * 10 ^ k + n)%N with n by lia.
  apply N.leb_le in H. rewrite H. reflexivity.
Qed.

(** ** Base64 round trip *)

Lemma b64_val_char n : (n < 64)%N -> b64_val (b64_char n) = Some n.
Proof.
  intros H. rewrite <- (N2Nat.id n). assert (N.to_nat n < 64)%nat as Hm by lia.
  generalize (N.to_nat n) Hm. clear. intros m Hm.
  do 64 (destruct m as [|m]; [reflexivity|]). lia.
Qed.

Lemma b64_char_not_pad n : (n < 64)%N -> b64_char n <> PAD.
Proof. intros H E. pose proof (b64_val_char n H) as V. rewrite E in V. discriminate. Qed.

Lemma divmod_combine (h l d : N) : (l < d)%N -> ((h * d + l) / d = h /\ (h * d + l) mod d = l)%N.
Proof.
  intros H. split.
  - symmetry. apply (N.div_unique _ _ _ l); [exact H|]. lia.
  - symmetry. apply (N.mod_unique _ _ h); [exact H|]. lia.
Qed.

Lemma byte_lt a : (byte a < 256)%N.
Proof. apply N_ascii_bounded. Qed.

Ltac byte_bounds :=
  repeat match goal with
  | a : ascii |- _ =>
      match goal with
      | _ : (byte a < 256)%N |- _ => fail 1
      | _ => pose proof (byte_lt a)
      end
  end.

Lemma join_hi_lo (x d : N) : (0 < d)%N -> (x / d * d + x mod d = x)%N.
Proof. intros H. pose proof (N.div_mod x d). lia. Qed.

Lemma b64_chunk3 a b c :
  byte3 (byte a / 4) ((byte a mod 4) * 16 + byte b / 16)
        ((byte b mod 16) * 4 + byte c / 64) (byte c mod 64)
  = String a (String b (String c EmptyString)).
Proof.
  byte_bounds. unfold byte3.
  assert (byte b / 16 < 16)%N by (apply N.Div0.div_lt_upper_bound; lia).
  assert (byte c / 64 < 4)%N by (apply N.Div0.div_lt_upper_bound; lia).
  destruct (divmod_combine (byte a mod 4) (byte b / 16) 16) as [E1 E2]; [assumption|].
  destruct (divmod_combine (byte b mod 16) (byte c / 64) 4) as [E3 E4]; [assumption|].
  rewrite E1, E2, E3, E4, !join_hi_lo by lia.
  unfold byte. rewrite !ascii_N_embedding. reflexivity.
Qed.

Lemma mul_divmod (h d : N) : (0 < d)%N -> ((h * d) / d = h /\ (h * d) mod d = 0)%N.
Proof. intros H. pose proof (divmod_combine h 0 d H) as E. rewrite N.add_0_r in E. exact E. Qed.

Lemma b64_bounds a b :
  (byte a / 4 < 64)%N /\ ((byte a mod 4) * 16 + byte b / 16 < 64)%N /\
  ((byte a mod 4) * 16 < 64)%N /\ ((byte b mod 16) * 4 < 64)%N /\
  (byte b mod 64 < 64)%N /\ ((byte a mod 16) * 4 + byte b / 64 < 64)%N /\
  (byte b / 16 < 16)%N.
Proof.
  byte_bounds.
  assert (byte a / 4 < 64)%N by (apply N.Div0.div_lt_upper_bound; lia).
  assert (byte b / 16 < 16)%N by (apply N.Div0.div_lt_upper_bound; lia).
  assert (byte b / 64 < 4)%N by (apply N.Div0.div_lt_upper_bound; lia).
  assert (byte a mod 4 < 4)%N by (apply N.mod_lt; lia).
  assert (byte a mod 16 < 16)%N by (apply N.mod_lt; lia).
  assert (byte b mod 16 < 16)%N by (apply N.mod_lt; lia).
  assert (byte b mod 64 < 64)%N by (apply N.mod_lt; lia).
  repeat split; lia.
Qed.

Lemma pad_neq_char n : (n < 64)%N -> exists H, ascii_dec (b64_char n) PAD = right H.
Proof.
  intros Hn. destruct (ascii_dec (b64_char n) PAD) as [E|E]; [|eauto].
  exfalso. exact (b64_char_not_pad n Hn E).
Qed.

Ltac b64_step :=
  repeat match goal with
  | |- context [b64_val (b64_char ?n)] => rewrite (b64_val_char n) by lia
  | |- context [ascii_dec (b64_char ?n) PAD] =>
      let H := fresh in destruct (pad_neq_char n) as [? H]; [lia|]; rewrite H
  | |- context [ascii_dec PAD PAD] =>
      let E := fresh in destruct (ascii_dec PAD PAD) as [_|E]; [|contradiction E; reflexivity]
  end.

Lemma b64_decode_more c1 c2 c3 c4 x r :
  b64_decode (String c1 (String c2 (String c3 (String c4 (String x r))))) =
  match b64_val c1, b64_val c2 with
  | Some v1, Some v2 =>
      match b64_val c3, b64_val c4 with
      | Some v3, Some v4 =>
          match b64_decode (String x r) with
          | Some rest => Some (byte3 v1 v2 v3 v4 ++ rest)
          | None => None
          end
      | _, _ => None
      end
  | _, _ => None
  end.
Proof. reflexivity. Qed.

Lemma b64_roundtrip s : b64_decode (b64_encode s) = Some s.
Proof.
  remember (String.length s) as n eqn:En. assert (String.length s <= n)%nat as Hn by lia.
  clear En. revert s Hn. induction n as [n IH] using lt_wf_ind. intros s Hn.
  destruct s as [|a [|b [|c r]]].
  - reflexivity.
  - destruct (b64_bounds a a) as (H1 & _ & H3 & _).
    cbn [b64_encode]. cbn [b64_decode]. b64_step.
    destruct (mul_divmod (byte a mod 4) 16) as [E1 E2]; [lia|]. rewrite E1, E2. simpl.
    rewrite join_hi_lo by lia. unfold byte. rewrite ascii_N_embedding. reflexivity.
  - destruct (b64_bounds a b) as (H1 & H2 & _ & H4 & _ & _ & H7).
    cbn [b64_encode]. cbn [b64_decode]. b64_step.
    destruct (mul_divmod (byte b mod 16) 4) as [E1 E2]; [lia|]. rewrite E2. simpl.
    destruct (divmod_combine (byte a mod 4) (byte b / 16) 16) as [E3 E4]; [exact H7|].
    rewrite E1, E3, E4, !join_hi_lo by lia. unfold byte. rewrite !ascii_N_embedding. reflexivity.
  - destruct (b64_bounds a b) as (H1 & H2 & _ & _ & _ & _ & _).
    destruct (b64_bounds b c) as (_ & _ & _ & _ & H5 & H6 & _).
    assert (Hr : b64_decode (b64_encode r) = Some r).
    { apply (IH (String.length r)); [simpl in Hn; lia|lia]. }
    cbn [b64_encode]. destruct (b64_encode r) as [|x r'] eqn:Er.
    + cbn [b64_decode]. b64_step. inversion Hr; subst.
      rewrite (b64_chunk3 a b c). reflexivity.
    + rewrite b64_decode_more. b64_step. rewrite Hr. rewrite (b64_chunk3 a b c). reflexivity.
Qed.


Lemma b64c_field c : b64c c = true -> field_char c = true.
Proof. destruct c as [[|][|][|][|][|][|][|][|]]; intros H; try discriminate H; reflexivity. Qed.

Lemma digit_field c : is_digit c = true -> field_char c = true.
Proof. destruct c as [[|][|][|][|][|][|][|][|]]; intros H; try discriminate H; reflexivity. Qed.

Lemma b64c_char n : (n < 64)%N -> b64c (b64_char n) = true.
Proof. intros H. unfold b64c. rewrite b64_val_char by exact H. reflexivity. Qed.

Lemma b64_encode_chars s : all_chars b64c (b64_encode s) = true.
Proof.
  remember (String.length s) as n eqn:En. assert (String.length s <= n)%nat as Hn by lia.
  clear En. revert s Hn. induction n as [n IH] using lt_wf_ind. intros s Hn.
  destruct s as [|a [|b [|c r]]]; [reflexivity|..].
  - destruct (b64_bounds a a) as (H1 & _ & H3 & _).
    cbn. rewrite !b64c_char by assumption. reflexivity.
  - destruct (b64_bounds a b) as (H1 & H2 & _ & H4 & _).
    cbn. rewrite !b64c_char by assumption. reflexivity.
  - destruct (b64_bounds a b) as (H1 & H2 & _).
    destruct (b64_bounds b c) as (_ & _ & _ & _ & H5 & H6 & _).
    cbn [b64_encode all_chars]. rewrite !b64c_char by assumption.
    apply (IH (String.length r)); [simpl in Hn; lia|lia].
Qed.

Lemma b64_encode_field s : all_chars field_char (b64_encode s) = true.
Proof. eapply all_chars_impl; [apply b64c_field|apply b64_encode_chars]. Qed.

Lemma b64_encode_nonempty s : s <> EmptyString -> b64_encode s <> EmptyString.
Proof. destruct s as [|a [|b [|c r]]]; simpl; congruence. Qed.

Lemma show_u64_field n : all_chars field_char (show_u64 n) = true.
Proof. eapply all_chars_impl; [apply digit_field|apply show_u64_digits]. Qed.

Lemma field_no_tab s : all_chars field_char s = true -> no_char TAB s = true.
Proof.
  apply all_chars_impl. intros c H. unfold field_char in H.
  apply andb_prop in H as [H _]. apply andb_prop in H as [_ H]. exact H.
Qed.

Lemma field_not_ws s : all_chars field_char s = true -> all_chars not_ws s = true.
Proof.
  apply all_chars_impl. intros c H. unfold field_char in H. apply andb_prop in H as [_ H]. exact H.
Qed.

(** ** UTF-8 *)

Lemma utf8_valid_app a b : utf8_valid a = true -> utf8_valid b = true -> utf8_valid (a ++ b) = true.
Proof.
  remember (String.length a) as n eqn:En. assert (String.length a <= n)%nat as Hn by lia.
  clear En. revert a Hn. induction n as [n IH] using lt_wf_ind. intros a Hn Ha Hb.
  destruct a as [|c r]; [exact Hb|]. simpl in Hn.
  cbn [String.append utf8_valid] in Ha |- *.
  destruct (byte c <? 128)%N. { apply (IH (String.length r)); auto; lia. }
  destruct (in_range 194 223 c).
  { destruct r as [|c2 r2]; [discriminate|]. cbn [String.append] in *.
    apply andb_prop in Ha as [H1 H2]. rewrite H1. simpl in Hn.
    apply (IH (String.length r2)); auto; lia. }
  destruct (in_range 224 239 c).
  { destruct r as [|c2 [|c3 r3]]; try discriminate. cbn [String.append] in *.
    apply andb_prop in Ha as [H1 H2]. rewrite H1. simpl in Hn.
    apply (IH (String.length r3)); auto; lia. }
  destruct (in_range 240 244 c); [|discriminate].
  destruct r as [|c2 [|c3 [|c4 r4]]]; try discriminate. cbn [String.append] in *.
  apply andb_prop in Ha as [H1 H2]. rewrite H1. simpl in Hn.
  apply (IH (String.length r4)); auto; lia.
Qed.

Lemma utf8_field s : all_chars field_char s = true -> utf8_valid s = true.
Proof.
  induction s as [|c r IH]; simpl; auto. intros H. apply andb_prop in H as [H1 H2].
  unfold field_char in H1. apply andb_prop in H1 as [H1 _]. apply andb_prop in H1 as [H1 _].
  rewrite H1. apply IH, H2.
Qed.

(** ** The record lines of the log *)

Lemma tab_app b : tab_s ++ b = String TAB b.
Proof. reflexivity. Qed.

Lemma record_valid k v e :
  utf8_valid k = true -> utf8_valid (Kv.put_record k (b64_encode v) e ++ lf_s) = true.
Proof.
  intros Hk. pose proof (utf8_field _ (b64_encode_field v)) as Hv.
  destruct e as [x|]; unfold Kv.put_record; rewrite !sapp_assoc;
    repeat (apply utf8_valid_app; [assumption || reflexivity|]); try reflexivity.
  apply utf8_valid_app; [apply utf8_field, show_u64_field|reflexivity].
Qed.

(** Validity of a concatenation of UTF-8 pieces. *)
Ltac utf8_pieces :=
  repeat (rewrite ?sapp_assoc; first [assumption | reflexivity | apply utf8_valid_app]).

Lemma record_parse k v e :
  no_char TAB k = true -> utf8_valid k = true -> (v <> EmptyString \/ e <> None) ->
  split_char TAB (trim_end (Kv.put_record k (b64_encode v) e ++ lf_s)) =
  "put" :: k :: b64_encode v :: match e with Some x => [show_u64 x] | None => [] end.
Proof.
  intros Hk Uk Hve. pose proof (b64_encode_field v) as Hf. pose proof (utf8_field _ Hf) as Uf.
  destruct e as [x|]; unfold Kv.put_record.
  - pose proof (show_u64_field x) as Hs. pose proof (utf8_field _ Hs) as Us.
    rewrite trim_end_app_e by first [reflexivity | solve [utf8_pieces]].
    assert (trim_end (show_u64 x) = show_u64 x) as Ts by (apply trim_end_id, Hs).
    destruct (show_u64_head x) as (c & r & Er & _).
    replace ("put" ++ tab_s ++ k ++ tab_s ++ b64_encode v ++ tab_s ++ show_u64 x)
      with (("put" ++ tab_s ++ k ++ tab_s ++ b64_encode v ++ tab_s) ++ show_u64 x)
      by (rewrite !sapp_assoc; reflexivity).
    rewrite trim_end_app_ne by first [solve [utf8_pieces] | rewrite Ts, Er; discriminate].
    rewrite Ts, !sapp_assoc, !tab_app.
    rewrite (split_char_app TAB "put") by reflexivity. rewrite split_char_app by exact Hk.
    rewrite split_char_app by (apply field_no_tab, Hf).
    rewrite split_char_no_char by (apply field_no_tab, Hs). reflexivity.
  - destruct Hve as [Hv|]; [|congruence].
    assert (trim_end (b64_encode v) = b64_encode v) as Tv by (apply trim_end_id, Hf).
    replace (("put" ++ tab_s ++ k ++ tab_s ++ b64_encode v ++ tab_s) ++ lf_s)
      with (("put" ++ tab_s ++ k ++ tab_s) ++ b64_encode v ++ (tab_s ++ lf_s))
      by (rewrite !sapp_assoc; reflexivity).
    rewrite <- sapp_assoc, trim_end_app_e by first [reflexivity | solve [utf8_pieces]].
    rewrite trim_end_app_ne by first [solve [utf8_pieces] | rewrite Tv; apply b64_encode_nonempty, Hv].
    rewrite Tv, !sapp_assoc, !tab_app.
    rewrite (split_char_app TAB "put") by reflexivity. rewrite split_char_app by exact Hk.
    rewrite split_char_no_char by (apply field_no_tab, Hf). reflexivity.
Qed.

Lemma record_parse_empty k :
  no_char TAB k = true -> utf8_valid k = true ->
  (length (split_char TAB (trim_end (Kv.put_record k (b64_encode EmptyString) None ++ lf_s))) < 3)%nat.
Proof.
  intros Hk Uk. unfold Kv.put_record. cbn [b64_encode].
  replace (("put" ++ tab_s ++ k ++ tab_s ++ EmptyString ++ tab_s) ++ lf_s)
    with (("put" ++ tab_s ++ k) ++ (tab_s ++ tab_s ++ lf_s))
    by (rewrite !sapp_assoc; reflexivity).
  rewrite trim_end_app_e by first [reflexivity | solve [utf8_pieces]].
  destruct (trim_end k) as [|c r] eqn:Ek.
  - rewrite <- sapp_assoc, trim_end_app_e by first [exact Ek | reflexivity]. simpl. lia.
  - assert (trim_end (tab_s ++ k) = tab_s ++ trim_end k) as T
      by (apply trim_end_app_ne; [reflexivity|rewrite Ek; discriminate]).
    rewrite trim_end_app_ne by first [reflexivity | rewrite T; discriminate]. rewrite T, Ek, tab_app.
    rewrite (split_char_app TAB "put") by reflexivity.
    rewrite split_char_no_char; [simpl; lia|]. rewrite <- Ek. apply all_chars_trim_end, Hk.
Qed.

Lemma len_s_app a b : len_s (a ++ b) = (len_s a + len_s b)%N.
Proof. unfold len_s. rewrite slength_app. lia. Qed.

Lemma record_at_read file off len k v e :
  (len_s file <= isize_max)%N -> utf8_valid k = true -> record_at file off len k v e ->
  read_record_slice file off len = Ok (Some (trim_end (Kv.put_record k (b64_encode v) e ++ lf_s))).
Proof.
  intros Hs Hk [Hl Hsub]. unfold read_record_slice.
  assert ((isize_max <? len_s file)%N = false) as -> by (apply N.ltb_ge; exact Hs).
  rewrite N.min_l by (unfold usize_max, u64_max, u64_modulus; unfold isize_max in Hs; lia).
  assert ((len_s file <? off + len)%N = false) as -> by (apply N.ltb_ge; exact Hl).
  replace (off + len - off)%N with len by lia. rewrite Hsub, record_valid by exact Hk.
  reflexivity.
Qed.

Lemma record_at_app file t off len k v e :
  record_at file off len k v e -> record_at (file ++ t) off len k v e.
Proof.
  intros [Hl Hsub]. split.
  - rewrite len_s_app. lia.
  - rewrite substring_app_l; [exact Hsub|]. unfold len_s in Hl. lia.
Qed.

Lemma record_at_new file k v e :
  let line := Kv.put_record k (b64_encode v) e ++ lf_s in
  record_at (file ++ line) (len_s file) (len_s line) k v e.
Proof.
  intros line. split.
  - rewrite len_s_app. lia.
  - unfold len_s. rewrite !Nat2N.id. rewrite <- (sapp_nil_r line) at 2.
    apply substring_middle.
Qed.

(** ** The LRU cache *)

Lemma lru_lookup_in k l v : Lru.lookup k l = Some v -> In (k, v) l.
Proof.
  induction l as [|[k' v'] l IH]; simpl; [discriminate|].
  destruct (String.eqb_spec k k'); [intros [= <-]; subst; auto|]. intros H. right. auto.
Qed.

Lemma lru_lookup_none k l v : Lru.lookup k l = None -> ~ In (k, v) l.
Proof.
  induction l as [|[k' v'] l IH]; simpl; [auto|].
  destruct (String.eqb_spec k k'); [discriminate|]. intros H [E|E]; [congruence|exact (IH H E)].
Qed.

Lemma lru_in_remove k l k' v : In (k', v) (Lru.remove k l) <-> In (k', v) l /\ k' <> k.
Proof.
  unfold Lru.remove. rewrite filter_In. simpl. rewrite negb_true_iff, String.eqb_neq. intuition.
Qed.

Lemma in_removelast {A} (x : A) l : In x (removelast l) -> In x l.
Proof.
  induction l as [|a l IH]; simpl; [auto|]. destruct l as [|b l]; [intros []|].
  intros [E|E]; [left; exact E|right; apply IH, E].
Qed.

Lemma lru_in_put k v l k' v' :
  In (k', v') (Lru.put k v l) -> (k' = k /\ v' = v) \/ (k' <> k /\ In (k', v') l).
Proof.
  unfold Lru.put. destruct (Lru.lookup k l) eqn:E.
  - intros [H|H]; [left; inversion H; auto|right; apply lru_in_remove in H; tauto].
  - assert (forall x, In (k', v') x -> (forall y, In y x -> In y l) ->
              (k' = k /\ v' = v) \/ (k' <> k /\ In (k', v') l)) as Hgen.
    { intros x Hx Hsub. right. split; [|apply Hsub, Hx].
      intros ->. exact (lru_lookup_none _ _ _ E (Hsub _ Hx)). }
    destruct (Nat.eqb (length l) Lru.capacity).
    + intros [H|H]; [left; inversion H; auto|]. apply (Hgen _ H). intros y; apply in_removelast.
    + intros [H|H]; [left; inversion H; auto|]. apply (Hgen _ H). auto.
Qed.

Lemma lru_get_some k l v l' :
  Lru.get k l = Some (v, l') -> In (k, v) l /\ (forall x, In x l' -> In x l).
Proof.
  unfold Lru.get. destruct (Lru.lookup k l) as [w|] eqn:E; [|discriminate].
  intros [= <- <-]. apply lru_lookup_in in E. split; [exact E|].
  intros [k' v'] [H|H]; [inversion H; subst; exact E|]. apply lru_in_remove in H. tauto.
Qed.

Lemma lru_get_none k l : Lru.get k l = None -> Lru.lookup k l = None.
Proof. unfold Lru.get. destruct (Lru.lookup k l); [discriminate|auto]. Qed.

Lemma lru_ok_get cur k l v l' : lru_ok cur l -> Lru.get k l = Some (v, l') -> lru_ok cur l'.
Proof. intros H G k' v' I. apply lru_get_some in G as [_ G]. apply H, G, I. Qed.

Lemma lru_ok_put_cur cur k v e l :
  cur !! k = Some (v, e) -> lru_ok cur l -> lru_ok cur (Lru.put k v l).
Proof.
  intros Hc H k' v' I. destruct (lru_in_put _ _ _ _ _ I) as [[E1 E2]|[_ I']].
  - subst. eauto.
  - apply H, I'.
Qed.

Lemma lru_ok_put cur k v e l : lru_ok cur l -> lru_ok (<[k := (v, e)]> cur) (Lru.put k v l).
Proof.
  intros H k' v' I. destruct (lru_in_put _ _ _ _ _ I) as [[E1 E2]|[Hne I']].
  - subst. exists e. apply lookup_insert_eq.
  - destruct (H _ _ I') as [e' He']. exists e'. rewrite lookup_insert_ne by congruence. exact He'.
Qed.

Lemma lru_ok_pop cur k l : lru_ok cur l -> lru_ok (delete k cur) (Lru.pop k l).
Proof.
  intros H k' v' I. apply lru_in_remove in I as [I Hne].
  destruct (H _ _ I) as [e' He']. exists e'. rewrite lookup_delete_ne by congruence. exact He'.
Qed.

Lemma lru_pop_lookup k l : Lru.lookup k (Lru.pop k l) = None.
Proof.
  destruct (Lru.lookup k (Lru.pop k l)) as [v|] eqn:E; [|reflexivity].
  apply lru_lookup_in, lru_in_remove in E. tauto.
Qed.

(** ** The secondary index *)

Lemma prune_lookup {A} (E : Empty A) (m : gmap string A) i x j (D : Decision (x = ∅)) :
  (if @decide (x = ∅) D then delete i m else <[i := x]> m) !! j =
  if decide (i = j) then (if @decide (x = ∅) D then None else Some x) else m !! j.
Proof.
  destruct (decide (i = j)) as [<-|Hne]; destruct D.
  - apply lookup_delete_eq.
  - apply lookup_insert_eq.
  - apply lookup_delete_ne, Hne.
  - apply lookup_insert_ne, Hne.
Qed.

Lemma vm_remove (vm : gmap string (gset string)) s0 key sv k :
  (exists set, (match vm !! s0 with
                | Some set =>
                    let set' := set ∖ {[key]} in
                    if decide (set' = ∅) then delete s0 vm else <[s0 := set']> vm
                | None => vm
                end) !! sv = Some set /\ k ∈ set) <->
  (exists set, vm !! sv = Some set /\ k ∈ set) /\ ~ (sv = s0 /\ k = key).
Proof.
  destruct (vm !! s0) as [set|] eqn:Es.
  - cbv zeta. rewrite prune_lookup. destruct (decide (s0 = sv)) as [<-|Hne].
    + destruct (decide (set ∖ {[key]} = ∅)) as [Emp|NE].
      * split; [intros (? & [=] & _)|]. intros ((set2 & Hs2 & Hk) & Hn).
        rewrite Es in Hs2. inversion Hs2; subst. exfalso. apply Hn. split; [reflexivity|].
        destruct (decide (k = key)); [assumption|]. exfalso.
        assert (k ∈ set2 ∖ {[key]}) as Hin by set_solver. rewrite Emp in Hin. set_solver.
      * split.
        -- intros (set2 & [= <-] & Hk). split; [exists set; split; [exact Es|set_solver]|].
           intros [_ ->]. set_solver.
        -- intros ((set2 & Hs2 & Hk) & Hn). exists (set ∖ {[key]}). split; [reflexivity|].
           rewrite Es in Hs2. inversion Hs2; subst. assert (k <> key) by tauto. set_solver.
    + split; [intros H; split; [exact H|intros [? ?]; congruence]|tauto].
  - split; [intros H; split; [exact H|]|tauto]. intros [-> ->].
    destruct H as (set & Hs & _). congruence.
Qed.

Lemma sec_remove_pair key idx f0 s0 f sv k :
  sec_mem (SecondaryIndex.remove_pair key idx (f0, s0)) f sv k <->
  sec_mem idx f sv k /\ ~ (f = f0 /\ sv = s0 /\ k = key).
Proof.
  unfold SecondaryIndex.remove_pair, sec_mem. destruct (idx !! f0) as [vm|] eqn:E0.
  - cbv zeta. rewrite prune_lookup. destruct (decide (f0 = f)) as [<-|Hne].
    + match goal with |- context [if @decide (?x = ∅) ?D then _ else _] =>
        destruct (@decide (x = ∅) D) as [Emp|NE] end.
      * split; [intros (? & ? & [=] & _)|]. intros ((m & set & Hm & Hs & Hk) & Hn).
        rewrite E0 in Hm. inversion Hm; subst m. exfalso.
        assert (exists set, vm !! sv = Some set /\ k ∈ set) as Hv by eauto.
        destruct (proj2 (vm_remove vm s0 key sv k)) as (set' & Hs' & _);
          [split; [exact Hv|tauto]|].
        cbv zeta in Hs'. rewrite Emp, lookup_empty in Hs'. discriminate.
      * split.
        -- intros (m & set & [= <-] & Hs & Hk).
           destruct (proj1 (vm_remove vm s0 key sv k) (ex_intro _ set (conj Hs Hk)))
             as [(set' & Hs' & Hk') Hn].
           split; [exists vm, set'; auto|tauto].
        -- intros ((m & set & Hm & Hs & Hk) & Hn). rewrite E0 in Hm. inversion Hm; subst m.
           destruct (proj2 (vm_remove vm s0 key sv k)) as (set' & Hs' & Hk');
             [split; [eauto|tauto]|].
           eauto.
    + split; [intros H; split; [exact H|intros (? & _); congruence]|tauto].
  - split; [intros H; split; [exact H|]|tauto]. intros (-> & _).
    destruct H as (m & _ & Hm & _). congruence.
Qed.

Lemma sec_add_pair key idx f0 s0 f sv k :
  sec_mem (SecondaryIndex.add_pair key idx (f0, s0)) f sv k <->
  sec_mem idx f sv k \/ (f = f0 /\ sv = s0 /\ k = key).
Proof.
  unfold SecondaryIndex.add_pair, sec_mem. destruct (decide (f0 = f)) as [<-|Hne].
  - rewrite lookup_insert_eq. destruct (decide (s0 = sv)) as [<-|Hne'].
    + split.
      * intros (m & set & [= <-] & Hs & Hk). rewrite lookup_insert_eq in Hs.
        inversion Hs; subst set. apply elem_of_union in Hk as [Hk|Hk].
        -- right. set_solver.
        -- left. destruct (idx !! f0) as [vm|]; simpl in Hk.
           ++ destruct (vm !! s0) as [set|] eqn:Es; simpl in Hk; [eauto|set_solver].
           ++ rewrite lookup_empty in Hk. simpl in Hk. set_solver.
      * intros H. exists (<[s0 := {[key]} ∪ default ∅ (default ∅ (idx !! f0) !! s0)]>
                            (default ∅ (idx !! f0))), ({[key]} ∪ default ∅ (default ∅ (idx !! f0) !! s0)).
        rewrite lookup_insert_eq. do 2 (split; [reflexivity|]). destruct H as [(m & set & Hm & Hs & Hk)|H].
        -- rewrite Hm. simpl. rewrite Hs. simpl. set_solver.
        -- set_solver.
    + split.
      * intros (m & set & [= <-] & Hs & Hk). rewrite lookup_insert_ne in Hs by exact Hne'. left.
        destruct (idx !! f0) as [vm|]; simpl in Hs; [eauto|]. rewrite lookup_empty in Hs. discriminate.
      * intros [(m & set & Hm & Hs & Hk)|(_ & ? & _)]; [|congruence].
        exists (<[s0 := {[key]} ∪ default ∅ (default ∅ (idx !! f0) !! s0)]> (default ∅ (idx !! f0))), set.
        split; [reflexivity|]. rewrite lookup_insert_ne by exact Hne'. rewrite Hm. auto.
  - rewrite lookup_insert_ne by exact Hne. split; [auto|]. intros [H|(? & _)]; [exact H|congruence].
Qed.

Lemma sec_fold_remove key fs idx f sv k :
  sec_mem (fold_left (SecondaryIndex.remove_pair key) fs idx) f sv k <->
  sec_mem idx f sv k /\ ~ (k = key /\ In (f, sv) fs).
Proof.
  revert idx. induction fs as [|[f0 s0] fs IH]; intros idx; cbn [fold_left In].
  - tauto.
  - rewrite IH, sec_remove_pair. split.
    + intros [[H1 H2] H3]. split; [exact H1|]. intros [-> [E|E]]; [inversion E; subst; tauto|tauto].
    + intros [H1 H2]. repeat split; [exact H1| |]; intros Hc; apply H2; intuition congruence.
Qed.

Lemma sec_fold_add key fs idx f sv k :
  sec_mem (fold_left (SecondaryIndex.add_pair key) fs idx) f sv k <->
  sec_mem idx f sv k \/ (k = key /\ In (f, sv) fs).
Proof.
  revert idx. induction fs as [|[f0 s0] fs IH]; intros idx; cbn [fold_left In].
  - tauto.
  - rewrite IH, sec_add_pair. split.
    + intros [[H|(-> & -> & ->)]|[-> H]]; [left; exact H|right; auto|right; auto].
    + intros [H|[-> [E|E]]]; [left; left; exact H|inversion E; subst; left; right; auto|right; auto].
Qed.

Lemma sec_update key old new idx f sv k :
  sec_mem (SecondaryIndex.update key old (Some new) idx) f sv k <->
  (sec_mem idx f sv k /\ ~ (k = key /\ In (f, sv) (fields_of old))) \/
  (k = key /\ In (f, sv) (fields_of (Some new))).
Proof.
  unfold SecondaryIndex.update, fields_of.
  destruct (SecondaryIndex.object_fields new) as [nfs|]; simpl;
    [rewrite sec_fold_add|]; (destruct old as [o|]; [destruct (SecondaryIndex.object_fields o) as [ofs|]|]);
    simpl; rewrite ?sec_fold_remove; tauto.
Qed.

Lemma sec_remove key old idx f sv k :
  sec_mem (SecondaryIndex.remove key old idx) f sv k <->
  sec_mem idx f sv k /\ ~ (k = key /\ In (f, sv) (fields_of old)).
Proof.
  unfold SecondaryIndex.remove, SecondaryIndex.update, fields_of.
  destruct old as [o|]; [destruct (SecondaryIndex.object_fields o) as [ofs|]|];
    simpl; rewrite ?sec_fold_remove; tauto.
Qed.

Lemma sec_find idx f sv k : In k (SecondaryIndex.find idx f sv) <-> sec_mem idx f sv k.
Proof.
  unfold SecondaryIndex.find, sec_mem.
  destruct (idx !! f) as [m|] eqn:Em; [destruct (m !! sv) as [set|] eqn:Es|].
  - rewrite <- list_elem_of_In, elem_of_elements. split; [eauto|].
    intros (m' & s' & E1 & E2 & H). injection E1 as <-. congruence.
  - simpl. split; [tauto|]. intros (m' & s' & E1 & E2 & _). injection E1 as <-. congruence.
  - simpl. split; [tauto|]. intros (? & ? & ? & _). discriminate.
Qed.

(** ** [get] against the invariant *)

Lemma inv_ext s s' cur :
  lru s' = lru s -> log s' = log s -> index s' = index s -> sec_index s' = sec_index s ->
  inv s cur -> inv s' cur.
Proof. intros E1 E2 E3 E4 [H1 H2 H3 H4]. constructor; rewrite ?E1, ?E2, ?E3, ?E4; assumption. Qed.

Lemma get_frame ser now k s :
  let s' := snd (Kv.get ser now k s) in
  log s' = log s /\ index s' = index s /\ sec_index s' = sec_index s /\
  secindex_file s' = secindex_file s /\ wal s' = wal s /\ write_buffer s' = write_buffer s /\
  hint s' = hint s.
Proof. unfold Kv.get. simpl. repeat case_match; simpl; repeat split. Qed.

Lemma object_fields_empty : SecondaryIndex.object_fields EmptyString = None.
Proof. reflexivity. Qed.

Lemma get_spec now k s cur :
  inv s cur -> (len_s (log s) <= isize_max)%N ->
  inv (snd (Kv.get PlainSerializer now k s)) cur /\
  match cur !! k with
  | None => fst (Kv.get PlainSerializer now k s) = None
  | Some (v, e) =>
      (fst (Kv.get PlainSerializer now k s) = Some v \/ fst (Kv.get PlainSerializer now k s) = None) /\
      (live now e = true -> (v <> EmptyString \/ e <> None) ->
       fst (Kv.get PlainSerializer now k s) = Some v)
  end.
Proof.
  intros Hinv Hlog. pose proof Hinv as [Hlru Hidx Hsec Hok].
  unfold Kv.get. cbn [lru set_read_ops index log].
  destruct (Lru.get k (lru s)) as [[val l']|] eqn:G.
  - cbn [fst snd]. split.
    + constructor; simpl; try assumption. eapply lru_ok_get; eassumption.
    + apply lru_get_some in G as [I _]. destruct (Hlru _ _ I) as [e' He']. rewrite He'. auto.
  - pose proof (Hidx k) as Hk. destruct (cur !! k) as [[v e]|] eqn:C.
    2:{ destruct (index s !! k) as [[? ?]|]; [contradiction|]. split; [|reflexivity].
        constructor; simpl; assumption. }
    destruct (index s !! k) as [[off len]|]; [|contradiction].
    destruct (Hok _ _ _ C) as (Tk & Uk & Uv & Be).
    rewrite (record_at_read _ _ _ _ _ _ Hlog Uk Hk).
    assert (forall s', lru s' = lru s -> log s' = log s -> index s' = index s ->
              sec_index s' = sec_index s -> inv s' cur) as Hext
      by (intros; eapply inv_ext; eauto).
    destruct (decide (v = EmptyString /\ e = None)) as [[-> ->]|Hve].
    + assert (Nat.ltb (length (split_char TAB (trim_end (Kv.put_record k (b64_encode EmptyString) None ++ lf_s)))) 3 = true)
        as -> by (apply Nat.ltb_lt, record_parse_empty; assumption).
      simpl. split; [apply Hext; reflexivity|]. split; [right; reflexivity|].
      intros _ [H|H]; congruence.
    + assert (v <> EmptyString \/ e <> None) as Hve'
        by (destruct (decide (v = EmptyString)); [right; intros ->; tauto|left; assumption]).
      rewrite (record_parse _ _ _ Tk Uk Hve'). cbn [nth_str].
      assert (Hdec : b64_decode (b64_encode v) = Some v) by apply b64_roundtrip.
      assert (Hser : deserialize PlainSerializer v = Ok v)
        by (simpl; unfold from_utf8; rewrite Uv; reflexivity).
      destruct e as [x|].
      * destruct (show_u64_head x) as (c & r & Er & _).
        assert (Hx : parse_u64 (show_u64 x) = Some x) by (apply parse_show_u64, Be).
        assert (Ne : String.eqb (show_u64 x) EmptyString = false) by (rewrite Er; reflexivity).
        cbn -[show_u64 b64_encode parse_u64 b64_decode deserialize Lru.put String.eqb].
        rewrite Ne, Hx. cbn -[show_u64 b64_encode parse_u64 b64_decode deserialize Lru.put].
        simpl live. destruct (x <? now)%N eqn:Ex.
        -- cbn [fst snd]. split; [apply Hext; reflexivity|]. split; [right; reflexivity|].
           intros L _. apply N.leb_le in L. apply N.ltb_lt in Ex. lia.
        -- rewrite Hdec, Hser. cbn [fst snd]. split; [|auto].
           constructor; simpl; try assumption. eapply lru_ok_put_cur; eassumption.
      * cbn -[b64_encode b64_decode deserialize Lru.put].
        rewrite Hdec, Hser. cbn [fst snd]. split; [|auto].
        constructor; simpl; try assumption. eapply lru_ok_put_cur; eassumption.
Qed.

Lemma live_at_lookup now cur k v e :
  live_at now cur = true -> cur !! k = Some (v, e) -> live now e = true.
Proof.
  unfold live_at. rewrite forallb_forall. intros H Hc.
  apply (H (k, (v, e))). apply list_elem_of_In, elem_of_map_to_list, Hc.
Qed.

Lemma get_fields now k s cur :
  inv s cur -> (len_s (log s) <= isize_max)%N ->
  (forall v e, cur !! k = Some (v, e) -> live now e = true) ->
  fields_of (fst (Kv.get PlainSerializer now k s)) = fields_of (option_map fst (cur !! k)).
Proof.
  intros Hinv Hlog Hl. destruct (get_spec now k s cur Hinv Hlog) as [_ Hg].
  destruct (cur !! k) as [[v e]|]; [|rewrite Hg; reflexivity].
  destruct Hg as [[->| E] Hs]; [reflexivity|]. simpl.
  destruct (decide (v = EmptyString)) as [->|Hv]; [rewrite E; reflexivity|].
  rewrite (Hs (Hl _ _ eq_refl) (or_introl Hv)) in E. discriminate.
Qed.

Lemma inv_write_ops s cur n : inv s cur -> inv (set_write_ops n s) cur.
Proof. apply inv_ext; reflexivity. Qed.

Lemma put_internal_inv now key value eo s cur :
  inv s cur -> (len_s (log s) <= isize_max)%N -> live_at now cur = true ->
  op_ok (OPut key value) = true ->
  match eo with Some x => (x <= u64_max)%N | None => True end ->
  let s' := snd (Kv.put_internal PlainSerializer now key value eo s) in
  inv s' (<[key := (value, eo)]> cur) /\
  log s' = log s ++ Kv.put_record key (b64_encode value) eo ++ lf_s.
Proof.
  intros Hinv0 Hlog Hlive Hop Heo. simpl in Hop.
  apply andb_true_iff in Hop as [Hop Uv]. apply andb_true_iff in Hop as [Tk Uk].
  unfold Kv.put_internal.
  pose proof (inv_write_ops s cur (S (write_ops s)) Hinv0) as Hinv.
  assert (Hlog1 : (len_s (log (set_write_ops (S (write_ops s)) s)) <= isize_max)%N) by exact Hlog.
  pose proof (get_spec now key _ cur Hinv Hlog1) as [Hinv2 _].
  pose proof (get_fields now key _ cur Hinv Hlog1) as Hf.
  pose proof (get_frame PlainSerializer now key (set_write_ops (S (write_ops s)) s))
    as (F1 & F2 & F3 & _).
  destruct (Kv.get PlainSerializer now key (set_write_ops (S (write_ops s)) s)) as [old s2].
  cbn [fst snd] in *.
  remember (SecondaryIndex.update key old (Some value) (sec_index s2)) as sec eqn:Esec.
  cbn [serialize PlainSerializer]. cbn [snd].
  destruct Hinv2 as [Hlru Hidx Hsec Hok].
  rewrite F1, F2 in *. cbn [log set_write_ops index] in *.
  unfold Kv.flush_buffer, append_record.
  cbn -[Kv.put_record b64_encode Lru.put save_hint SecondaryIndex.update len_s String.append].
  rewrite F1, F2, F3 in *.
  split; [|reflexivity].
  constructor; cbn.
  - apply lru_ok_put, Hlru.
  - intros k. destruct (String.eq_dec k key) as [->|Hne].
    + rewrite !lookup_insert_eq. apply record_at_new.
    + rewrite !lookup_insert_ne by congruence. pose proof (Hidx k) as Hk.
      destruct (index s !! k) as [[off len]|], (cur !! k) as [[v e]|]; try contradiction; auto.
      apply record_at_app, Hk.
  - intros f sv k. rewrite Esec, sec_update, Hsec.
    assert (Hf' : fields_of old = fields_of (option_map fst (cur !! key))).
    { apply Hf. intros v e Hc. exact (live_at_lookup _ _ _ _ _ Hlive Hc). }
    destruct (String.eq_dec k key) as [->|Hne].
    + rewrite lookup_insert_eq, Hf'. split.
      * intros [[(v & e & Hc & Hin) Hn]|[_ Hin]]; [|eauto].
        exfalso. apply Hn. split; [reflexivity|]. rewrite Hc. exact Hin.
      * intros (v & e & [= <- <-] & Hin). right. auto.
    + rewrite lookup_insert_ne by congruence. split.
      * intros [[H _]|[E _]]; [exact H|congruence].
      * intros H. left. split; [exact H|]. intros [E _]. congruence.
  - intros k v e. destruct (String.eq_dec k key) as [->|Hne].
    + rewrite lookup_insert_eq. intros [= <- <-]. auto.
    + rewrite lookup_insert_ne by congruence. apply Hok.
Qed.

Lemma delete_inv now key s cur :
  inv s cur -> (len_s (log s) <= isize_max)%N -> live_at now cur = true ->
  let s' := snd (Kv.delete PlainSerializer now key s) in
  inv s' (delete key cur) /\ log s' = log s ++ Kv.del_record key ++ lf_s.
Proof.
  intros Hinv0 Hlog Hlive. unfold Kv.delete.
  pose proof (inv_write_ops s cur (S (write_ops s)) Hinv0) as Hinv.
  assert (Hlog1 : (len_s (log (set_write_ops (S (write_ops s)) s)) <= isize_max)%N) by exact Hlog.
  pose proof (get_spec now key _ cur Hinv Hlog1) as [Hinv2 _].
  pose proof (get_fields now key _ cur Hinv Hlog1) as Hf.
  pose proof (get_frame PlainSerializer now key (set_write_ops (S (write_ops s)) s))
    as (F1 & F2 & F3 & _).
  destruct (Kv.get PlainSerializer now key (set_write_ops (S (write_ops s)) s)) as [old s2].
  cbn [fst snd] in *.
  remember (SecondaryIndex.remove key old (sec_index s2)) as sec eqn:Esec.
  destruct Hinv2 as [Hlru Hidx Hsec Hok].
  rewrite F1, F2 in *. cbn [log set_write_ops index] in *.
  unfold Kv.flush_buffer, append_record.
  cbn -[Kv.del_record Lru.pop save_hint SecondaryIndex.remove len_s String.append].
  rewrite F1, F2, F3 in *. rewrite <- Esec.
  split; [|reflexivity].
  constructor; cbn.
  - apply lru_ok_pop, Hlru.
  - intros k. destruct (String.eq_dec k key) as [->|Hne].
    + rewrite !lookup_delete_eq. exact I.
    + rewrite !lookup_delete_ne by congruence. pose proof (Hidx k) as Hk.
      destruct (index s !! k) as [[off len]|], (cur !! k) as [[v e]|]; try contradiction; auto.
      apply record_at_app, Hk.
  - intros f sv k. rewrite Esec, sec_remove, Hsec.
    assert (Hf' : fields_of old = fields_of (option_map fst (cur !! key))).
    { apply Hf. intros v e Hc. exact (live_at_lookup _ _ _ _ _ Hlive Hc). }
    destruct (String.eq_dec k key) as [->|Hne].
    + rewrite lookup_delete_eq, Hf'. split.
      * intros [(v & e & Hc & Hin) Hn]. exfalso. apply Hn. split; [reflexivity|].
        rewrite Hc. exact Hin.
      * intros (v & e & H & _). discriminate.
    + rewrite lookup_delete_ne by congruence. split; [tauto|].
      intros H. split; [exact H|]. intros [E _]. congruence.
  - intros k v e. destruct (String.eq_dec k key) as [->|Hne].
    + rewrite lookup_delete_eq. discriminate.
    + rewrite lookup_delete_ne by congruence. apply Hok.
Qed.

(** ** Runs of [put]/[putex]/[delete] *)

Lemma put_internal_log now key value eo s :
  log (snd (Kv.put_internal PlainSerializer now key value eo s)) =
  log s ++ Kv.put_record key (b64_encode value) eo ++ lf_s.
Proof.
  unfold Kv.put_internal.
  pose proof (get_frame PlainSerializer now key (set_write_ops (S (write_ops s)) s)) as (F1 & _).
  destruct (Kv.get PlainSerializer now key (set_write_ops (S (write_ops s)) s)) as [old s2].
  cbn [snd] in F1. simpl. rewrite F1. reflexivity.
Qed.

Lemma delete_log now key s :
  log (snd (Kv.delete PlainSerializer now key s)) = log s ++ Kv.del_record key ++ lf_s.
Proof.
  unfold Kv.delete.
  pose proof (get_frame PlainSerializer now key (set_write_ops (S (write_ops s)) s)) as (F1 & _).
  destruct (Kv.get PlainSerializer now key (set_write_ops (S (write_ops s)) s)) as [old s2].
  cbn [snd] in F1. simpl. rewrite F1. reflexivity.
Qed.

Lemma run_op_log now op s : exists t, log (snd (run_op PlainSerializer now op s)) = log s ++ t.
Proof.
  destruct op; simpl; unfold Kv.put, Kv.putex;
    [rewrite put_internal_log|rewrite put_internal_log|rewrite delete_log]; eexists; reflexivity.
Qed.

Lemma run_log ops s : exists t, log (run PlainSerializer ops s) = log s ++ t.
Proof.
  revert s. induction ops as [|[now op] r IH]; intros s; simpl.
  - exists EmptyString. symmetry. apply sapp_nil_r.
  - destruct (IH (snd (run_op PlainSerializer now op s))) as [t2 E2].
    destruct (run_op_log now op s) as [t1 E1]. rewrite E2, E1, sapp_assoc. eexists; reflexivity.
Qed.

Lemma run_log_le ops s : (len_s (log s) <= len_s (log (run PlainSerializer ops s)))%N.
Proof. destruct (run_log ops s) as [t ->]. rewrite len_s_app. lia. Qed.

Lemma u64_mod_le x : (x mod u64_modulus <= u64_max)%N.
Proof.
  unfold u64_max. pose proof (N.mod_lt x u64_modulus ltac:(discriminate)). lia.
Qed.

Lemma run_op_inv now op s cur :
  inv s cur -> (len_s (log s) <= isize_max)%N -> live_at now cur = true -> op_ok op = true ->
  inv (snd (run_op PlainSerializer now op s)) (abs_op now op cur).
Proof.
  intros Hinv Hlog Hlive Hop. destruct op as [k v|k v ttl|k]; simpl.
  - apply put_internal_inv; auto.
  - apply put_internal_inv; auto. apply u64_mod_le.
  - apply delete_inv; auto.
Qed.

Lemma run_inv ops s cur :
  inv s cur -> forallb (fun p => op_ok p.2) ops = true -> no_expiry_passed ops cur = true ->
  (len_s (log (run PlainSerializer ops s)) <= isize_max)%N ->
  inv (run PlainSerializer ops s) (abs_run ops cur).
Proof.
  revert s cur. induction ops as [|[now op] r IH]; intros s cur Hinv Hops Hexp Hlog; simpl in *.
  - exact Hinv.
  - apply andb_prop in Hops as [Hop Hr]. apply andb_prop in Hexp as [Hl Hexp].
    pose proof (run_log_le r (snd (run_op PlainSerializer now op s))) as L1.
    destruct (run_op_log now op s) as [t E]. rewrite E, len_s_app in L1.
    apply IH; auto. apply run_op_inv; auto. lia.
Qed.

Lemma inv_empty : inv empty_engine ∅.
Proof.
  constructor; simpl.
  - intros k v [].
  - intros k. rewrite !lookup_empty. exact I.
  - intros f sv k. unfold sec_mem. rewrite lookup_empty. split.
    + intros (m & set & H & _). discriminate.
    + intros (v & e & H & _). rewrite lookup_empty in H. discriminate.
  - intros k v e H. rewrite lookup_empty in H. discriminate.
Qed.

(** ** The WAL writer *)

Lemma write_all_stream d w : wal_stream (Wal.write_all d w) = wal_stream w ++ d.
Proof.
  unfold Wal.write_all, wal_stream. cbv zeta. generalize Wal.capacity as cap. intros cap.
  destruct (Nat.ltb_spec (String.length d) (cap - String.length (Wal.buf w))).
  - simpl. symmetry. apply sapp_assoc.
  - destruct (Nat.ltb_spec (cap - String.length (Wal.buf w)) (String.length d)) as [Hl|Hl];
      destruct (Nat.leb_spec cap (String.length d)) as [Hc|Hc]; unfold Wal.flush_buf; simpl;
      rewrite ?sapp_assoc, ?sapp_nil_r; try reflexivity.
    destruct (Wal.buf w) as [|c b] eqn:Eb; [simpl; rewrite ?sapp_nil_r; reflexivity|].
    cbn [String.length] in Hl.
    destruct d as [|x d]; [rewrite !sapp_nil_r; reflexivity|]. cbn [String.length] in *. lia.
Qed.

Lemma append_stream r w : wal_stream (Wal.append r w) = wal_stream w ++ r ++ lf_s.
Proof. unfold Wal.append. rewrite !write_all_stream, sapp_assoc. reflexivity. Qed.

Lemma concat_cons x l : String.concat EmptyString (x :: l) = x ++ String.concat EmptyString l.
Proof. destruct l; simpl; [rewrite sapp_nil_r|]; reflexivity. Qed.

Lemma appends_stream rs w :
  wal_stream (fold_left (fun w r => Wal.append r w) rs w) = wal_stream w ++ pending_bytes rs.
Proof.
  revert w. induction rs as [|r rs IH]; intros w; simpl.
  - unfold pending_bytes. simpl. symmetry. apply sapp_nil_r.
  - rewrite IH, append_stream. unfold pending_bytes. simpl map. rewrite concat_cons.
    rewrite !sapp_assoc. reflexivity.
Qed.

Lemma write_all_small d w :
  (String.length (Wal.buf w) + String.length d < Wal.capacity)%nat ->
  Wal.write_all d w = Wal.mk (Wal.file w) (Wal.buf w ++ d).
Proof.
  intros H. unfold Wal.write_all.
  destruct (Nat.ltb_spec (String.length d) (Wal.capacity - String.length (Wal.buf w))); [reflexivity|].
  lia.
Qed.

Lemma appends_small rs w :
  (String.length (Wal.buf w) + String.length (pending_bytes rs) < Wal.capacity)%nat ->
  fold_left (fun w r => Wal.append r w) rs w = Wal.mk (Wal.file w) (Wal.buf w ++ pending_bytes rs).
Proof.
  revert w. induction rs as [|r rs IH]; intros w H; simpl.
  - unfold pending_bytes. simpl. rewrite sapp_nil_r. destruct w; reflexivity.
  - unfold pending_bytes in *. simpl map in *. rewrite concat_cons in *. rewrite !slength_app in H.
    unfold Wal.append. rewrite (write_all_small r) by lia.
    rewrite write_all_small by (cbn [Wal.buf]; rewrite slength_app; lia).
    rewrite IH; cbn [Wal.buf Wal.file]; rewrite ?slength_app, ?sapp_assoc; [reflexivity|]. lia.
Qed.

Lemma flush_buffer_frame s :
  let s' := Kv.flush_buffer s in
  log s' = log s /\ index s' = index s /\ lru s' = lru s /\ write_buffer s' = [] /\
  wal s' = fold_left (fun w r => Wal.append r w) (write_buffer s) (wal s).
Proof. repeat split. Qed.

(** ** WAL recovery *)

Lemma bind_ext {A B} (m : M A) (k k' : A -> M B) s :
  (forall a s', k a s' = k' a s') -> bind m k s = bind m k' s.
Proof. intros H. unfold bind. destruct (m s) as [[a|e] s']; auto. Qed.

Lemma bind_assoc {A B C} (m : M A) (k : A -> M B) (k' : B -> M C) s :
  bind (bind m k) k' s = bind m (fun a => bind (k a) k') s.
Proof. unfold bind. destruct (m s) as [[a|e] s']; reflexivity. Qed.

Lemma bind_ret {B} (k : unit -> M B) s : bind (ret tt) k s = k tt s.
Proof. reflexivity. Qed.

Lemma replay_ops_app ser now a b s :
  Kv.replay_ops ser now (a ++ b) s = (Kv.replay_ops ser now a ;;; Kv.replay_ops ser now b) s.
Proof.
  revert s. induction a as [|l a IH]; intros s; simpl; [reflexivity|].
  rewrite bind_assoc. apply bind_ext. intros _ s'. apply IH.
Qed.

Lemma recover_loop_replay ser now entries in_tx batch s :
  Kv.recover_loop ser now entries in_tx batch s = Kv.replay_ops ser now (recovered entries in_tx batch) s.
Proof.
  revert in_tx batch s. induction entries as [|e r IH]; intros in_tx batch s; simpl; [reflexivity|].
  destruct (String.eqb e "BEGIN"); [apply IH|].
  destruct (String.eqb e "END" && in_tx)%bool;
    [rewrite replay_ops_app; apply bind_ext; intros; apply IH|].
  destruct in_tx; apply IH.
Qed.

Lemma not_marker_begin l : not_marker l -> String.eqb l "BEGIN" = false.
Proof. intros [H _]. apply String.eqb_neq, H. Qed.

Lemma not_marker_end l : not_marker l -> String.eqb l "END" = false.
Proof. intros [_ H]. apply String.eqb_neq, H. Qed.

Lemma recovered_body body rest acc :
  Forall not_marker body ->
  recovered (body ++ rest) true acc = recovered rest true (acc ++ body).
Proof.
  revert acc. induction body as [|l body IH]; intros acc Hb; simpl.
  - rewrite app_nil_r. reflexivity.
  - inversion Hb as [|? ? Hl Hr]; subst.
    rewrite (not_marker_begin _ Hl), (not_marker_end _ Hl). simpl.
    rewrite IH by exact Hr. rewrite <- app_assoc. reflexivity.
Qed.

Lemma enclosed_recovered entries o : enclosed entries o -> o = recovered entries false [].
Proof.
  induction 1 as [|l r o Hl _ IH|body r o Hb _ IH|body r o Hb _ IH|body Hb]; simpl.
  - reflexivity.
  - apply String.eqb_neq in Hl. rewrite Hl. simpl. destruct (String.eqb l "END"); exact IH.
  - rewrite recovered_body by exact Hb. simpl. rewrite IH. reflexivity.
  - rewrite recovered_body by exact Hb. simpl. simpl in IH. exact IH.
  - rewrite <- (app_nil_r body), recovered_body by exact Hb. reflexivity.
Qed.

Lemma split_body (r : list string) :
  exists body rest, r = (body ++ rest)%list /\ Forall not_marker body /\
    (rest = [] \/ (exists r', rest = "BEGIN" :: r') \/ (exists r', rest = "END" :: r')).
Proof.
  induction r as [|l r (body & rest & -> & Hb & Hr)].
  - exists [], []. auto.
  - destruct (String.eqb_spec l "BEGIN") as [->|Hnb].
    + exists [], ("BEGIN" :: body ++ rest). eauto 6.
    + destruct (String.eqb_spec l "END") as [->|Hne].
      * exists [], ("END" :: body ++ rest). eauto 6.
      * exists (l :: body), rest. split; [reflexivity|]. split; [|exact Hr].
        constructor; [split; assumption|exact Hb].
Qed.

Lemma recovered_enclosed entries : enclosed entries (recovered entries false []).
Proof.
  induction entries as [entries IH] using (induction_ltof1 _ (@length string)).
  unfold ltof in IH. destruct entries as [|l r]; [constructor|].
  destruct (String.eqb_spec l "BEGIN") as [->|Hnb].
  - destruct (split_body r) as (body & rest & -> & Hb & [->|[(r' & ->)|(r' & ->)]]).
    + rewrite app_nil_r. simpl.
      assert (recovered body true [] = []) as ->
        by (rewrite <- (app_nil_r body) at 1; rewrite recovered_body by exact Hb; reflexivity).
      apply enc_dangling_last, Hb.
    + simpl. rewrite recovered_body by exact Hb. simpl.
      replace ("BEGIN" :: body ++ "BEGIN" :: r') with (("BEGIN" :: body) ++ "BEGIN" :: r')%list by reflexivity.
      apply enc_dangling; [exact Hb|].
      assert (E : recovered r' true [] = recovered ("BEGIN" :: r') false []) by reflexivity.
      rewrite E. apply IH. simpl. rewrite length_app. simpl. lia.
    + simpl. rewrite recovered_body by exact Hb. simpl.
      replace ("BEGIN" :: body ++ "END" :: r') with (("BEGIN" :: body) ++ "END" :: r')%list by reflexivity.
      apply enc_pair; [exact Hb|]. apply IH. simpl. rewrite length_app. simpl. lia.
  - simpl. rewrite (proj2 (String.eqb_neq _ _) Hnb), andb_false_r.
    apply enc_outside; [exact Hnb|]. apply IH. simpl. lia.
Qed.

Lemma enclosed_iff entries o : enclosed entries o <-> o = recovered entries false [].
Proof. split; [apply enclosed_recovered|intros ->; apply recovered_enclosed]. Qed.

(** *** Lines of the WAL file *)

Lemma split_char_nonempty c s : split_char c s <> [].
Proof.
  induction s as [|x s IH]; simpl; [discriminate|].
  destruct (ascii_dec x c); [discriminate|]. destruct (split_char c s); discriminate.
Qed.

Lemma split_char_sep c a b : split_char c (a ++ String c b) = (split_char c a ++ split_char c b)%list.
Proof.
  induction a as [|x a IH]; simpl.
  - destruct (ascii_dec c c); [reflexivity|contradiction].
  - destruct (ascii_dec x c); [rewrite IH; reflexivity|]. rewrite IH.
    pose proof (split_char_nonempty c a) as Hn. destruct (split_char c a); [contradiction|reflexivity].
Qed.

Lemma lines_empty : lines EmptyString = [].
Proof. reflexivity. Qed.

Lemma lines_line_lf a : lines (a ++ lf_s) = map strip_cr (split_char LF a).
Proof.
  unfold lines, lf_s. rewrite split_char_sep. simpl. rewrite rev_app_distr. simpl.
  rewrite rev_involutive. reflexivity.
Qed.

Lemma lines_app a b : lines (a ++ lf_s ++ b) = (lines (a ++ lf_s) ++ lines b)%list.
Proof.
  rewrite lines_line_lf. unfold lines, lf_s. simpl. rewrite split_char_sep, rev_app_distr.
  pose proof (split_char_nonempty LF b) as Hn.
  destruct (rev (split_char LF b)) as [|l rest] eqn:E.
  - apply (f_equal (@rev string)) in E. rewrite rev_involutive in E. contradiction.
  - simpl. destruct l; rewrite rev_app_distr, rev_involutive, map_app; [reflexivity|].
    rewrite app_assoc. reflexivity.
Qed.

Lemma lines_no_lf u : no_char LF u = true -> lines u = if String.eqb u EmptyString then [] else [u].
Proof.
  intros H. unfold lines. rewrite split_char_no_char by exact H. simpl.
  destruct u; reflexivity.
Qed.

Lemma string_app_split (a b p q : string) :
  a ++ b = p ++ q ->
  (exists v, a = p ++ v /\ q = v ++ b) \/ (exists c w, p = a ++ String c w /\ b = String c w ++ q).
Proof.
  revert p. induction a as [|x a IH]; intros p H; simpl in H.
  - destruct p as [|c w]; simpl in H.
    + left. exists EmptyString. auto.
    + right. exists c, w. split; [reflexivity|exact H].
  - destruct p as [|c w]; simpl in H.
    + left. exists (String x a). auto.
    + injection H as <- H. destruct (IH w H) as [(v & -> & ->)|(c' & w' & -> & ->)].
      * left. exists v. auto.
      * right. exists c', w'. auto.
Qed.

Lemma no_char_app_l c a b : no_char c (a ++ b) = true -> no_char c a = true.
Proof. unfold no_char. rewrite all_chars_app. intros H. apply andb_prop in H. tauto. Qed.

Lemma pending_cons r rs : pending_bytes (r :: rs) = r ++ lf_s ++ pending_bytes rs.
Proof. unfold pending_bytes. simpl map. rewrite concat_cons, sapp_assoc. reflexivity. Qed.

Lemma pending_app rs1 rs2 : pending_bytes (rs1 ++ rs2) = pending_bytes rs1 ++ pending_bytes rs2.
Proof.
  induction rs1 as [|r rs1 IH]; [reflexivity|]. simpl app. rewrite !pending_cons, IH, !sapp_assoc.
  reflexivity.
Qed.

(** Cutting the bytes of LF-free lines anywhere: either after the last
    LF, or inside (or at the end of) some line [l], whose cut part [u] is
    then the last line read. *)
Lemma lines_prefix (L : list string) p q :
  Forall (fun l => no_char LF l = true) L -> pending_bytes L = p ++ q ->
  (q = EmptyString /\ lines p = map strip_cr L) \/
  exists L1 l L2 u v, L = (L1 ++ l :: L2)%list /\ l = u ++ v /\
    q = v ++ lf_s ++ pending_bytes L2 /\
    lines p = (map strip_cr L1 ++ (if String.eqb u EmptyString then [] else [u]))%list.
Proof.
  revert p. induction L as [|l L IH]; intros p HL H.
  - destruct p, q; try discriminate. left. auto.
  - inversion HL as [|? ? Hl HL']; subst. rewrite pending_cons in H.
    destruct (string_app_split _ _ _ _ H) as [(v & -> & ->)|(c & w & -> & E)].
    + right. exists [], (p ++ v), L, p, v. repeat split.
      apply lines_no_lf, (no_char_app_l _ _ _ Hl).
    + injection E as <- E. destruct (IH w HL' E) as [[-> Hw]|(L1 & l' & L2 & u & v & -> & -> & -> & Hw)].
      * left. split; [reflexivity|]. change (String LF w) with (lf_s ++ w).
        rewrite lines_app, lines_line_lf, Hw, split_char_no_char by exact Hl. reflexivity.
      * right. exists (l :: L1), (u ++ v), L2, u, v. repeat split.
        change (String LF w) with (lf_s ++ w).
        rewrite lines_app, lines_line_lf, Hw, split_char_no_char by exact Hl. reflexivity.
Qed.

Lemma ends_with_cons c a r : r <> EmptyString -> ends_with c (String a r) = ends_with c r.
Proof.
  intros Hr. unfold ends_with. destruct r as [|b r]; [contradiction|].
  cbn [String.length]. replace (S (S (String.length r)) - 1)%nat with (S (String.length (String b r) - 1)).
  - reflexivity.
  - simpl. lia.
Qed.

Lemma ends_with_split c s : ends_with c s = true -> exists s', s = s' ++ String c EmptyString.
Proof.
  induction s as [|a r IH]; [discriminate|]. intros H.
  destruct (String.eqb_spec r EmptyString) as [->|Hr].
  - unfold ends_with in H. simpl in H. apply Ascii.eqb_eq in H as ->. exists EmptyString. reflexivity.
  - rewrite ends_with_cons in H by exact Hr. destruct (IH H) as [s' ->]. exists (String a s'). reflexivity.
Qed.

Lemma strip_cr_id l : ends_with CR l = false -> strip_cr l = l.
Proof.
  unfold ends_with, strip_cr. destruct (String.get (String.length l - 1) l) as [a|]; [|reflexivity].
  intros H. destruct (ascii_dec a CR) as [->|]; [rewrite Ascii.eqb_refl in H; discriminate|reflexivity].
Qed.

Lemma iter_app pre p b :
  (pre = EmptyString \/ ends_with LF pre = true) ->
  Wal.iter (Wal.mk (pre ++ p) b) =
  (Wal.iter (Wal.open pre) ++ List.filter (fun l => utf8_valid l) (lines p))%list.
Proof.
  intros [->|H]; [reflexivity|]. destruct (ends_with_split _ _ H) as [pre' ->].
  unfold Wal.iter, Wal.open. cbn [Wal.file]. rewrite sapp_assoc.
  change (String LF EmptyString ++ p) with (lf_s ++ p). rewrite lines_app, List.filter_app.
  change (String LF EmptyString) with lf_s. reflexivity.
Qed.

Lemma recovered_noend xs i b : Forall (fun l => l <> "END") xs -> recovered xs i b = [].
Proof.
  revert i b. induction xs as [|l xs IH]; intros i b H; simpl; [reflexivity|].
  inversion H as [|? ? Hl Hr]; subst. apply String.eqb_neq in Hl. rewrite Hl. simpl.
  destruct (String.eqb l "BEGIN"); [|destruct i]; apply IH, Hr.
Qed.

Lemma recovered_app_noend e1 xs i b :
  Forall (fun l => l <> "END") xs -> recovered (e1 ++ xs) i b = recovered e1 i b.
Proof.
  revert i b. induction e1 as [|l e1 IH]; intros i b H; simpl; [apply recovered_noend, H|].
  destruct (String.eqb l "BEGIN"); [apply IH, H|].
  destruct (String.eqb l "END" && i)%bool; [rewrite IH by exact H; reflexivity|].
  destruct i; apply IH, H.
Qed.

Lemma recovered_app_begin e1 e2 i b :
  recovered (e1 ++ "BEGIN" :: e2) i b = (recovered e1 i b ++ recovered e2 true [])%list.
Proof.
  revert i b. induction e1 as [|l e1 IH]; intros i b; simpl; [reflexivity|].
  destruct (String.eqb l "BEGIN"); [apply IH|].
  destruct (String.eqb l "END" && i)%bool; [rewrite IH, app_assoc; reflexivity|].
  destruct i; apply IH.
Qed.

Lemma forall_filter {A} (P : A -> Prop) f l : Forall P l -> Forall P (List.filter f l).
Proof.
  rewrite !List.Forall_forall. intros H x Hx. apply filter_In in Hx as [Hx _]. apply H, Hx.
Qed.

Lemma no_end_prefix_head a r : a <> "E"%char -> no_end_prefix (String a r).
Proof. intros Ha u v E ->. simpl in E. injection E as E _. congruence. Qed.

Lemma batch_bytes_pending ops :
  batch_bytes ops = pending_bytes ("BEGIN" :: map Kv.batch_line ops ++ ["END"])%list.
Proof.
  unfold batch_bytes. rewrite pending_cons, pending_app, pending_cons.
  unfold pending_bytes at 1. rewrite map_map. reflexivity.
Qed.

Lemma break_at_no_char c a b : no_char c a = true -> break_at c (a ++ String c b) = Some (a, b).
Proof.
  induction a as [|x a IH]; simpl; intros H.
  - destruct (ascii_dec c c); [reflexivity|contradiction].
  - unfold no_char in H; simpl in H. apply andb_prop in H as [H1 H2].
    apply negb_true_iff, ascii_eqb_false in H1.
    destruct (ascii_dec x c); [contradiction|]. rewrite IH by exact H2. reflexivity.
Qed.

Lemma replay_batch_line ser now op s :
  batch_op_ok op = true -> Kv.replay_op ser now (Kv.batch_line op) s = Kv.apply_op ser now op s.
Proof.
  intros H. destruct op as [k v|k]; unfold batch_op_ok in H; simpl Kv.batch_line in *.
  - apply andb_prop in H as [_ Hk]. unfold Kv.replay_op. unfold tab_s. cbn -[Kv.put].
    rewrite break_at_no_char by exact Hk. reflexivity.
  - unfold Kv.replay_op. unfold tab_s. reflexivity.
Qed.

Lemma replay_batch ser now ops s :
  Forall (fun op => batch_op_ok op = true) ops ->
  Kv.replay_ops ser now (map Kv.batch_line ops) s = Kv.apply_ops ser now ops s.
Proof.
  revert s. induction ops as [|op ops IH]; intros s H; simpl; [reflexivity|].
  inversion H as [|? ? Hop Hr]; subst. unfold bind. rewrite replay_batch_line by exact Hop.
  destruct (Kv.apply_op ser now op s) as [[[]|e] s']; [apply IH, Hr|reflexivity].
Qed.

Lemma map_strip_cr_id ys : Forall (fun y => ends_with CR y = false) ys -> map strip_cr ys = ys.
Proof. induction 1 as [|y ys Hy _ IH]; simpl; [reflexivity|]. rewrite strip_cr_id, IH by exact Hy. reflexivity. Qed.

Lemma filter_utf8_id ys : Forall (fun y => utf8_valid y = true) ys -> List.filter (fun l => utf8_valid l) ys = ys.
Proof. induction 1 as [|y ys Hy _ IH]; simpl; [reflexivity|]. rewrite Hy, IH. reflexivity. Qed.

(** The lines before the [END] of a batch. *)
Lemma batch_lines_ok ops :
  Forall (fun op => batch_op_ok op = true) ops ->
  Forall (fun y => no_char LF y = true /\ ends_with CR y = false /\ utf8_valid y = true /\
                   no_end_prefix y) ("BEGIN" :: map Kv.batch_line ops).
Proof.
  intros H. constructor.
  - split; [reflexivity|]. split; [reflexivity|]. split; [reflexivity|]. apply no_end_prefix_head. discriminate.
  - induction H as [|op ops Hop _ IH]; simpl; constructor; [|exact IH].
    unfold batch_op_ok in Hop. apply andb_prop in Hop as [Hop _].
    apply andb_prop in Hop as [Hop U]. apply andb_prop in Hop as [N C].
    apply negb_true_iff in C. split; [exact N|]. split; [exact C|]. split; [exact U|].
    destruct op; apply no_end_prefix_head; discriminate.
Qed.

Lemma body_not_marker ops : Forall not_marker (map Kv.batch_line ops).
Proof.
  induction ops as [|op ops IH]; simpl; constructor; [|exact IH].
  destruct op; split; simpl; discriminate.
Qed.

Lemma batch_recovered ops pre p q b :
  Forall (fun op => batch_op_ok op = true) ops ->
  (pre = EmptyString \/ ends_with LF pre = true) ->
  batch_bytes ops = p ++ q ->
  recovered (Wal.iter (Wal.mk (pre ++ p) b)) false [] =
  (recovered (Wal.iter (Wal.open pre)) false [] ++
   if Nat.leb (String.length q) 1 then map Kv.batch_line ops else [])%list.
Proof.
  intros Hops Hpre Hcut. rewrite iter_app by exact Hpre.
  set (e1 := Wal.iter (Wal.open pre)).
  pose proof (batch_lines_ok ops Hops) as HLb.
  set (Lb := "BEGIN" :: map Kv.batch_line ops) in HLb.
  assert (Full : lines p = (Lb ++ ["END"])%list ->
                 recovered (e1 ++ List.filter (fun l => utf8_valid l) (lines p)) false [] =
                 (recovered e1 false [] ++ map Kv.batch_line ops)%list).
  { intros ->. rewrite filter_utf8_id.
    - unfold Lb. simpl app. rewrite recovered_app_begin, recovered_body by apply body_not_marker.
      simpl. rewrite !app_nil_r. reflexivity.
    - apply Forall_app. split; [|repeat constructor].
      eapply Forall_impl; [exact HLb|]. intros y H; apply H. }
  assert (NoEnd : forall xs, Forall (fun l => l <> "END") xs ->
                  recovered (e1 ++ List.filter (fun l => utf8_valid l) xs) false [] =
                  (recovered e1 false [] ++ [])%list).
  { intros xs Hxs. rewrite app_nil_r. apply recovered_app_noend, forall_filter, Hxs. }
  assert (HL : Forall (fun l => no_char LF l = true) (Lb ++ ["END"])%list).
  { apply Forall_app. split; [|repeat constructor]. eapply Forall_impl; [exact HLb|]. intros y H; apply H. }
  rewrite batch_bytes_pending in Hcut. fold Lb in Hcut.
  destruct (lines_prefix _ p q HL Hcut) as [[-> Hp]|(L1 & l & L2 & u & v & EL & -> & -> & Hp)].
  - apply Full. rewrite Hp, map_strip_cr_id; [reflexivity|].
    apply Forall_app. split; [|repeat constructor]. eapply Forall_impl; [exact HLb|]. intros y H; apply H.
  - destruct L2 as [|x L2'] using rev_ind.
    + apply app_inj_tail in EL as [E1 El]. rewrite <- E1 in Hp.
      destruct v as [|c v'].
      * rewrite sapp_nil_r in El. subst u. apply Full. rewrite Hp.
        rewrite map_strip_cr_id; [reflexivity|]. eapply Forall_impl; [exact HLb|]. intros y H; apply H.
      * assert (Nat.leb (String.length (String c v' ++ lf_s ++ pending_bytes [])) 1 = false) as ->
          by (apply Nat.leb_gt; simpl; rewrite slength_app; simpl; lia).
        apply NoEnd. rewrite Hp.
        apply Forall_app. split.
        -- rewrite map_strip_cr_id by (eapply Forall_impl; [exact HLb|]; intros y H; apply H).
           eapply Forall_impl; [exact HLb|]. intros y (_ & _ & _ & H) E. apply (H y EmptyString); [|exact E].
           symmetry. apply sapp_nil_r.
        -- destruct (String.eqb u EmptyString); [constructor|]. constructor; [|constructor].
           intros ->. simpl in El. discriminate.
    + rewrite app_comm_cons, app_assoc in EL.
      apply app_inj_tail in EL as [EL <-].
      rewrite EL in HLb.
      apply Forall_app in HLb as [H1 H2]. inversion H2 as [|? ? Hl _]; subst.
      assert (Len : Nat.leb (String.length (v ++ lf_s ++ pending_bytes (L2' ++ ["END"]))) 1 = false).
      { apply Nat.leb_gt. rewrite !slength_app, pending_app, slength_app. simpl. lia. }
      rewrite Len. apply NoEnd. rewrite Hp. apply Forall_app. split.
      * rewrite map_strip_cr_id by (eapply Forall_impl; [exact H1|]; intros y H; apply H).
        eapply Forall_impl; [exact H1|]. intros y (_ & _ & _ & H) E. apply (H y EmptyString); [|exact E].
        symmetry. apply sapp_nil_r.
      * destruct (String.eqb u EmptyString); [constructor|]. constructor; [|constructor].
        destruct Hl as (_ & _ & _ & Hl). exact (Hl u v eq_refl).
Qed.

Lemma fields_of_spec v f sv :
  In (f, sv) (fields_of (Some v)) <->
  exists m x, Json.from_str v = Some (Json.Object m) /\ In (f, x) m /\ sv = SecondaryIndex.strval x.
Proof.
  unfold fields_of, SecondaryIndex.object_fields.
  destruct (Json.from_str v) as [[| | | | |m]|]; simpl;
    try (split; [intros []|intros (? & ? & H & _); discriminate]).
  rewrite in_map_iff. split.
  - intros [[f' x] [E Hin]]. injection E as -> <-. eauto.
  - intros (m' & x & E & Hin & Hs). subst sv. injection E as <-. exists (f, x). auto.
Qed.

Lemma get_lru_hit ser now k s v :
  Lru.lookup k (lru s) = Some v -> fst (Kv.get ser now k s) = Some v.
Proof. intros H. unfold Kv.get. cbn [lru set_read_ops]. unfold Lru.get at 1. rewrite H. reflexivity. Qed.

Lemma get_expired ser now k s off len v x :
  Lru.lookup k (lru s) = None -> index s !! k = Some (off, len) ->
  record_at (log s) off len k v (Some x) -> no_char TAB k = true -> utf8_valid k = true ->
  (len_s (log s) <= isize_max)%N -> (x <= u64_max)%N -> (x < now)%N ->
  fst (Kv.get ser now k s) = None.
Proof.
  intros Hl Hi Hr Tk Uk Hlog Hx Hnow. unfold Kv.get. cbn [lru set_read_ops index log].
  unfold Lru.get at 1. rewrite Hl, Hi, (record_at_read _ _ _ _ _ _ Hlog Uk Hr).
  assert (Hve : v <> EmptyString \/ Some x <> None) by (right; discriminate).
  rewrite (record_parse k v (Some x) Tk Uk Hve). cbn [nth_str].
  destruct (show_u64_head x) as (c & r & Er & _).
  assert (Ne : String.eqb (show_u64 x) EmptyString = false) by (rewrite Er; reflexivity).
  assert (Hp : parse_u64 (show_u64 x) = Some x) by (apply parse_show_u64, Hx).
  cbn -[show_u64 b64_encode parse_u64 b64_decode deserialize Lru.put String.eqb]. rewrite Ne, Hp.
  apply N.ltb_lt in Hnow. rewrite Hnow. reflexivity.
Qed.

Lemma delete_lru ser now k s : Lru.lookup k (lru (snd (Kv.delete ser now k s))) = None.
Proof.
  unfold Kv.delete. destruct (Kv.get ser now k (set_write_ops (S (write_ops s)) s)) as [old s2].
  destruct (append_record _ _) as [log' ext]. cbn [snd lru set_hint set_lru]. apply lru_pop_lookup.
Qed.


(** ** [list_range] *)

Lemma in_combine_seq {A} k (l : list A) p : In p (combine (seq k (length l)) l) -> (k <= p.1 < k + length l)%nat.
Proof.
  destruct p as [i x]. intros H. apply in_combine_l in H. apply in_seq in H. exact H.
Qed.

Lemma filter_none {A} (f : A -> bool) l : (forall x, In x l -> f x = false) -> List.filter f l = [].
Proof.
  induction l as [|x l IH]; intros H; simpl; [reflexivity|].
  rewrite (H x (or_introl eq_refl)). apply IH. intros y Hy. apply H. right. exact Hy.
Qed.

Lemma firstn_skipn_filter {A} (vec : list A) k a n :
  firstn n (skipn a vec) =
  map snd (List.filter (fun p => (k + a <=? p.1) && (p.1 <? k + a + n))%nat
                       (combine (seq k (length vec)) vec)).
Proof.
  revert k a n. induction vec as [|x vec IH]; intros k a n.
  - destruct a, n; reflexivity.
  - cbn [length seq combine List.filter]. destruct a as [|a].
    + destruct n as [|n].
      * rewrite Nat.add_0_r, Nat.add_0_r. cbn [firstn skipn]. rewrite Nat.leb_refl, Nat.ltb_irrefl. simpl.
        rewrite filter_none; [reflexivity|]. intros p Hp. apply in_combine_seq in Hp.
        apply andb_false_iff. right. apply Nat.ltb_ge. lia.
      * rewrite Nat.add_0_r. cbn [firstn skipn fst].
        assert (E1 : (k <? k + S n)%nat = true) by (apply Nat.ltb_lt; lia).
        rewrite Nat.leb_refl, E1. simpl. change (firstn n vec) with (firstn n (skipn 0 vec)). rewrite (IH (S k) 0 n). f_equal. apply (f_equal (map snd)), filter_ext_in. intros p Hp.
        apply in_combine_seq in Hp.
        destruct (Nat.leb_spec k p.1), (Nat.leb_spec (S k + 0) p.1),
                 (Nat.ltb_spec p.1 (k + S n)), (Nat.ltb_spec p.1 (S k + 0 + n)); simpl; lia.
    + cbn [skipn fst].
      assert (E1 : (k + S a <=? k)%nat = false) by (apply Nat.leb_gt; lia).
      rewrite E1. simpl andb. cbv iota.
      rewrite (IH (S k) a n). f_equal. apply filter_ext_in. intros p _.
      replace (S k + a)%nat with (k + S a)%nat by lia. reflexivity.
Qed.

Lemma range_bounds_elements vec st en :
  match Kv.range_bounds (Z.of_nat (length vec)) st en with
  | None => []
  | Some (s, e) => Kv.slice_incl vec s e
  end = range_elements vec st en.
Proof.
  unfold Kv.range_bounds, range_elements, Kv.slice_incl.
  set (len := Z.of_nat (length vec)).
  set (x := if (st <? 0)%Z then (len + st)%Z else st).
  set (y := if (en <? 0)%Z then (len + en)%Z else en).
  assert (Hlen : (0 <= len)%Z) by (unfold len; lia).
  destruct (Z.ltb_spec (Z.min (Z.max y 0) (len - 1)) (Z.min (Z.max x 0) len)) as [Hlt|Hge];
    [|destruct (Z.eqb_spec len 0) as [H0|H0]]; simpl.
  - symmetry. rewrite filter_none; [reflexivity|]. intros p Hp. apply in_combine_seq in Hp. fold len in Hp.
    destruct (Z.leb_spec (Z.max x 0) (Z.of_nat p.1)), (Z.leb_spec (Z.of_nat p.1) (Z.max y 0)); simpl;
      try reflexivity. unfold len in *. lia.
  - symmetry. rewrite filter_none; [reflexivity|]. intros p Hp. apply in_combine_seq in Hp. unfold len in H0. lia.
  - rewrite (firstn_skipn_filter vec 0). f_equal. apply filter_ext_in. intros p Hp.
    apply in_combine_seq in Hp. fold len in Hp. simpl Nat.add.
    destruct (Nat.leb_spec (Z.to_nat (Z.min (Z.max x 0) len)) p.1),
             (Nat.ltb_spec p.1 (Z.to_nat (Z.min (Z.max x 0) len) +
                               Z.to_nat (Z.min (Z.max y 0) (len - 1) - Z.min (Z.max x 0) len + 1))),
             (Z.leb_spec (Z.max x 0) (Z.of_nat p.1)), (Z.leb_spec (Z.of_nat p.1) (Z.max y 0));
      simpl; lia.
Qed.

(** ** Reads past the end of the log *)

Lemma read_slice_past_end file off len :
  (len_s file <= isize_max)%N -> (len_s file < off + len)%N ->
  read_record_slice file off len = Ok None.
Proof.
  intros Hs Hl. unfold read_record_slice.
  assert ((isize_max <? len_s file)%N = false) as -> by (apply N.ltb_ge; exact Hs).
  assert ((len_s file <? N.min (off + len) usize_max)%N = true) as -> ; [|reflexivity].
  apply N.ltb_lt. apply N.min_glb_lt; [exact Hl|].
  unfold usize_max, u64_max, u64_modulus. unfold isize_max in Hs. lia.
Qed.

Lemma get_past_end ser now k s off len :
  (len_s (log s) <= isize_max)%N -> Lru.lookup k (lru s) = None ->
  index s !! k = Some (off, len) -> (len_s (log s) < off + len)%N ->
  fst (Kv.get ser now k s) = None.
Proof.
  intros Hs Hl Hi He. unfold Kv.get. cbn [lru set_read_ops index log].
  unfold Lru.get at 1. rewrite Hl, Hi, (read_slice_past_end _ _ _ Hs He). reflexivity.
Qed.

(** ** The WAL writes of [put_internal] and [delete] *)

Lemma put_internal_wal now key value eo s :
  let rec := Kv.put_record key (b64_encode value) eo in
  let s' := snd (Kv.put_internal PlainSerializer now key value eo s) in
  wal s' = fold_left (fun w r => Wal.append r w) (write_buffer s ++ [rec])%list (wal s) /\
  write_buffer s' = [].
Proof.
  unfold Kv.put_internal.
  pose proof (get_frame PlainSerializer now key (set_write_ops (S (write_ops s)) s)) as (_ & _ & _ & _ & F5 & F6 & _).
  destruct (Kv.get PlainSerializer now key (set_write_ops (S (write_ops s)) s)) as [old s2].
  cbn [snd] in F5, F6. simpl. rewrite F5, F6. split; reflexivity.
Qed.

Lemma put_internal_wal_ser ser now key value enc eo s :
  serialize ser value = Ok enc ->
  let rec := Kv.put_record key (b64_encode enc) eo in
  let s' := snd (Kv.put_internal ser now key value eo s) in
  wal s' = fold_left (fun w r => Wal.append r w) (write_buffer s ++ [rec])%list (wal s) /\
  write_buffer s' = [] /\ log s' = log s ++ rec ++ lf_s.
Proof.
  intros He. unfold Kv.put_internal.
  pose proof (get_frame ser now key (set_write_ops (S (write_ops s)) s)) as (F1 & _ & _ & _ & F5 & F6 & _).
  destruct (Kv.get ser now key (set_write_ops (S (write_ops s)) s)) as [old s2].
  cbn [snd] in F1, F5, F6. rewrite He. simpl. rewrite F1, F5, F6. repeat split; reflexivity.
Qed.

Lemma delete_wal ser now key s :
  let s' := snd (Kv.delete ser now key s) in
  wal s' = fold_left (fun w r => Wal.append r w) (write_buffer s ++ [Kv.del_record key])%list (wal s) /\
  write_buffer s' = [].
Proof.
  unfold Kv.delete.
  pose proof (get_frame ser now key (set_write_ops (S (write_ops s)) s)) as (_ & _ & _ & _ & F5 & F6 & _).
  destruct (Kv.get ser now key (set_write_ops (S (write_ops s)) s)) as [old s2].
  destruct (append_record _ _) as [log' ext].
  cbn [snd] in F5, F6. cbn [snd wal write_buffer set_hint set_lru set_secindex_file set_sec_index set_index set_log Kv.flush_buffer set_wal set_write_buffer].
  rewrite F5, F6. split; reflexivity.
Qed.

Lemma delete_index ser now key s :
  let s' := snd (Kv.delete ser now key s) in
  fst (Kv.delete ser now key s) = Ok tt /\
  index s' = delete key (index s) /\ hint s' = save_hint (index s').
Proof.
  unfold Kv.delete.
  pose proof (get_frame ser now key (set_write_ops (S (write_ops s)) s)) as (_ & F2 & _).
  destruct (Kv.get ser now key (set_write_ops (S (write_ops s)) s)) as [old s2].
  destruct (append_record _ _) as [log' ext].
  cbn [snd] in F2. cbn [fst snd index hint set_hint set_lru set_secindex_file set_sec_index set_index set_log Kv.flush_buffer set_wal set_write_buffer].
  rewrite F2. repeat split.
Qed.

Lemma delete_log_ser ser now key s :
  log (snd (Kv.delete ser now key s)) = log s ++ Kv.del_record key ++ lf_s.
Proof.
  unfold Kv.delete.
  pose proof (get_frame ser now key (set_write_ops (S (write_ops s)) s)) as (F1 & _).
  destruct (Kv.get ser now key (set_write_ops (S (write_ops s)) s)) as [old s2].
  destruct (append_record _ _) as [log' ext] eqn:Ea.
  cbn [snd] in F1. cbn [snd log set_hint set_lru set_secindex_file set_sec_index set_index set_log].
  unfold append_record in Ea. injection Ea as <- _. rewrite F1. reflexivity.
Qed.


Lemma parse_str_escape s rest :
  Json.parse_str (Json.escape s ++ String Json.QUOTE rest) = Some (s, rest).
Proof.
  induction s as [|c r IH]; [reflexivity|].
  destruct c as [[][][][][][][][]]; cbn -[Json.parse_str]; simpl Json.parse_str; rewrite ?IH; reflexivity.
Qed.

Lemma Value_ind_deep (P : Json.Value -> Prop)
  (HN : P Json.Null) (HB : forall b, P (Json.Bool b)) (HZ : forall z, P (Json.Number z))
  (HS : forall s, P (Json.Str s)) (HA : forall l, Forall P l -> P (Json.Array l))
  (HO : forall m, Forall (fun p => P p.2) m -> P (Json.Object m)) : forall v, P v.
Proof.
  refine (fix go v := match v with
    | Json.Null => HN | Json.Bool b => HB b | Json.Number z => HZ z | Json.Str s => HS s
    | Json.Array l => HA l ((fix gol l := match l return Forall P l with
                              | [] => List.Forall_nil _
                              | x :: r => @List.Forall_cons _ _ x r (go x) (gol r) end) l)
    | Json.Object m => HO m ((fix gom m := match m return Forall (fun p => P p.2) m with
                              | [] => List.Forall_nil _
                              | (k, x) :: r => @List.Forall_cons _ (fun p => P p.2) (k, x) r (go x) (gom r) end) m)
    end).
Qed.

Lemma digit_cases c : is_digit c = true ->
  In c ["0"; "1"; "2"; "3"; "4"; "5"; "6"; "7"; "8"; "9"]%char.
Proof. destruct c as [[][][][][][][][]]; intros H; try discriminate H; simpl; tauto. Qed.

Lemma show_aux_lead f n acc :
  (0 < n)%N -> (n < 10 ^ N.of_nat f)%N ->
  exists c r, show_N_aux f n acc = String c r /\ is_digit c = true /\ c <> "0"%char.
Proof.
  revert n acc. induction f as [|f IH]; intros n acc H0 H; [simpl in H; lia|].
  rewrite show_N_aux_S. rewrite Nat2N.inj_succ, N.pow_succ_r' in H.
  destruct (n <? 10)%N eqn:Hlt.
  - apply N.ltb_lt in Hlt. rewrite N.mod_small by exact Hlt.
    exists (digit_char n), acc. split; [reflexivity|].
    destruct (digit_char_ok n Hlt) as [Hd _]. split; [exact Hd|].
    assert (n = 1 \/ n = 2 \/ n = 3 \/ n = 4 \/ n = 5 \/ n = 6 \/ n = 7 \/ n = 8 \/ n = 9)%N as Hn by lia.
    repeat destruct Hn as [-> | Hn]; [..|subst]; discriminate.
  - apply N.ltb_ge in Hlt. apply IH.
    + apply N.div_str_pos. lia.
    + apply N.Div0.div_lt_upper_bound. lia.
Qed.

Lemma show_u64_lead n : (0 < n)%N -> (n <= u64_max)%N ->
  exists c r, show_u64 n = String c r /\ In c ["1"; "2"; "3"; "4"; "5"; "6"; "7"; "8"; "9"]%char.
Proof.
  intros H0 H. destruct (show_aux_lead 20 n EmptyString H0) as (c & r & E & Hd & Hz).
  { unfold u64_max, u64_modulus in H. simpl. lia. }
  exists c, r. split; [exact E|]. apply digit_cases in Hd. simpl in Hd |- *.
  destruct Hd as [<-|Hd]; [congruence|exact Hd].
Qed.

Lemma show_u64_zero : show_u64 0 = "0".
Proof. reflexivity. Qed.

Lemma parse_digits_show n : (n <= u64_max)%N -> parse_digits 0 (show_u64 n) = Some n.
Proof.
  intros H. destruct (parse_show_aux 20 n EmptyString 0) as [k Hk].
  { unfold u64_max, u64_modulus in H. simpl. lia. }
  unfold show_u64. rewrite Hk. cbn [parse_digits]. f_equal; lia.
Qed.

Lemma digits_prefix_app a rest :
  all_chars is_digit a = true -> json_delim rest -> Json.digits_prefix (a ++ rest) = (a, rest).
Proof.
  intros Ha Hr. induction a as [|c a IH].
  - destruct rest as [|c r]; [reflexivity|]. simpl in Hr.
    destruct Hr as [->|[->| ->]]; reflexivity.
  - simpl in Ha. apply andb_prop in Ha as [Hc Ha]. simpl. rewrite Hc, (IH Ha). reflexivity.
Qed.

Lemma delim_no_float rest : json_delim rest ->
  match rest with
  | String c _ => (Ascii.eqb c "."%char || Ascii.eqb c "e"%char || Ascii.eqb c "E"%char)%bool
  | EmptyString => false
  end = false.
Proof. destruct rest as [|c r]; [reflexivity|]. intros [->|[->| ->]]; reflexivity. Qed.

Lemma parse_number_pos n rest :
  (n <= u64_max)%N -> json_delim rest ->
  Json.parse_number (show_u64 n ++ rest) = Some (Json.Number (Z.of_N n), rest).
Proof.
  intros Hn Hr. pose proof (parse_digits_show n Hn) as Hp.
  pose proof (delim_no_float rest Hr) as Hf.
  destruct (N.eq_dec n 0%N) as [->|Hz].
  - rewrite show_u64_zero. unfold Json.parse_number. cbn -[String.append].
    change ("0" ++ rest) with (String "0" rest). cbv beta iota. rewrite Hf. reflexivity.
  - destruct (show_u64_lead n ltac:(lia) Hn) as (c & r & E & Hc).
    pose proof (digits_prefix_app (show_u64 n) rest (show_u64_digits n) Hr) as Hd.
    apply N.leb_le in Hn.
    unfold Json.parse_number. rewrite E in Hp, Hd |- *. cbn [String.append] in Hd |- *.
    simpl in Hc. repeat destruct Hc as [<-|Hc]; try contradiction; rewrite Hd;
      cbv iota beta; rewrite Hp, Hf, Hn; reflexivity.
Qed.

Lemma parse_number_neg p rest :
  (Npos p <= Json.i64_min_abs)%N -> json_delim rest ->
  Json.parse_number (Json.show_Z (Z.neg p) ++ rest) = Some (Json.Number (Z.neg p), rest).
Proof.
  intros Hn Hr. assert (Hu : (Npos p <= u64_max)%N) by (unfold Json.i64_min_abs in Hn; unfold u64_max, u64_modulus; lia).
  pose proof (parse_digits_show _ Hu) as Hp. pose proof (delim_no_float rest Hr) as Hf.
  destruct (show_u64_lead (Npos p) ltac:(lia) Hu) as (c & r & E & Hc).
  pose proof (digits_prefix_app (show_u64 (Npos p)) rest (show_u64_digits _) Hr) as Hd.
  apply N.leb_le in Hn. unfold Json.parse_number, Json.show_Z.
  rewrite E in Hp, Hd |- *. cbn [String.append] in Hd |- *.
  simpl in Hc. repeat destruct Hc as [<-|Hc]; try contradiction; rewrite Hd;
    cbv iota beta; rewrite Hp, Hf, Hn; reflexivity.
Qed.

Lemma substring_all s : String.substring 0 (String.length s) s = s.
Proof. pose proof (substring_prefix s EmptyString) as H. rewrite sapp_nil_r in H. exact H. Qed.

Lemma to_string_first v : exists c t, Json.to_string v = String c t /\ In c json_first_chars.
Proof.
  destruct v as [|[]|z|s|l|m]; cbn [Json.to_string].
  - eexists _, _. split; [reflexivity|]. simpl; tauto.
  - eexists _, _. split; [reflexivity|]. simpl; tauto.
  - eexists _, _. split; [reflexivity|]. simpl; tauto.
  - destruct z as [|q|q]; unfold Json.show_Z.
    + eexists _, _. split; [reflexivity|]. simpl; tauto.
    + destruct (show_u64_head (Z.to_N (Z.pos q))) as (c & t & E & Hc). rewrite E.
      exists c, t. split; [reflexivity|]. apply digit_cases in Hc. simpl in Hc |- *. tauto.
    + eexists _, _. split; [reflexivity|]. simpl; tauto.
  - eexists _, _. split; [reflexivity|]. simpl; tauto.
  - eexists _, _. split; [reflexivity|]. simpl; tauto.
  - eexists _, _. split; [reflexivity|]. simpl; tauto.
Qed.

Lemma first_char_not_ws c : In c json_first_chars -> Json.is_json_ws c = false.
Proof. simpl. intros H. repeat destruct H as [<-|H]; try contradiction; reflexivity. Qed.

Lemma skip_ws_value v rest : Json.skip_ws (Json.to_string v ++ rest) = Json.to_string v ++ rest.
Proof.
  destruct (to_string_first v) as (c & t & E & Hc). rewrite E. simpl.
  rewrite (first_char_not_ws c Hc). reflexivity.
Qed.

Lemma to_string_nonempty v : (1 <= String.length (Json.to_string v))%nat.
Proof. destruct (to_string_first v) as (c & t & E & _). rewrite E. simpl. lia. Qed.

Lemma join_cons_app sep a l : exists u, Json.join sep (a :: l) = a ++ u.
Proof.
  destruct l as [|b l].
  - exists EmptyString. simpl. symmetry. apply sapp_nil_r.
  - eexists. reflexivity.
Qed.

Lemma join_length_in sep l a : In a l -> (String.length a <= String.length (Json.join sep l))%nat.
Proof.
  induction l as [|b l IH]; [intros []|]. intros [->|H].
  - destruct (join_cons_app sep a l) as [u ->]. rewrite slength_app. lia.
  - destruct l as [|c l]; [destruct H|]. change (Json.join sep (b :: c :: l)) with (b ++ sep ++ Json.join sep (c :: l)).
    rewrite !slength_app. specialize (IH H). lia.
Qed.

Lemma join_length_count sep l :
  (forall a, In a l -> 1 <= String.length a)%nat -> (length l <= String.length (Json.join sep l))%nat.
Proof.
  induction l as [|a l IH]; intros H; simpl; [lia|].
  destruct l as [|b l].
  - simpl. specialize (H a (or_introl eq_refl)). lia.
  - change (Json.join sep (a :: b :: l)) with (a ++ sep ++ Json.join sep (b :: l)).
    rewrite !slength_app. assert (IH' := IH (fun x Hx => H x (or_intror Hx))).
    specialize (H a (or_introl eq_refl)). simpl length in *. lia.
Qed.

Lemma parse_array_open f r :
  (exists c t, r = String c t /\ In c json_first_chars) ->
  Json.parse_value (S f) (String "[" r) =
  option_map (fun '(l, r') => (Json.Array l, r')) (json_elems f (S (String.length r)) r []).
Proof.
  intros (c & t & -> & Hc). simpl in Hc.
  repeat destruct Hc as [<-|Hc]; try contradiction; reflexivity.
Qed.

Lemma parse_object_open f t :
  Json.parse_value (S f) (String "{" (String Json.QUOTE t)) =
  option_map (fun '(m, r') => (Json.Object m, r'))
    (json_members f (S (String.length (String Json.QUOTE t))) (String Json.QUOTE t) []).
Proof. reflexivity. Qed.

Lemma json_elems_S f g s acc :
  json_elems f (S g) s acc =
  match Json.parse_value f (Json.skip_ws s) with
  | Some (v, r) =>
      match Json.skip_ws r with
      | String "," r' => json_elems f g r' (v :: acc)
      | String "]" r' => Some (rev (v :: acc), r')
      | _ => None
      end
  | None => None
  end.
Proof. reflexivity. Qed.

Lemma json_members_S f g s acc :
  json_members f (S g) s acc =
  match Json.skip_ws s with
  | String c r =>
      if ascii_dec c Json.QUOTE then
        match Json.parse_str r with
        | Some (k, r1) =>
            match Json.skip_ws r1 with
            | String ":" r2 =>
                match Json.parse_value f (Json.skip_ws r2) with
                | Some (v, r3) =>
                    match Json.skip_ws r3 with
                    | String "," r' => json_members f g r' (Json.map_insert k v acc)
                    | String "}" r' => Some (Json.map_insert k v acc, r')
                    | _ => None
                    end
                | None => None
                end
            | _ => None
            end
        | None => None
        end
      else None
  | EmptyString => None
  end.
Proof. reflexivity. Qed.

Lemma elems_join f g l acc rest :
  l <> [] ->
  Forall (fun x => forall rest, json_delim rest ->
            Json.parse_value f (Json.to_string x ++ rest) = Some (x, rest)) l ->
  (length l <= g)%nat ->
  json_elems f g (Json.join "," (map Json.to_string l) ++ "]" ++ rest) acc = Some (rev acc ++ l, rest)%list.
Proof.
  revert g acc. induction l as [|x l IH]; intros g acc Hne Hall Hg; [congruence|].
  apply List.Forall_cons_iff in Hall as [Hx Hall].
  destruct g as [|g]; [simpl in Hg; lia|]. rewrite json_elems_S.
  destruct l as [|y l].
  - cbn [map Json.join]. rewrite skip_ws_value, Hx by (simpl; auto).
    simpl. reflexivity.
  - change (Json.join "," (map Json.to_string (x :: y :: l)))
      with (Json.to_string x ++ "," ++ Json.join "," (map Json.to_string (y :: l))).
    rewrite sapp_assoc, skip_ws_value, sapp_assoc, Hx by (simpl; auto).
    simpl Json.skip_ws. cbv iota beta.
    rewrite IH by (try discriminate; auto; simpl in *; lia).
    simpl. rewrite <- app_assoc. reflexivity.
Qed.

Lemma map_insert_last k v acc :
  (forall k', In k' (map fst acc) -> String.compare k' k = Lt) ->
  Json.map_insert k v acc = (acc ++ [(k, v)])%list.
Proof.
  induction acc as [|[k' x'] acc IH]; intros H; [reflexivity|].
  simpl. rewrite String.compare_antisym, (H k' (or_introl eq_refl)). simpl.
  rewrite IH; [reflexivity|]. intros k'' Hk. apply H. right. exact Hk.
Qed.

Lemma members_join f g m acc rest :
  m <> [] ->
  Forall (fun p => forall rest, json_delim rest ->
            Json.parse_value f (Json.to_string p.2 ++ rest) = Some (p.2, rest)) m ->
  (length m <= g)%nat ->
  (forall k k', In k (map fst acc) -> In k' (map fst m) -> String.compare k k' = Lt) ->
  keys_sorted m = true ->
  json_members f g (Json.join "," (map (fun '(k, x) => Json.quoted k ++ ":" ++ Json.to_string x) m)
                      ++ "}" ++ rest) acc = Some (acc ++ m, rest)%list.
Proof.
  revert g acc. induction m as [|[k x] m IH]; intros g acc Hne Hall Hg Hlt Hs; [congruence|].
  apply List.Forall_cons_iff in Hall as [Hx Hall]. cbn [snd] in Hx.
  cbn [keys_sorted] in Hs. apply andb_prop in Hs as [Hk Hs].
  destruct g as [|g]; [simpl in Hg; lia|].
  assert (Hstep : forall Y, json_delim Y ->
    json_members f (S g) ((Json.quoted k ++ ":" ++ Json.to_string x) ++ Y) acc =
    match Json.skip_ws Y with
    | String "," r' => json_members f g r' (acc ++ [(k, x)])%list
    | String "}" r' => Some ((acc ++ [(k, x)])%list, r')
    | _ => None
    end).
  { intros Y HY. rewrite json_members_S. unfold Json.quoted.
    cbn [String.append]. rewrite !sapp_assoc. cbn [String.append Json.skip_ws].
    change (Json.is_json_ws Json.QUOTE) with false. cbv iota.
    destruct (ascii_dec Json.QUOTE Json.QUOTE) as [_|C]; [|congruence].
    rewrite parse_str_escape. cbn [String.append Json.skip_ws]. cbv iota beta.
    change (Json.is_json_ws ":") with false. cbv iota beta.
    rewrite skip_ws_value, Hx by exact HY.
    rewrite (map_insert_last k x acc) by (intros k' Hk'; apply Hlt; [exact Hk'|left; reflexivity]).
    reflexivity. }
  destruct m as [|[k2 x2] m].
  - cbn [map Json.join]. rewrite Hstep by (simpl; auto). reflexivity.
  - change (Json.join "," (map (fun '(k, x) => Json.quoted k ++ ":" ++ Json.to_string x) ((k, x) :: (k2, x2) :: m)))
      with ((Json.quoted k ++ ":" ++ Json.to_string x) ++ "," ++
            Json.join "," (map (fun '(k, x) => Json.quoted k ++ ":" ++ Json.to_string x) ((k2, x2) :: m))).
    rewrite sapp_assoc, Hstep by (simpl; auto).
    simpl Json.skip_ws. cbv iota beta.
    rewrite IH; [rewrite <- app_assoc; reflexivity|discriminate|exact Hall|simpl in *; lia| |exact Hs].
    intros k0 k' H0 H'. rewrite map_app, in_app_iff in H0. destruct H0 as [H0|[<-|[]]].
    + apply Hlt; [exact H0|right; exact H'].
    + apply in_map_iff in H' as [[k3 x3] [E3 H3]]. cbn [fst] in E3. subst k3.
      pose proof (proj1 (forallb_forall _ _) Hk _ H3) as Hc. cbn [fst] in Hc.
      cbn [fst]. destruct (String.compare k k'); congruence.
Qed.


Lemma substring_0_ge s m : (String.length s <= m)%nat -> String.substring 0 m s = s.
Proof.
  revert m. induction s as [|c s IH]; intros [|m] H; simpl in *; try lia; try reflexivity.
  rewrite IH by lia. reflexivity.
Qed.

Lemma starts_with_app w rest : starts_with w (w ++ rest) = true.
Proof.
  induction w as [|c w IH]; [destruct rest; reflexivity|].
  simpl. destruct (ascii_dec c c); [exact IH|congruence].
Qed.

Lemma expect_app w rest : Json.expect w (w ++ rest) = Some rest.
Proof.
  unfold Json.expect. rewrite starts_with_app. f_equal.
  rewrite <- (Nat.add_0_r (String.length w)), substring_app_r.
  apply substring_0_ge. rewrite slength_app. lia.
Qed.

Lemma sapp_single c s : String c EmptyString ++ s = String c s.
Proof. reflexivity. Qed.

Lemma parse_value_show_Z f z rest :
  Json.parse_value (S f) (Json.show_Z z ++ rest) = Json.parse_number (Json.show_Z z ++ rest).
Proof.
  destruct z as [|p|p]; unfold Json.show_Z.
  - change (Z.to_N 0) with 0%N. rewrite show_u64_zero. reflexivity.
  - destruct (show_u64_head (Z.to_N (Z.pos p))) as (c & t & E & Hc). rewrite E.
    apply digit_cases in Hc. simpl in Hc.
    repeat destruct Hc as [<-|Hc]; try contradiction; reflexivity.
  - rewrite sapp_assoc. reflexivity.
Qed.

Lemma parse_value_quote f t :
  Json.parse_value (S f) (String Json.QUOTE t) =
  option_map (fun '(s, r') => (Json.Str s, r')) (Json.parse_str t).
Proof. reflexivity. Qed.

Lemma json_roundtrip_aux v :
  json_wf v = true -> forall f rest, (String.length (Json.to_string v) < f)%nat -> json_delim rest ->
  Json.parse_value f (Json.to_string v ++ rest) = Some (v, rest).
Proof.
  induction v as [| b | z | s | l IHl | m IHm] using Value_ind_deep;
    intros Hwf [|f] rest Hf Hr; try (simpl in Hf; lia).
  - cbn [Json.to_string]. change ("null" ++ rest) with (String "n" ("ull" ++ rest)).
    change (Json.parse_value (S f) (String "n" ("ull" ++ rest)))
      with (option_map (fun r' => (Json.Null, r')) (Json.expect "ull" ("ull" ++ rest))).
    rewrite expect_app. reflexivity.
  - destruct b; cbn [Json.to_string].
    + change ("true" ++ rest) with (String "t" ("rue" ++ rest)).
      change (Json.parse_value (S f) (String "t" ("rue" ++ rest)))
        with (option_map (fun r' => (Json.Bool true, r')) (Json.expect "rue" ("rue" ++ rest))).
      rewrite expect_app. reflexivity.
    + change ("false" ++ rest) with (String "f" ("alse" ++ rest)).
      change (Json.parse_value (S f) (String "f" ("alse" ++ rest)))
        with (option_map (fun r' => (Json.Bool false, r')) (Json.expect "alse" ("alse" ++ rest))).
      rewrite expect_app. reflexivity.
  - cbn [Json.to_string]. rewrite parse_value_show_Z.
    cbn [json_wf] in Hwf. apply andb_prop in Hwf as [H1 H2].
    apply Z.leb_le in H1. apply Z.leb_le in H2.
    destruct z as [|p|p].
    + change (Json.show_Z 0) with (show_u64 0). apply (parse_number_pos 0%N rest); [|exact Hr].
      unfold u64_max, u64_modulus; lia.
    + change (Json.show_Z (Z.pos p)) with (show_u64 (Npos p)).
      apply (parse_number_pos (Npos p) rest); [lia|exact Hr].
    + apply parse_number_neg; [lia|exact Hr].
  - cbn [Json.to_string]. unfold Json.quoted. cbn [String.append].
    rewrite sapp_assoc. cbn [String.append]. rewrite parse_value_quote, parse_str_escape. reflexivity.
  - cbn [json_wf] in Hwf. cbn [Json.to_string] in Hf |- *.
    destruct l as [|a l'].
    + reflexivity.
    + rewrite !sapp_assoc. cbn [String.append].
      change (String "]" rest) with ("]" ++ rest).
      set (J := Json.join "," (map Json.to_string (a :: l'))) in *.
      rewrite !slength_app in Hf. cbn [String.length] in Hf.
      rewrite parse_array_open.
      2: { destruct (join_cons_app "," (Json.to_string a) (map Json.to_string l')) as [u Eu].
           destruct (to_string_first a) as (c & t & Et & Hc).
           exists c, ((t ++ u) ++ "]" ++ rest). split; [|exact Hc].
           unfold J. cbn [map]. rewrite Eu, Et. reflexivity. }
      unfold J. rewrite elems_join; [reflexivity|discriminate| |].
      * apply List.Forall_forall. intros x Hx rest' Hr'.
        rewrite List.Forall_forall in IHl. apply IHl; [exact Hx| | |exact Hr'].
        -- apply forallb_forall with (x := x) in Hwf; [exact Hwf|exact Hx].
        -- pose proof (join_length_in "," (map Json.to_string (a :: l')) (Json.to_string x)
                          (in_map _ _ _ Hx)). fold J in H. lia.
      * rewrite slength_app. cbn [String.length].
        pose proof (join_length_count "," (map Json.to_string (a :: l'))) as Hc.
        rewrite length_map in Hc. fold J in Hc |- *.
        assert (length (a :: l') <= String.length J)%nat; [|lia].
        apply Hc. intros y Hy. apply in_map_iff in Hy as [x [<- _]]. apply to_string_nonempty.
  - cbn [json_wf] in Hwf. apply andb_prop in Hwf as [Hs Hwf]. cbn [Json.to_string] in Hf |- *.
    destruct m as [|[k x] m'].
    + reflexivity.
    + rewrite !sapp_assoc. rewrite (sapp_single "{"%char).
      set (F := fun '(k, x) => Json.quoted k ++ ":" ++ Json.to_string x) in *.
      set (J := Json.join "," (map F ((k, x) :: m'))) in *.
      rewrite !slength_app in Hf. cbn [String.length] in Hf.
      assert (Et : exists t, J ++ "}" ++ rest = String Json.QUOTE t).
      { destruct (join_cons_app "," (F (k, x)) (map F m')) as [u Eu].
        unfold J. cbn [map]. rewrite Eu. unfold F, Json.quoted. cbn [String.append].
        eexists. reflexivity. }
      destruct Et as [t Et]. rewrite Et, parse_object_open, <- Et.
      unfold J, F. rewrite members_join; [reflexivity|discriminate| | |intros ? ? []|exact Hs].
      * apply List.Forall_forall. intros [k' x'] Hx rest' Hr'. cbn [snd].
        rewrite List.Forall_forall in IHm. apply (IHm (k', x')); [exact Hx| | |exact Hr'].
        -- apply forallb_forall with (x := (k', x')) in Hwf; [exact Hwf|exact Hx].
        -- pose proof (join_length_in "," (map F ((k, x) :: m')) (F (k', x'))
                          (in_map _ _ _ Hx)) as HJ. fold J in HJ.
           unfold F at 1 in HJ. rewrite !slength_app in HJ. cbn [snd]. lia.
      * rewrite slength_app. cbn [String.length].
        pose proof (join_length_count "," (map F ((k, x) :: m'))) as Hc.
        rewrite length_map in Hc. fold J in Hc. fold F J.
        assert (length ((k, x) :: m') <= String.length J)%nat; [|lia].
        apply Hc. intros y Hy. apply in_map_iff in Hy as [[k1 x1] [<- _]].
        unfold F, Json.quoted. cbn [String.append String.length]. lia.
Qed.

Lemma json_from_to_string v : json_wf v = true -> Json.from_str (Json.to_string v) = Some v.
Proof.
  intros Hwf. unfold Json.from_str.
  pose proof (skip_ws_value v EmptyString) as E. rewrite sapp_nil_r in E. rewrite E.
  rewrite <- (sapp_nil_r (Json.to_string v)) at 2.
  rewrite json_roundtrip_aux; [reflexivity|exact Hwf|lia|exact I].
Qed.


(** ** Byte order on strings *)

Lemma ascii_compare_trans a b c :
  Ascii.compare a b = Lt -> Ascii.compare b c = Lt -> Ascii.compare a c = Lt.
Proof. unfold Ascii.compare. rewrite !N.compare_lt_iff. lia. Qed.

Lemma ascii_compare_eq a b : Ascii.compare a b = Eq -> a = b.
Proof. apply Ascii.compare_eq_iff. Qed.

Lemma scompare_refl a : String.compare a a = Eq.
Proof.
  induction a as [|c a IH]; [reflexivity|]. simpl.
  unfold Ascii.compare. rewrite N.compare_refl. exact IH.
Qed.

Lemma scompare_trans a b c :
  String.compare a b = Lt -> String.compare b c = Lt -> String.compare a c = Lt.
Proof.
  revert b c. induction a as [|x a IH]; intros [|y b] [|z c]; simpl; try congruence.
  destruct (Ascii.compare x y) eqn:Exy; try congruence;
    destruct (Ascii.compare y z) eqn:Eyz; try congruence; intros H1 H2.
  - apply ascii_compare_eq in Exy, Eyz. subst. unfold Ascii.compare at 1. rewrite N.compare_refl. eauto.
  - apply ascii_compare_eq in Exy. subst. rewrite Eyz. reflexivity.
  - apply ascii_compare_eq in Eyz. subst. rewrite Exy. reflexivity.
  - rewrite (ascii_compare_trans _ _ _ Exy Eyz). reflexivity.
Qed.


(** ** [Json.map_insert] keeps a map sorted *)

Lemma keys_lt_all k (m : list (string * Json.Value)) :
  forallb (fun p => match String.compare k p.1 with Lt => true | _ => false end) m = true <->
  (forall k', In k' (map fst m) -> String.compare k k' = Lt).
Proof.
  rewrite forallb_forall. split.
  - intros H k' Hk. apply in_map_iff in Hk as [[k1 x1] [<- Hin]].
    specialize (H _ Hin). cbn [fst] in H |- *. destruct (String.compare k k1); congruence.
  - intros H [k1 x1] Hin. cbn [fst]. rewrite (H k1) by (apply in_map_iff; exists (k1, x1); auto).
    reflexivity.
Qed.

Lemma map_insert_keys k x m k' : In k' (map fst (Json.map_insert k x m)) -> k' = k \/ In k' (map fst m).
Proof.
  induction m as [|[k1 x1] m IH]; simpl; [intros [->|[]]; auto|].
  destruct (String.compare k k1); simpl; intros [H|H]; auto.
  destruct (IH H); auto.
Qed.

Lemma map_insert_elems k x m p : In p (Json.map_insert k x m) -> p = (k, x) \/ In p m.
Proof.
  induction m as [|[k1 x1] m IH]; simpl; [intros [->|[]]; auto|].
  destruct (String.compare k k1); simpl; intros [H|H]; auto.
  destruct (IH H); auto.
Qed.

Lemma compare_gt_lt a b : String.compare a b = Gt -> String.compare b a = Lt.
Proof. intros H. rewrite String.compare_antisym, H. reflexivity. Qed.

Lemma map_insert_sorted k x m : keys_sorted m = true -> keys_sorted (Json.map_insert k x m) = true.
Proof.
  induction m as [|[k1 x1] m IH]; intros Hs; [reflexivity|].
  cbn [keys_sorted] in Hs. apply andb_prop in Hs as [Hk Hs]. rewrite keys_lt_all in Hk.
  cbn [Json.map_insert]. destruct (String.compare k k1) eqn:E.
  - apply String.compare_eq_iff in E. subst k1. cbn [keys_sorted].
    rewrite Hs, andb_true_r. apply keys_lt_all. exact Hk.
  - cbn [keys_sorted]. rewrite Hs, andb_true_r. apply andb_true_intro. split.
    + apply keys_lt_all. intros k' [<-|Hk']; [exact E|]. eapply scompare_trans; [exact E|]. apply Hk, Hk'.
    + apply keys_lt_all. exact Hk.
  - cbn [keys_sorted]. rewrite IH by exact Hs. rewrite andb_true_r. apply keys_lt_all.
    intros k' Hk'. destruct (map_insert_keys k x m k' Hk') as [->|H].
    + apply compare_gt_lt, E.
    + apply Hk, H.
Qed.

(** ** What [Json.parse_value] returns is well formed *)

Lemma match_bracket_close X Y v r :
  match X with
  | String "]" r' => Some (Json.Array [], r')
  | _ => option_map (fun '(l, r') => (Json.Array l, r')) Y
  end = Some (v, r) ->
  v = Json.Array [] \/ option_map (fun '(l, r') => (Json.Array l, r')) Y = Some (v, r).
Proof.
  intros H. destruct X as [|c x]; [right; exact H|].
  destruct c as [[][][][][][][][]]; first [right; exact H | left; injection H; auto].
Qed.

Lemma match_brace_close X Y v r :
  match X with
  | String "}" r' => Some (Json.Object [], r')
  | _ => option_map (fun '(m, r') => (Json.Object m, r')) Y
  end = Some (v, r) ->
  v = Json.Object [] \/ option_map (fun '(m, r') => (Json.Object m, r')) Y = Some (v, r).
Proof.
  intros H. destruct X as [|c x]; [right; exact H|].
  destruct c as [[][][][][][][][]]; first [right; exact H | left; injection H; auto].
Qed.

Lemma match_sep {A} (sep close : ascii) X (k1 k2 : string -> option A) res :
  match X with
  | String c r' => if ascii_dec c sep then k1 r' else if ascii_dec c close then k2 r' else None
  | EmptyString => None
  end = Some res ->
  exists r', k1 r' = Some res \/ k2 r' = Some res.
Proof.
  intros H. destruct X as [|c x]; [discriminate|].
  destruct (ascii_dec c sep); [eauto|]. destruct (ascii_dec c close); [eauto|discriminate].
Qed.

Lemma match_comma_bracket {A} X (k1 k2 : string -> option A) res :
  match X with
  | String "," r' => k1 r'
  | String "]" r' => k2 r'
  | _ => None
  end = Some res ->
  exists r', k1 r' = Some res \/ k2 r' = Some res.
Proof.
  intros H. destruct X as [|c x]; [discriminate|].
  destruct c as [[][][][][][][][]]; first [discriminate H | eauto].
Qed.

Lemma match_comma_brace {A} X (k1 k2 : string -> option A) res :
  match X with
  | String "," r' => k1 r'
  | String "}" r' => k2 r'
  | _ => None
  end = Some res ->
  exists r', k1 r' = Some res \/ k2 r' = Some res.
Proof.
  intros H. destruct X as [|c x]; [discriminate|].
  destruct c as [[][][][][][][][]]; first [discriminate H | eauto].
Qed.

Lemma match_colon {A} X (k : string -> option A) res :
  match X with
  | String ":" r' => k r'
  | _ => None
  end = Some res ->
  exists r', k r' = Some res.
Proof.
  intros H. destruct X as [|c x]; [discriminate|].
  destruct c as [[][][][][][][][]]; first [discriminate H | eauto].
Qed.

Lemma elems_wf f :
  (forall s v r, Json.parse_value f s = Some (v, r) -> json_wf v = true) ->
  forall g s acc l r, forallb json_wf acc = true -> json_elems f g s acc = Some (l, r) ->
  forallb json_wf l = true.
Proof.
  intros IH g. induction g as [|g IHg]; intros s acc l r Hacc H; [discriminate|].
  rewrite json_elems_S in H.
  destruct (Json.parse_value f (Json.skip_ws s)) as [[v r0]|] eqn:Ev; [|discriminate].
  apply IH in Ev.
  apply (match_comma_bracket _ (fun r' => json_elems f g r' (v :: acc))
           (fun r' => Some (rev (v :: acc), r'))) in H as [r' [H|H]].
  - eapply IHg; [|exact H]. cbn [forallb]. rewrite Ev, Hacc. reflexivity.
  - injection H as <- _. rewrite forallb_forall in Hacc |- *. intros y Hy.
    apply in_app_or in Hy as [Hy|[<-|[]]]; [apply Hacc; rewrite in_rev; exact Hy|exact Ev].
Qed.

Lemma members_wf f :
  (forall s v r, Json.parse_value f s = Some (v, r) -> json_wf v = true) ->
  forall g s acc m r, keys_sorted acc = true -> forallb (fun '(_, x) => json_wf x) acc = true ->
  json_members f g s acc = Some (m, r) ->
  keys_sorted m = true /\ forallb (fun '(_, x) => json_wf x) m = true.
Proof.
  intros IH g. induction g as [|g IHg]; intros s acc m r Hs Hacc H; [discriminate|].
  rewrite json_members_S in H.
  destruct (Json.skip_ws s) as [|c t]; [discriminate|].
  destruct (ascii_dec c Json.QUOTE); [|discriminate].
  destruct (Json.parse_str t) as [[k r1]|]; [|discriminate].
  apply (match_colon _ (fun r2 =>
     match Json.parse_value f (Json.skip_ws r2) with
     | Some (v, r3) =>
         match Json.skip_ws r3 with
         | String "," r' => json_members f g r' (Json.map_insert k v acc)
         | String "}" r' => Some (Json.map_insert k v acc, r')
         | _ => None
         end
     | None => None
     end)) in H as [r2 H].
  destruct (Json.parse_value f (Json.skip_ws r2)) as [[v r3]|] eqn:Ev; [|discriminate].
  apply IH in Ev.
  assert (Hs' : keys_sorted (Json.map_insert k v acc) = true) by (apply map_insert_sorted, Hs).
  assert (Hw' : forallb (fun '(_, x) => json_wf x) (Json.map_insert k v acc) = true).
  { rewrite forallb_forall in Hacc |- *. intros p Hp.
    destruct (map_insert_elems _ _ _ _ Hp) as [->|Hp']; [exact Ev|exact (Hacc _ Hp')]. }
  apply (match_comma_brace _ (fun r' => json_members f g r' (Json.map_insert k v acc))
           (fun r' => Some (Json.map_insert k v acc, r'))) in H as [r' [H|H]].
  - eapply IHg; [exact Hs'|exact Hw'|exact H].
  - injection H as <- _. auto.
Qed.

Lemma parse_number_wf s v r : Json.parse_number s = Some (v, r) -> json_wf v = true.
Proof.
  unfold Json.parse_number. intros H.
  destruct (match s with String "-" r => (true, r) | _ => (false, s) end) as [neg body].
  destruct (match body with String "0" r => ("0", r) | _ => Json.digits_prefix body end) as [ds rest].
  destruct ds as [|d ds']; [discriminate|].
  destruct (parse_digits 0 (String d ds')) as [n|]; [|discriminate].
  destruct (match rest with
            | String c _ => (Ascii.eqb c "." || Ascii.eqb c "e" || Ascii.eqb c "E")%bool
            | EmptyString => false end); [discriminate|].
  destruct neg.
  - destruct (n <=? Json.i64_min_abs)%N eqn:E; [|discriminate]. injection H as <- _.
    apply N.leb_le in E. cbn [json_wf]. apply andb_true_intro.
    split; apply Z.leb_le; unfold u64_max, u64_modulus, Json.i64_min_abs in *; lia.
  - destruct (n <=? u64_max)%N eqn:E; [|discriminate]. injection H as <- _.
    apply N.leb_le in E. cbn [json_wf]. apply andb_true_intro.
    split; apply Z.leb_le; unfold u64_max, u64_modulus, Json.i64_min_abs in *; lia.
Qed.

Lemma parse_value_wf f : forall s v r, Json.parse_value f s = Some (v, r) -> json_wf v = true.
Proof.
  induction f as [|f IH]; intros s v r H; [discriminate|].
  destruct s as [|c t]; [discriminate|].
  cbn [Json.parse_value] in H.
  destruct (ascii_dec c "n"); [destruct (Json.expect _ _); [injection H as <- _; reflexivity|discriminate]|].
  destruct (ascii_dec c "t"); [destruct (Json.expect _ _); [injection H as <- _; reflexivity|discriminate]|].
  destruct (ascii_dec c "f"); [destruct (Json.expect _ _); [injection H as <- _; reflexivity|discriminate]|].
  destruct (ascii_dec c Json.QUOTE).
  { destruct (Json.parse_str t) as [[x y]|]; [injection H as <- _; reflexivity|discriminate]. }
  destruct (ascii_dec c "[").
  { apply match_bracket_close in H as [->|H]; [reflexivity|].
    change (option_map (fun '(l, r') => (Json.Array l, r')) (json_elems f (S (String.length t)) t [])
            = Some (v, r)) in H.
    destruct (json_elems f (S (String.length t)) t []) as [[l r']|] eqn:E; [|discriminate].
    injection H as <- _. cbn [json_wf]. eapply elems_wf; [exact IH| |exact E]. reflexivity. }
  destruct (ascii_dec c "{").
  { apply match_brace_close in H as [->|H]; [reflexivity|].
    change (option_map (fun '(m, r') => (Json.Object m, r')) (json_members f (S (String.length t)) t [])
            = Some (v, r)) in H.
    destruct (json_members f (S (String.length t)) t []) as [[m r']|] eqn:E; [|discriminate].
    injection H as <- _. cbn [json_wf]. apply andb_true_intro.
    eapply members_wf; [exact IH| | |exact E]; reflexivity. }
  destruct (Ascii.eqb c "-" || is_digit c)%bool; [|discriminate].
  eapply parse_number_wf. exact H.
Qed.

Lemma from_str_wf s v : Json.from_str s = Some v -> json_wf v = true.
Proof.
  unfold Json.from_str. destruct (Json.parse_value _ _) as [[x r]|] eqn:E; [|discriminate].
  destruct (Json.skip_ws r); [|discriminate]. intros [= <-]. eapply parse_value_wf, E.
Qed.


(** ** Reading back what was written *)

Lemma lru_put_lookup k v l : Lru.lookup k (Lru.put k v l) = Some v.
Proof. unfold Lru.put. destruct (Lru.lookup k l); simpl; [|destruct (Nat.eqb _ _)]; simpl; rewrite String.eqb_refl; reflexivity. Qed.

Lemma put_internal_ok_lru ser now k v eo s :
  fst (Kv.put_internal ser now k v eo s) = Ok tt ->
  Lru.lookup k (lru (snd (Kv.put_internal ser now k v eo s))) = Some v.
Proof.
  unfold Kv.put_internal. destruct (Kv.get ser now k (set_write_ops (S (write_ops s)) s)) as [old s2].
  destruct (serialize ser v) as [enc|e]; [|discriminate].
  destruct (append_record _ _) as [log' [off len]]. cbn [fst snd lru set_lru]. intros _.
  apply lru_put_lookup.
Qed.

Lemma put_internal_plain_ok now k v eo s : fst (Kv.put_internal PlainSerializer now k v eo s) = Ok tt.
Proof.
  unfold Kv.put_internal. destruct (Kv.get _ _ _ _) as [old s2]. cbn [serialize PlainSerializer].
  destruct (append_record _ _) as [log' [off len]]. reflexivity.
Qed.

Lemma get_miss ser now k s :
  Lru.lookup k (lru s) = None -> index s !! k = None -> fst (Kv.get ser now k s) = None.
Proof.
  intros H1 H2. unfold Kv.get. cbn [lru set_read_ops index]. unfold Lru.get at 1. rewrite H1.
  rewrite H2. reflexivity.
Qed.

Lemma get_json_after_put ser now now' k x s :
  fst (Kv.put ser now k x s) = Ok tt ->
  fst (Kv.get_json ser now' k (snd (Kv.put ser now k x s))) = Json.from_str x.
Proof.
  intros H. unfold Kv.get_json. apply put_internal_ok_lru in H.
  pose proof (get_lru_hit ser now' k _ _ H) as G.
  destruct (Kv.get ser now' k _) as [o s']. cbn [fst] in G |- *. subst o. reflexivity.
Qed.

Lemma get_json_wf ser now k s v : fst (Kv.get_json ser now k s) = Some v -> json_wf v = true.
Proof.
  unfold Kv.get_json. destruct (Kv.get ser now k s) as [[x|] s']; cbn [fst]; [|discriminate].
  apply from_str_wf.
Qed.

Lemma get_json_fst ser now k s :
  fst (Kv.get_json ser now k s) =
  match fst (Kv.get ser now k s) with Some x => Json.from_str x | None => None end.
Proof. unfold Kv.get_json. destruct (Kv.get ser now k s). reflexivity. Qed.


(** ** JSON lists *)

Lemma last_app_single {A} (l : list A) (x d : A) : List.last (l ++ [x]) d = x.
Proof. apply List.last_last. Qed.

Lemma pushed_wf (j : option Json.Value) (value : string) (f : list Json.Value -> list Json.Value) :
  (forall x, j = Some x -> json_wf x = true) ->
  (forall vec, forallb json_wf vec = true -> forallb json_wf (f vec) = true) ->
  json_wf (match match j with Some x => x | None => Json.Array [] end with
           | Json.Array vec => Json.Array (f vec)
           | _ => Json.Array [Json.Str value]
           end) = true.
Proof.
  intros Hj Hf. destruct j as [x|]; [specialize (Hj x eq_refl)|].
  - destruct x; try reflexivity. apply Hf, Hj.
  - apply Hf. reflexivity.
Qed.

Lemma forallb_app_str vec value :
  forallb json_wf vec = true -> forallb json_wf (vec ++ [Json.Str value]) = true.
Proof. intros H. rewrite forallb_app, H. reflexivity. Qed.




Lemma set_add_first ser now k v s :
  fst (Kv.set_add ser now k v s) = Ok tt ->
  exists vec, Lru.lookup k (lru (snd (Kv.set_add ser now k v s))) = Some (Json.to_string (Json.Array vec)) /\
    json_wf (Json.Array vec) = true /\ existsb (Kv.is_str v) vec = true.
Proof.
  unfold Kv.set_add. pose proof (get_json_wf ser now k s) as Hw.
  destruct (Kv.get_json ser now k s) as [j s1]. cbn [fst] in Hw.
  set (arr := match match j with Some x => x | None => Json.Array [] end with
              | Json.Array vec =>
                  if negb (existsb (Kv.is_str v) vec) then Json.Array (vec ++ [Json.Str v])
                  else Json.Array vec
              | _ => Json.Array [Json.Str v]
              end).
  intros H1. apply put_internal_ok_lru in H1.
  assert (Harr : exists vec, arr = Json.Array vec /\ json_wf (Json.Array vec) = true /\
                             existsb (Kv.is_str v) vec = true).
  { subst arr. destruct j as [x|]; [specialize (Hw x eq_refl)|].
    - destruct x; try (eexists; split; [reflexivity|]; simpl; rewrite String.eqb_refl; split; reflexivity).
      destruct (existsb (Kv.is_str v) l) eqn:E; cbn [negb].
      + eauto.
      + eexists; split; [reflexivity|]. split; [cbn [json_wf]; apply forallb_app_str, Hw|].
        rewrite existsb_app. simpl. rewrite String.eqb_refl, orb_true_r. reflexivity.
    - eexists; split; [reflexivity|]. simpl. rewrite String.eqb_refl. split; reflexivity. }
  destruct Harr as (vec & Ev & Hv). exists vec. split; [rewrite <- Ev; exact H1|exact Hv].
Qed.

Lemma set_add_present ser now k v s vec :
  fst (Kv.get_json ser now k s) = Some (Json.Array vec) -> existsb (Kv.is_str v) vec = true ->
  Kv.set_add ser now k v s = Kv.put ser now k (Json.to_string (Json.Array vec)) (snd (Kv.get_json ser now k s)).
Proof.
  intros H1 H2. unfold Kv.set_add. destruct (Kv.get_json ser now k s) as [j s1].
  cbn [fst] in H1. subst j. rewrite H2. reflexivity.
Qed.



(** ** JSON objects: [hash_*] and [json_*_field] *)

Lemma map_from_str_wf s m :
  Json.map_from_str s = Some m -> json_wf (Json.Object m) = true.
Proof.
  unfold Json.map_from_str. destruct (Json.from_str s) as [v|] eqn:E; [|discriminate].
  apply from_str_wf in E. destruct v; try discriminate. intros [= <-]. exact E.
Qed.

Lemma stored_map_wf o : json_wf (Json.Object (Kv.stored_map o)) = true.
Proof.
  unfold Kv.stored_map. destruct o as [s|]; [|reflexivity].
  destruct (Json.map_from_str s) as [m|] eqn:E; [apply (map_from_str_wf _ _ E)|reflexivity].
Qed.

Lemma map_insert_wf k x m :
  json_wf (Json.Object m) = true -> json_wf x = true -> json_wf (Json.Object (Json.map_insert k x m)) = true.
Proof.
  cbn [json_wf]. intros H Hx. apply andb_prop in H as [Hs Hw]. apply andb_true_intro. split.
  - apply map_insert_sorted, Hs.
  - rewrite forallb_forall in Hw |- *. intros p Hp.
    destruct (map_insert_elems _ _ _ _ Hp) as [->|Hp']; [exact Hx|exact (Hw _ Hp')].
Qed.

Lemma keys_sorted_filter g m : keys_sorted m = true -> keys_sorted (List.filter g m) = true.
Proof.
  induction m as [|[k x] m IH]; intros Hs; [reflexivity|].
  cbn [keys_sorted] in Hs. apply andb_prop in Hs as [Hk Hs].
  cbn [List.filter]. destruct (g (k, x)); [|apply IH, Hs].
  cbn [keys_sorted]. rewrite IH by exact Hs. rewrite andb_true_r.
  rewrite forallb_forall in Hk |- *. intros p Hp. apply filter_In in Hp as [Hp _]. apply Hk, Hp.
Qed.

Lemma map_remove_wf k m :
  json_wf (Json.Object m) = true -> json_wf (Json.Object (Json.map_remove k m)) = true.
Proof.
  cbn [json_wf]. intros H. apply andb_prop in H as [Hs Hw]. apply andb_true_intro. split.
  - apply keys_sorted_filter, Hs.
  - rewrite forallb_forall in Hw |- *. intros p Hp. apply filter_In in Hp as [Hp _]. apply Hw, Hp.
Qed.

Lemma find_map_insert k x m :
  List.find (fun p => String.eqb (fst p) k) (Json.map_insert k x m) = Some (k, x).
Proof.
  induction m as [|[k1 x1] m IH]; cbn [Json.map_insert].
  - simpl. rewrite String.eqb_refl. reflexivity.
  - destruct (String.compare k k1) eqn:E; simpl; rewrite ?String.eqb_refl; try reflexivity.
    destruct (String.eqb k1 k) eqn:E'; [|exact IH].
    apply String.eqb_eq in E'. subst. rewrite scompare_refl in E. discriminate.
Qed.

Lemma get_map_insert k x m : Json.get (Json.Object (Json.map_insert k x m)) k = Some x.
Proof. unfold Json.get. rewrite find_map_insert. reflexivity. Qed.

Lemma get_map_remove k m : Json.get (Json.Object (Json.map_remove k m)) k = None.
Proof.
  unfold Json.get, Json.map_remove. induction m as [|[k1 x1] m IH]; [reflexivity|].
  cbn [List.filter fst]. destruct (String.eqb k1 k) eqn:E; cbn [negb].
  - exact IH.
  - simpl. rewrite E. exact IH.
Qed.

Lemma fold_insert_notin (m : list (string * Json.Value)) (acc : gmap string string) f :
  ~ In f (map fst m) ->
  fold_left (fun acc '(k, v) => <[k := Json.to_string v]> acc) m acc !! f = acc !! f.
Proof.
  revert acc. induction m as [|[k x] m IH]; intros acc Hn; [reflexivity|].
  cbn [fold_left]. rewrite IH by (intros H; apply Hn; right; exact H).
  rewrite lookup_insert_ne; [reflexivity|]. intros ->. apply Hn. left. reflexivity.
Qed.

Lemma fold_insert_in (m : list (string * Json.Value)) (acc : gmap string string) f x :
  keys_sorted m = true -> In (f, x) m ->
  fold_left (fun acc '(k, v) => <[k := Json.to_string v]> acc) m acc !! f = Some (Json.to_string x).
Proof.
  revert acc. induction m as [|[k1 x1] m IH]; intros acc Hs Hin; [destruct Hin|].
  cbn [keys_sorted] in Hs. apply andb_prop in Hs as [Hk Hs]. rewrite keys_lt_all in Hk.
  cbn [fold_left]. destruct Hin as [E|Hin].
  - injection E as -> ->. rewrite fold_insert_notin.
    + rewrite lookup_insert_eq. reflexivity.
    + intros H. specialize (Hk _ H). rewrite scompare_refl in Hk. discriminate.
  - apply IH; assumption.
Qed.

Lemma in_map_insert k x m : In (k, x) (Json.map_insert k x m).
Proof.
  induction m as [|[k1 x1] m IH]; cbn [Json.map_insert]; [left; reflexivity|].
  destruct (String.compare k k1); [left|left|right]; auto.
Qed.




(** The value [json_set_field] stores for [value]: its JSON reading, or
    the JSON string holding it. *)
Lemma json_set_field_spec ser now k f v s :
  let new_val := match Json.from_str v with Some w => w | None => Json.Str v end in
  let root := match fst (Kv.get ser now k s) with
              | Some x => match Json.from_str x with Some w => w | None => Json.Object [] end
              | None => Json.Object []
              end in
  let map := match root with Json.Object m => m | _ => [] end in
  exists s1, Kv.json_set_field ser now k f v s =
    Kv.put ser now k (Json.to_string (Json.Object (Json.map_insert f new_val map))) s1.
Proof.
  intros new_val root map. unfold Kv.json_set_field. subst root map.
  destruct (Kv.get ser now k s) as [o s1]. cbn [fst].
  destruct (match o with Some x => _ | None => _ end) as [] eqn:E; eexists; reflexivity.
Qed.

Lemma json_set_root_wf (o : option string) :
  json_wf (Json.Object (match match o with
                              | Some x => match Json.from_str x with Some w => w | None => Json.Object [] end
                              | None => Json.Object []
                              end with Json.Object m => m | _ => [] end)) = true.
Proof.
  destruct o as [x|]; [|reflexivity].
  destruct (Json.from_str x) as [w|] eqn:E; [|reflexivity].
  apply from_str_wf in E. destruct w; try reflexivity. exact E.
Qed.

Lemma new_val_wf v : json_wf (match Json.from_str v with Some w => w | None => Json.Str v end) = true.
Proof. destruct (Json.from_str v) as [w|] eqn:E; [apply (from_str_wf _ _ E)|reflexivity]. Qed.




(** ** Engine operations *)

Lemma get_hit_state ser now k s w :
  Lru.lookup k (lru s) = Some w ->
  Kv.get ser now k s =
  (Some w, set_hits (S (hits s)) (set_lru ((k, w) :: Lru.remove k (lru s)) (set_read_ops (S (read_ops s)) s))).
Proof. intros H. unfold Kv.get. cbn [lru set_read_ops]. unfold Lru.get at 1. rewrite H. reflexivity. Qed.





(** ** Hint files *)

Lemma ends_with_app c a b : b <> EmptyString -> ends_with c (a ++ b) = ends_with c b.
Proof.
  intros Hb. induction a as [|x a IH]; [reflexivity|].
  cbn [String.append]. rewrite ends_with_cons; [exact IH|].
  destruct a, b; simpl; congruence.
Qed.

Lemma digits_not_cr s : all_chars is_digit s = true -> ends_with CR s = false.
Proof.
  induction s as [|c r IH]; [reflexivity|]. cbn [all_chars]. intros H.
  apply andb_prop in H as [Hc Hr].
  destruct (String.eqb_spec r EmptyString) as [->|Hne].
  - unfold ends_with. simpl. destruct c as [[][][][][][][][]]; try discriminate Hc; reflexivity.
  - rewrite ends_with_cons by exact Hne. apply IH, Hr.
Qed.

Lemma digits_no_comma s : all_chars is_digit s = true -> no_char "," s = true.
Proof.
  apply all_chars_impl. intros c Hc.
  destruct c as [[][][][][][][][]]; try discriminate Hc; reflexivity.
Qed.

Lemma digits_no_lf s : all_chars is_digit s = true -> no_char LF s = true.
Proof.
  apply all_chars_impl. intros c Hc.
  destruct c as [[][][][][][][][]]; try discriminate Hc; reflexivity.
Qed.

Lemma show_u64_nonempty n : show_u64 n <> EmptyString.
Proof. destruct (show_u64_head n) as (c & r & -> & _). discriminate. Qed.

Lemma lines_concat_lf (xs : list string) :
  Forall (fun x => no_char LF x = true /\ ends_with CR x = false) xs ->
  lines (String.concat EmptyString (map (fun x => x ++ lf_s) xs)) = xs.
Proof.
  induction xs as [|x xs IH]; intros H; [reflexivity|].
  inversion H as [|? ? [Hl Hc] H']; subst.
  cbn [map]. rewrite concat_cons, sapp_assoc, lines_app, IH by exact H'.
  rewrite lines_line_lf, split_char_no_char by exact Hl. cbn [map].
  rewrite strip_cr_id by exact Hc. reflexivity.
Qed.

Lemma hint_line_facts k o l :
  hint_ok k (o, l) ->
  let x := k ++ "," ++ show_u64 o ++ "," ++ show_u64 l in
  no_char LF x = true /\ ends_with CR x = false /\ utf8_valid x = true /\
  split_char "," x = [k; show_u64 o; show_u64 l].
Proof.
  intros (Hc & Hl & Hu & Ho & Hn). cbn [fst snd] in Ho, Hn. intros x.
  pose proof (show_u64_digits o) as Do. pose proof (show_u64_digits l) as Dl.
  split; [|split; [|split]].
  - unfold x, no_char. rewrite !all_chars_app. fold (no_char LF k) (no_char LF (show_u64 o)) (no_char LF (show_u64 l)).
    rewrite Hl, !digits_no_lf by assumption. reflexivity.
  - unfold x. pose proof (show_u64_nonempty l) as Ne.
    rewrite (ends_with_app CR k) by discriminate. rewrite (ends_with_app CR ",") by (destruct (show_u64 o); discriminate).
    rewrite (ends_with_app CR (show_u64 o)) by discriminate. rewrite (ends_with_app CR ",") by exact Ne.
    apply digits_not_cr, Dl.
  - unfold x. repeat apply utf8_valid_app; try reflexivity; try assumption;
      apply utf8_field, show_u64_field.
  - unfold x. rewrite !sapp_single, split_char_app by exact Hc.
    rewrite split_char_app by (apply digits_no_comma, Do).
    rewrite split_char_no_char by (apply digits_no_comma, Dl). reflexivity.
Qed.

Lemma save_hint_lines idx :
  save_hint idx =
  String.concat EmptyString
    (map (fun x => x ++ lf_s)
       (map (fun '(k, (off, len)) => k ++ "," ++ show_u64 off ++ "," ++ show_u64 len) (map_to_list idx))).
Proof.
  unfold save_hint. rewrite map_map. f_equal. apply map_ext. intros [k [o l]].
  rewrite !sapp_assoc. reflexivity.
Qed.

Lemma load_fold_lines (L : list (string * (N * N))) (acc : gmap string (N * N)) :
  Forall (fun p => hint_ok p.1 p.2) L ->
  fold_left (fun map l =>
               match split_char "," l with
               | [k; o; n] =>
                   match parse_u64 o, parse_usize n with
                   | Some off, Some len => <[k := (off, len)]> map
                   | _, _ => map
                   end
               | _ => map
               end)
            (map (fun '(k, (off, len)) => k ++ "," ++ show_u64 off ++ "," ++ show_u64 len) L) acc =
  fold_left (fun m p => <[p.1 := p.2]> m) L acc.
Proof.
  revert acc. induction L as [|[k [o l]] L IH]; intros acc H; [reflexivity|].
  inversion H as [|? ? Hp H']; subst. cbn [map fold_left].
  destruct (hint_line_facts k o l Hp) as (_ & _ & _ & ->).
  destruct Hp as (_ & _ & _ & Ho & Hn). cbn [fst snd] in Ho, Hn.
  unfold parse_usize. rewrite !parse_show_u64 by assumption. apply IH, H'.
Qed.

Lemma fold_left_insert_to_list (idx : gmap string (N * N)) :
  fold_left (fun m p => <[p.1 := p.2]> m) (map_to_list idx) ∅ = idx.
Proof.
  rewrite <- fold_left_rev_right. change (list_to_map (rev (map_to_list idx)) = idx).
  rewrite <- (list_to_map_proper (map_to_list idx)).
  - apply list_to_map_to_list.
  - apply NoDup_fst_map_to_list.
  - apply Permutation_rev.
Qed.



(** ** Scans *)

Lemma scan_loop_keys ser now prefix range keys s :
  map fst (fst (Kv.scan_loop ser now prefix range keys s)) =
  List.filter (fun key => negb (scan_skip prefix range key)) keys.
Proof.
  revert s. induction keys as [|key r IH]; intros s; [reflexivity|].
  cbn [Kv.scan_loop List.filter]. unfold scan_skip.
  destruct (_ || _)%bool; cbn [negb].
  - apply IH.
  - destruct (Kv.get ser now key s) as [value s1].
    specialize (IH s1). destruct (Kv.scan_loop ser now prefix range r s1) as [result s2].
    cbn [fst map] in *. rewrite IH. reflexivity.
Qed.

Lemma scan_loop_frame ser now prefix range keys s :
  let s' := snd (Kv.scan_loop ser now prefix range keys s) in
  log s' = log s /\ index s' = index s /\ sec_index s' = sec_index s /\ hint s' = hint s.
Proof.
  revert s. induction keys as [|key r IH]; intros s; [cbn; auto|].
  cbn [Kv.scan_loop]. destruct (_ || _)%bool; [apply IH|].
  pose proof (get_frame ser now key s) as (F1 & F2 & F3 & _ & _ & _ & F7).
  destruct (Kv.get ser now key s) as [value s1]. cbn [snd] in F1, F2, F3, F7.
  specialize (IH s1). destruct (Kv.scan_loop ser now prefix range r s1) as [result s2].
  cbn [snd] in *. destruct IH as (G1 & G2 & G3 & G7). rewrite G1, G2, G3, G7. auto.
Qed.

Lemma in_insert_sorted x k l : In x (Kv.insert_sorted k l) <-> x = k \/ In x l.
Proof.
  induction l as [|y r IH]; cbn [Kv.insert_sorted]; [simpl; intuition congruence|].
  destruct (String.leb k y); simpl; [intuition congruence|]. rewrite IH. intuition congruence.
Qed.

Lemma in_sort_keys x l : In x (Kv.sort_keys l) <-> In x l.
Proof.
  induction l as [|k l IH]; [reflexivity|]. unfold Kv.sort_keys. cbn [fold_right].
  rewrite in_insert_sorted. fold (Kv.sort_keys l). rewrite IH. simpl. intuition.
Qed.

Lemma sorted_insert k l :
  Sorted slt l -> ~ In k l -> Sorted slt (Kv.insert_sorted k l).
Proof.
  induction l as [|x r IH]; intros Hs Hn; cbn [Kv.insert_sorted]; [repeat constructor|].
  unfold String.leb. destruct (String.compare k x) eqn:E.
  - apply String.compare_eq_iff in E. subst. exfalso. apply Hn. left. reflexivity.
  - constructor; [exact Hs|]. constructor. exact E.
  - apply Sorted_inv in Hs as [Hr Hh]. constructor.
    + apply IH; [exact Hr|]. intros H. apply Hn. right. exact H.
    + destruct r as [|y r']; cbn [Kv.insert_sorted]; [constructor; apply compare_gt_lt, E|].
      destruct (String.leb k y); constructor; [apply compare_gt_lt, E|].
      inversion Hh; assumption.
Qed.

Lemma sorted_sort_keys l : NoDup l -> Sorted slt (Kv.sort_keys l).
Proof.
  induction l as [|k l IH]; intros H; [constructor|]. apply NoDup_cons in H as [Hk H]. rewrite list_elem_of_In in Hk.
  unfold Kv.sort_keys. cbn [fold_right]. fold (Kv.sort_keys l).
  apply sorted_insert; [apply IH, H|]. rewrite in_sort_keys. exact Hk.
Qed.

Lemma strongly_sorted_filter (A : Type) (R : A -> A -> Prop) g l :
  StronglySorted R l -> StronglySorted R (List.filter g l).
Proof.
  induction l as [|x l IH]; intros H; [constructor|]. apply StronglySorted_inv in H as [H Hx].
  cbn [List.filter]. destruct (g x); [|apply IH, H]. constructor; [apply IH, H|].
  apply List.Forall_forall. intros y Hy. apply filter_In in Hy as [Hy _].
  rewrite List.Forall_forall in Hx. apply Hx, Hy.
Qed.

Lemma map_fst_fmap (l : list (string * (N * N))) : map fst l = l.*1.
Proof. induction l as [|x l IH]; [reflexivity|]. simpl. rewrite IH. reflexivity. Qed.


Lemma slt_trans : Transitive slt.
Proof. intros a b c. apply scompare_trans. Qed.

Lemma opt_forall {A} (o : option A) (P : A -> Prop) :
  (forall x, o = Some x -> P x) <-> match o with Some x => P x | None => True end.
Proof. destruct o; split; auto; congruence. Qed.

Lemma opt_forall2 {A B} (o : option (A * B)) (P : A -> B -> Prop) :
  (forall a b, o = Some (a, b) -> P a b) <-> match o with Some (a, b) => P a b | None => True end.
Proof. destruct o as [[a b]|]; split; auto; [|congruence]. intros H a' b' [= <- <-]. exact H. Qed.

Lemma scan_keys_eq ser now prefix range s :
  map fst (fst (Kv.scan ser now prefix range s)) =
  List.filter (fun key => negb (scan_skip prefix range key)) (Kv.sort_keys ((map_to_list (index s)).*1)).
Proof. unfold Kv.scan. rewrite scan_loop_keys, map_fst_fmap. reflexivity. Qed.





(** ** Runs, serializers, records and the secondary index *)








Lemma load_save_hint idx :
  (forall k p, idx !! k = Some p -> hint_ok k p) ->
  load_hint (save_hint idx) = Ok idx.
Proof.
  intros Hok.
  assert (Forall (fun p => hint_ok p.1 p.2) (map_to_list idx)) as HL.
  { apply List.Forall_forall. intros [k p] Hin. apply Hok. apply elem_of_map_to_list.
    apply list_elem_of_In, Hin. }
  assert (Forall (fun x => no_char LF x = true /\ ends_with CR x = false /\ utf8_valid x = true)
            (map (fun '(k, (off, len)) => k ++ "," ++ show_u64 off ++ "," ++ show_u64 len) (map_to_list idx))) as HX.
  { apply List.Forall_forall. intros x Hx. apply in_map_iff in Hx as ([k [o l]] & <- & Hin).
    rewrite List.Forall_forall in HL. destruct (hint_line_facts k o l (HL _ Hin)) as (A & B & C & _).
    auto. }
  unfold load_hint. rewrite save_hint_lines, lines_concat_lf.
  - assert (forallb utf8_valid
              (map (fun '(k, (off, len)) => k ++ "," ++ show_u64 off ++ "," ++ show_u64 len) (map_to_list idx)) = true) as ->.
    { apply forallb_forall. intros x Hx. rewrite List.Forall_forall in HX. apply HX, Hx. }
    rewrite load_fold_lines by exact HL. rewrite fold_left_insert_to_list. reflexivity.
  - eapply List.Forall_impl; [|exact HX]. cbn beta. tauto.
Qed.

Lemma put_internal_ok_index ser now key value eo s :
  fst (Kv.put_internal ser now key value eo s) = Ok tt ->
  let s' := snd (Kv.put_internal ser now key value eo s) in
  exists len, index s' = <[key := (len_s (log s), len)]> (index s) /\
    hint s' = save_hint (index s') /\ (len_s (log s) + len = len_s (log s'))%N.
Proof.
  unfold Kv.put_internal.
  pose proof (get_frame ser now key (set_write_ops (S (write_ops s)) s)) as (F1 & F2 & _).
  destruct (Kv.get ser now key (set_write_ops (S (write_ops s)) s)) as [old s2].
  cbn [snd] in F1, F2. destruct (serialize ser value) as [enc|e]; cbn [fst]; [|discriminate].
  intros _. unfold append_record. cbn. rewrite F1, F2.
  eexists. split; [reflexivity|]. split; [reflexivity|]. symmetry. apply len_s_app.
Qed.



Lemma get_json_frame ser now k s :
  let s' := snd (Kv.get_json ser now k s) in log s' = log s /\ index s' = index s.
Proof.
  unfold Kv.get_json. pose proof (get_frame ser now k s) as (F1 & F2 & _).
  destruct (Kv.get ser now k s) as [v s']. exact (conj F1 F2).
Qed.





Lemma hint_ok_single k p :
  hint_ok k p -> forall k' p', (<[k := p]> ∅ : gmap string (N * N)) !! k' = Some p' -> hint_ok k' p'.
Proof.
  intros H k' p' E. apply lookup_insert_Some in E as [[<- <-]|[_ E]]; [exact H|].
  rewrite lookup_empty in E. discriminate.
Qed.


(* ------------------------------------------------------------------ *)
(** ** Concrete runs *)

(** C1: the value of the last put is not returned by [get] when it is the
    empty string and the key is no longer cached: [put k ""] writes the
    record [put TAB k TAB TAB]; [read_record_slice] trims it to [put TAB k],
    which has two fields, so [get] reports a miss.  Here [k] is pushed out
    of the LRU cache by 1024 later puts of other keys. *)
Theorem C1_empty_value_lost :
  fst (Kv.get PlainSerializer 1 "k"
         (run PlainSerializer ((1%N, OPut "k" EmptyString) :: filler 1 1024) empty_engine))
  = None.
Proof. vm_compute. reflexivity. Qed.

(** C2: after [put a 1; compact], [get a] returns nothing: [compact_log]
    reads the log as [key TAB op ...] while the engine writes
    [op TAB key ...], so no record survives compaction. *)
Theorem C2_compact_loses_put :
  let s := snd (Kv.put PlainSerializer 1 "a" "1" empty_engine) in
  let s' := snd (Kv.compact PlainSerializer 1 s) in
  compact_log (log s) 1 = EmptyString /\ log s' = EmptyString /\
  fst (Kv.get PlainSerializer 1 "a" s') = None.
Proof. vm_compute. repeat split. Qed.

(** C3: the single forward scan of [build_offset_index] over the log the
    engine wrote for [put a 1] yields the empty map, while the engine's own
    index maps [a] to the extent [(0, 12)] of its record. *)
Theorem C3_rebuilt_index_empty :
  let s := snd (Kv.put PlainSerializer 100 "a" "1" empty_engine) in
  build_offset_index (log s) 100 = ∅ /\ index s = {[ "a" := (0%N, 12%N) ]}.
Proof. vm_compute. split; reflexivity. Qed.

(** C4: [putex k v 1] at time 100 expires at 101.  At time 200, [get k]
    still returns [v]: the key sits in the LRU cache, and a cache hit is
    returned without any expiry check.  Read from the log instead (the key
    pushed out of the cache by 1024 puts of other keys at time 101), a
    record whose expiry equals [now] is served too: [get] treats a record
    as expired only when [now > expiry]. *)
Theorem C4_expired_key_served_from_cache :
  let s := snd (Kv.putex PlainSerializer 100 "k" "v" 1 empty_engine) in
  fst (Kv.get PlainSerializer 200 "k" s) = Some "v" /\ Lru.lookup "k" (lru s) = Some "v" /\
  let s' := run PlainSerializer ((100%N, OPutex "k" "v" 1) :: filler 101 1024) empty_engine in
  Lru.lookup "k" (lru s') = None /\ fst (Kv.get PlainSerializer 101 "k" s') = Some "v".
Proof. vm_compute. repeat split. Qed.

(** C6: after a fresh [put a 1] the record is in the data log but not in
    the WAL file: it sits in the WAL writer's buffer, which is never
    flushed by [put]. *)
Theorem C6_put_record_not_in_wal_file :
  let s := snd (Kv.put PlainSerializer 1 "a" "1" empty_engine) in
  Wal.file (wal s) = EmptyString /\
  Wal.buf (wal s) = Kv.put_record "a" "MQ==" None ++ lf_s /\
  log s = Kv.put_record "a" "MQ==" None ++ lf_s.
Proof. vm_compute. repeat split. Qed.

(** C7: [putex k {a:1} 1] at time 100 (expiry 101), 1024 puts of other
    keys at time 200 (so [k] leaves the LRU cache), then [delete k] at
    time 200: the expired record gives [get] nothing, so [delete] removes
    no field of [k] from the secondary index, and [find a 1] still returns
    the deleted key. *)
Theorem C7_deleted_key_found :
  let obj := "{" ++ Json.quoted "a" ++ ":" ++ Json.quoted "1" ++ "}" in
  let s := run PlainSerializer
             ((100%N, OPutex "k" obj 1) :: filler 200 1024 ++ [(200%N, ODel "k")]) empty_engine in
  SecondaryIndex.find (sec_index s) "a" "1" = ["k"] /\ index s !! "k" = None.
Proof. vm_compute. split; reflexivity. Qed.

(** C8: the list scenario: the elements come back JSON-serialized. *)
Theorem C8_list_scenario_quoted :
  let P := PlainSerializer in
  let s1 := snd (Kv.list_rpush P 1 "L" "a" empty_engine) in
  let s2 := snd (Kv.list_rpush P 1 "L" "b" s1) in
  let s3 := snd (Kv.list_lpush P 1 "L" "c" s2) in
  let '(r, s4) := Kv.list_range P 1 "L" 0 (-1) s3 in
  let '(p, s5) := Kv.list_lpop P 1 "L" s4 in
  r = Some [Json.quoted "c"; Json.quoted "a"; Json.quoted "b"] /\
  p = Some (Json.quoted "c") /\ fst (Kv.list_len P 1 "L" s5) = 2%nat.
Proof. vm_compute. repeat split. Qed.

(* ------------------------------------------------------------------ *)
(** ** General properties *)

(** C5: let the WAL file be a prefix [pre] (empty or ending in LF)
    followed by a prefix [p] of the bytes [batch] writes, the rest [q] of
    those bytes missing, for operations that each read back as one WAL
    line ([batch_op_ok]: no LF, no final CR, UTF-8, a put key without TAB;
    the batches the CLI builds from [split_whitespace] tokens are such).
    The lines recovery replays are exactly those enclosed in matched
    BEGIN/END pairs, and recovery replays the lines recovered from [pre],
    then applies the whole batch through put/delete when at most its final
    LF is missing, and nothing of it otherwise. *)
Theorem C5_recovery_replays_complete_batches ser now ops pre p q s :
  forallb batch_op_ok ops = true ->
  (pre = EmptyString \/ ends_with LF pre = true) ->
  batch_bytes ops = p ++ q ->
  Wal.file (wal s) = pre ++ p ->
  enclosed (Wal.iter (wal s))
    (recovered (Wal.iter (Wal.open pre)) false [] ++
     if Nat.leb (String.length q) 1 then map Kv.batch_line ops else [])%list /\
  Kv.recover_from_wal ser now s =
    (Kv.replay_ops ser now (recovered (Wal.iter (Wal.open pre)) false []) ;;;
     if Nat.leb (String.length q) 1 then Kv.apply_ops ser now ops else ret tt) s.
Proof.
  intros Hok Hpre Hb Hf.
  assert (Hok' : Forall (fun op => batch_op_ok op = true) ops).
  { apply List.Forall_forall. intros op Hop. apply (proj1 (forallb_forall _ _) Hok op Hop). }
  unfold Kv.recover_from_wal.
  destruct (wal s) as [f b] eqn:Ew. cbn [Wal.file] in Hf. subst f.
  pose proof (batch_recovered ops pre p q b Hok' Hpre Hb) as R.
  split.
  - apply enclosed_iff. rewrite R. reflexivity.
  - rewrite recover_loop_replay, R, replay_ops_app. apply bind_ext. intros _ s'.
    destruct (Nat.leb (String.length q) 1); [apply replay_batch, Hok'|reflexivity].
Qed.

Lemma C5_recovery_replays_complete_batches_witness :
  let P := PlainSerializer in
  let ops := [Kv.BPut "x" "1"] in
  let p := "BEGIN" ++ lf_s ++ Kv.batch_line (Kv.BPut "x" "1") ++ lf_s in
  let s := set_wal (Wal.open p) empty_engine in
  enclosed (Wal.iter (wal s)) [] /\
  Kv.recover_from_wal P 1 s = (Kv.replay_ops P 1 [] ;;; ret tt) s.
Proof.
  intros P ops p s.
  apply (C5_recovery_replays_complete_batches P 1 ops EmptyString p ("END" ++ lf_s) s).
  - vm_compute. reflexivity.
  - left. reflexivity.
  - vm_compute. reflexivity.
  - vm_compute. reflexivity.
Defined.

(** C6 (as the code has it): [put] and [delete] add the pending records
    and then their own record to the WAL writer's stream (file and
    buffer) before appending the record to the data log, and leave no
    pending record; but the WAL writer is not flushed: while its buffer
    does not fill up, the WAL file is unchanged.  This holds for every
    serializer: the put record carries the base64 of the serialized value,
    and a put whose serialization fails writes nothing. *)
Theorem C6_mutation_wal_buffered :
  (forall ser now key value enc eo s,
     serialize ser value = Ok enc ->
     let r := Kv.put_record key (b64_encode enc) eo in
     let s' := snd (Kv.put_internal ser now key value eo s) in
     wal_stream (wal s') = wal_stream (wal s) ++ pending_bytes (write_buffer s ++ [r])%list /\
     log s' = log s ++ r ++ lf_s /\ write_buffer s' = [] /\
     ((String.length (Wal.buf (wal s)) + String.length (pending_bytes (write_buffer s ++ [r])%list)
       < Wal.capacity)%nat -> Wal.file (wal s') = Wal.file (wal s))) /\
  (forall ser now key s,
     let r := Kv.del_record key in
     let s' := snd (Kv.delete ser now key s) in
     wal_stream (wal s') = wal_stream (wal s) ++ pending_bytes (write_buffer s ++ [r])%list /\
     log s' = log s ++ r ++ lf_s /\ write_buffer s' = [] /\
     ((String.length (Wal.buf (wal s)) + String.length (pending_bytes (write_buffer s ++ [r])%list)
       < Wal.capacity)%nat -> Wal.file (wal s') = Wal.file (wal s))).
Proof.
  split.
  - intros ser now key value enc eo s He r s'.
    destruct (put_internal_wal_ser ser now key value enc eo s He) as (W & B & L). fold r s' in W, B, L.
    split; [rewrite W; apply appends_stream|].
    split; [exact L|]. split; [exact B|].
    intros H. rewrite W, (appends_small _ _ H). reflexivity.
  - intros ser now key s r s'.
    destruct (delete_wal ser now key s) as [W B]. fold r s' in W, B.
    split; [rewrite W; apply appends_stream|].
    split; [apply delete_log_ser|].
    split; [exact B|]. intros H. rewrite W, (appends_small _ _ H). reflexivity.
Qed.

Lemma C6_mutation_wal_buffered_witness :
  let s := snd (Kv.put JsonSerializer 1 "a" "1" empty_engine) in
  Wal.file (wal s) = Wal.file (wal empty_engine) /\
  Wal.file (wal (snd (Kv.delete JsonSerializer 1 "a" s))) = Wal.file (wal s).
Proof.
  intros s. split.
  - apply ((proj1 C6_mutation_wal_buffered) JsonSerializer 1%N "a" "1" "1" None empty_engine).
    + vm_compute. reflexivity.
    + apply Nat.ltb_lt. vm_compute. reflexivity.
  - apply ((proj2 C6_mutation_wal_buffered) JsonSerializer 1%N "a" s). apply Nat.ltb_lt. vm_compute. reflexivity.
Defined.

(** C8 (as the code has it): when [key] holds a JSON array [vec],
    [list_range key start end] returns, JSON-serialized, the elements of
    [vec] at the positions [i] with [max(start', 0) <= i <= max(end', 0)],
    where a negative index counts from the tail ([len + index]); each
    bound is clamped to [0] on its own, so [(0, -5)] on three elements
    selects the first one.  In the scenario the elements come back as the
    JSON strings ["c"], ["a"], ["b"], [list_lpop] returns ["c"] and the
    length is then 2. *)
Theorem C8_list_range_elements :
  (forall ser now key st en s vec,
     fst (Kv.get_json ser now key s) = Some (Json.Array vec) ->
     fst (Kv.list_range ser now key st en s) = Some (map Json.to_string (range_elements vec st en))) /\
  (let P := PlainSerializer in
   let s1 := snd (Kv.list_rpush P 1 "L" "a" empty_engine) in
   let s2 := snd (Kv.list_rpush P 1 "L" "b" s1) in
   let s3 := snd (Kv.list_lpush P 1 "L" "c" s2) in
   let '(r, s4) := Kv.list_range P 1 "L" 0 (-1) s3 in
   let '(p, s5) := Kv.list_lpop P 1 "L" s4 in
   r = Some [Json.quoted "c"; Json.quoted "a"; Json.quoted "b"] /\
   p = Some (Json.quoted "c") /\ fst (Kv.list_len P 1 "L" s5) = 2%nat).
Proof.
  split.
  - intros ser now key st en s vec H. unfold Kv.list_range.
    destruct (Kv.get_json ser now key s) as [o s1]. cbn [fst] in H. subst o.
    rewrite <- range_bounds_elements.
    destruct (Kv.range_bounds _ st en) as [[a b]|]; reflexivity.
  - vm_compute. repeat split.
Qed.

Lemma C8_list_range_elements_witness :
  let s := snd (Kv.list_rpush PlainSerializer 1 "L" "a" empty_engine) in
  fst (Kv.list_range PlainSerializer 1 "L" 0 (-5) s) =
  Some (map Json.to_string (range_elements [Json.Str "a"] 0 (-5))).
Proof.
  intros s. apply (proj1 C8_list_range_elements). vm_compute. reflexivity.
Defined.

(** C9: on a log that can be mapped, [read_record_slice] returns
    [Ok None] whenever [offset + len] (saturated) exceeds the size; hence
    [get] through an index entry whose extent lies past the end of the log
    returns nothing. *)
Theorem C9_past_end_reads_empty :
  (forall file off len,
     (len_s file <= isize_max)%N -> (len_s file < off + len)%N ->
     read_record_slice file off len = Ok None) /\
  (forall ser now k s off len,
     (len_s (log s) <= isize_max)%N -> Lru.lookup k (lru s) = None ->
     index s !! k = Some (off, len) -> (len_s (log s) < off + len)%N ->
     fst (Kv.get ser now k s) = None).
Proof. split; [exact read_slice_past_end|exact get_past_end]. Qed.

Lemma C9_past_end_reads_empty_witness :
  let s := snd (Kv.put PlainSerializer 1 "a" "1" empty_engine) in
  let s' := set_lru [] (set_index {[ "a" := (5%N, u64_max) ]} s) in
  read_record_slice (log s) 5 u64_max = Ok None /\ fst (Kv.get PlainSerializer 1 "a" s') = None.
Proof.
  intros s s'. split.
  - apply (proj1 C9_past_end_reads_empty).
    + apply N.leb_le. vm_compute. reflexivity.
    + apply N.ltb_lt. vm_compute. reflexivity.
  - apply ((proj2 C9_past_end_reads_empty) PlainSerializer 1%N "a" s' 5%N u64_max).
    + apply N.leb_le. vm_compute. reflexivity.
    + vm_compute. reflexivity.
    + vm_compute. reflexivity.
    + apply N.ltb_lt. vm_compute. reflexivity.
Defined.

(** C10: [delete k] succeeds for every key, live or not: it adds the
    pending records and its [del] record to the WAL writer's stream,
    appends the [del] record to the data log, removes [k] from the offset
    index and from the LRU cache, and rewrites the hint from the new
    index. *)
Theorem C10_delete_always_succeeds ser now k s :
  let '(r, s') := Kv.delete ser now k s in
  r = Ok tt /\
  wal_stream (wal s') = wal_stream (wal s) ++ pending_bytes (write_buffer s ++ [Kv.del_record k])%list /\
  log s' = log s ++ Kv.del_record k ++ lf_s /\
  index s' = delete k (index s) /\ index s' !! k = None /\
  Lru.lookup k (lru s') = None /\
  hint s' = save_hint (index s').
Proof.
  pose proof (delete_wal ser now k s) as [W _].
  pose proof (delete_index ser now k s) as (R & I & H).
  pose proof (delete_lru ser now k s) as L.
  pose proof (delete_log_ser ser now k s) as G.
  destruct (Kv.delete ser now k s) as [r s']. cbn [fst snd] in *.
  split; [exact R|]. split; [rewrite W; apply appends_stream|].
  split; [exact G|]. split; [exact I|]. split; [rewrite I; apply lookup_delete_eq|].
  split; [exact L|exact H].
Qed.

(* ------------------------------------------------------------------ *)
(** ** Further properties of the engine *)

(** X1: [get] right after a successful [put] of [v] returns [v], at any
    time: the put leaves the pair at the front of the LRU cache, which
    [get] consults first. *)
Theorem X_get_after_put ser now now' k v s :
  fst (Kv.put ser now k v s) = Ok tt ->
  fst (Kv.get ser now' k (snd (Kv.put ser now k v s))) = Some v.
Proof. intros H. apply get_lru_hit, put_internal_ok_lru, H. Qed.

Lemma X_get_after_put_witness :
  fst (Kv.put PlainSerializer 1 "a" "1" empty_engine) = Ok tt /\
  fst (Kv.get PlainSerializer 2 "a" (snd (Kv.put PlainSerializer 1 "a" "1" empty_engine))) = Some "1".
Proof. split; [vm_compute; reflexivity|apply X_get_after_put; vm_compute; reflexivity]. Defined.

(** X2: [get] right after [delete k] returns nothing: the key is gone from
    both the LRU cache and the offset index. *)
Theorem X_get_after_delete ser now now' k s :
  fst (Kv.get ser now' k (snd (Kv.delete ser now k s))) = None.
Proof.
  apply get_miss; [apply delete_lru|]. destruct (delete_index ser now k s) as (_ & E & _).
  rewrite E. apply lookup_delete_eq.
Qed.

(** X3: With the plain serializer, after a run of put/putex/delete from
    the empty engine (keys
    without TAB, UTF-8 keys and values, no stored expiry passed at a later
    operation, a log that can be mapped), [get k] returns nothing for a
    key absent from the resulting mapping and returns the stored value of
    a present key that is live, unless the value is empty and has no
    expiry. *)
Theorem X_get_after_run ops now k :
  forallb (fun p => op_ok p.2) ops = true ->
  no_expiry_passed ops ∅ = true ->
  (len_s (log (run PlainSerializer ops empty_engine)) <= isize_max)%N ->
  match abs_run ops ∅ !! k with
  | None => fst (Kv.get PlainSerializer now k (run PlainSerializer ops empty_engine)) = None
  | Some (v, e) =>
      live now e = true -> (v <> EmptyString \/ e <> None) ->
      fst (Kv.get PlainSerializer now k (run PlainSerializer ops empty_engine)) = Some v
  end.
Proof.
  intros Hops Hexp Hlog.
  pose proof (run_inv ops empty_engine ∅ inv_empty Hops Hexp Hlog) as Hinv.
  destruct (get_spec now k _ _ Hinv Hlog) as [_ H].
  destruct (abs_run ops ∅ !! k) as [[v e]|]; [apply H|exact H].
Qed.

Lemma X_get_after_run_witness :
  let ops := [(1%N, OPut "a" "1"); (1%N, OPutex "b" "2" 10); (2%N, ODel "a")] in
  forallb (fun p => op_ok p.2) ops = true /\ no_expiry_passed ops ∅ = true /\
  (len_s (log (run PlainSerializer ops empty_engine)) <= isize_max)%N /\
  match abs_run ops ∅ !! "b" with
  | None => fst (Kv.get PlainSerializer 5 "b" (run PlainSerializer ops empty_engine)) = None
  | Some (v, e) =>
      live 5 e = true -> (v <> EmptyString \/ e <> None) ->
      fst (Kv.get PlainSerializer 5 "b" (run PlainSerializer ops empty_engine)) = Some v
  end.
Proof.
  intros ops.
  assert ((len_s (log (run PlainSerializer ops empty_engine)) <= isize_max)%N) as H3
    by (apply N.leb_le; vm_compute; reflexivity).
  split; [vm_compute; reflexivity|]. split; [vm_compute; reflexivity|]. split; [exact H3|].
  apply X_get_after_run; [vm_compute; reflexivity|vm_compute; reflexivity|exact H3].
Defined.

(** X4: With the JSON serializer, a [put] of a value that does not parse
    (both values in [json_plain]) is rejected with [Serde] and writes no log record, the previous value
    stays readable through the cache, but the key has already been removed
    from the secondary index entries of the previous value. *)
Theorem X_rejected_json_put_unindexes now k v w s f sv :
  json_plain v = true -> json_plain w = true ->
  Json.from_str v = None -> Lru.lookup k (lru s) = Some w -> In (f, sv) (fields_of (Some w)) ->
  fst (Kv.put JsonSerializer now k v s) = Err Serde /\
  log (snd (Kv.put JsonSerializer now k v s)) = log s /\
  fst (Kv.get JsonSerializer now k (snd (Kv.put JsonSerializer now k v s))) = Some w /\
  ~ sec_mem (sec_index (snd (Kv.put JsonSerializer now k v s))) f sv k.
Proof.
  intros _ _ Hv Hw Hf. unfold Kv.put, Kv.put_internal.
  rewrite (get_hit_state JsonSerializer now k (set_write_ops (S (write_ops s)) s) w Hw).
  cbn [serialize JsonSerializer]. rewrite Hv. cbn [fst snd].
  split; [reflexivity|]. split; [reflexivity|]. split.
  - apply get_lru_hit. cbn [lru set_secindex_file set_sec_index set_hits set_lru].
    simpl. rewrite String.eqb_refl. reflexivity.
  - cbn [sec_index set_secindex_file set_sec_index]. rewrite sec_update.
    unfold fields_of at 2. unfold SecondaryIndex.object_fields. rewrite Hv. cbn [default].
    intros [[_ H]|[_ []]]. apply H. split; [reflexivity|exact Hf].
Qed.

Lemma X_rejected_json_put_unindexes_witness :
  let obj := "{" ++ Json.quoted "a" ++ ":1}" in
  let s := snd (Kv.put JsonSerializer 1 "k" obj empty_engine) in
  json_plain "x" = true /\ json_plain obj = true /\
  Json.from_str "x" = None /\ Lru.lookup "k" (lru s) = Some obj /\ In ("a", "1") (fields_of (Some obj)) /\
  fst (Kv.put JsonSerializer 2 "k" "x" s) = Err Serde /\
  log (snd (Kv.put JsonSerializer 2 "k" "x" s)) = log s /\
  fst (Kv.get JsonSerializer 2 "k" (snd (Kv.put JsonSerializer 2 "k" "x" s))) = Some obj /\
  ~ sec_mem (sec_index (snd (Kv.put JsonSerializer 2 "k" "x" s))) "a" "1" "k".
Proof.
  intros obj s.
  assert (json_plain "x" = true) as P1 by (vm_compute; reflexivity).
  assert (json_plain obj = true) as P2 by (vm_compute; reflexivity).
  split; [exact P1|]. split; [exact P2|].
  assert (Json.from_str "x" = None) as H1 by (vm_compute; reflexivity).
  assert (Lru.lookup "k" (lru s) = Some obj) as H2 by (vm_compute; reflexivity).
  assert (In ("a", "1") (fields_of (Some obj))) as H3 by (vm_compute; left; reflexivity).
  split; [exact H1|]. split; [exact H2|]. split; [exact H3|].
  apply X_rejected_json_put_unindexes; assumption.
Defined.

(** X5: The JSON serializer is idempotent on [json_plain] inputs:
    serializing its own output gives that output back. *)
Theorem X_json_serialize_idempotent x y :
  json_plain x = true -> serialize JsonSerializer x = Ok y -> serialize JsonSerializer y = Ok y.
Proof.
  intros _. cbn [serialize JsonSerializer]. destruct (Json.from_str x) as [v|] eqn:E; [|discriminate].
  intros [= <-]. rewrite (json_from_to_string v (from_str_wf _ _ E)). reflexivity.
Qed.

Lemma X_json_serialize_idempotent_witness :
  json_plain " [1, 2]" = true /\
  serialize JsonSerializer " [1, 2]" = Ok "[1,2]" /\ serialize JsonSerializer "[1,2]" = Ok "[1,2]".
Proof.
  split; [vm_compute; reflexivity|]. split; [vm_compute; reflexivity|].
  apply (X_json_serialize_idempotent " [1, 2]"); vm_compute; reflexivity.
Defined.

(** X6: Reading the slice that [append_record] reports for a UTF-8 record
    gives back the record (with the LF and trailing whitespace trimmed),
    as long as the file stays within [isize::MAX] bytes. *)
Theorem X_append_then_read file record :
  utf8_valid record = true ->
  (len_s file + len_s record + 1 <= isize_max)%N ->
  read_record_slice (fst (append_record file record))
    (fst (snd (append_record file record))) (snd (snd (append_record file record))) =
  Ok (Some (trim_end (record ++ lf_s))).
Proof.
  intros Hu Hs. unfold append_record, read_record_slice. cbn [fst snd].
  assert (len_s lf_s = 1%N) as L1 by reflexivity.
  assert ((isize_max <? len_s (file ++ record ++ lf_s))%N = false) as ->.
  { apply N.ltb_ge. rewrite !len_s_app, L1. lia. }
  rewrite N.min_l.
  2: { rewrite len_s_app. unfold usize_max, u64_max, u64_modulus. unfold isize_max in Hs.
       rewrite L1. lia. }
  assert ((len_s (file ++ record ++ lf_s) <? len_s file + len_s (record ++ lf_s))%N = false) as ->.
  { apply N.ltb_ge. rewrite !len_s_app. lia. }
  replace (len_s file + len_s (record ++ lf_s) - len_s file)%N with (len_s (record ++ lf_s)) by lia.
  unfold len_s. rewrite !Nat2N.id.
  rewrite <- (Nat.add_0_r (String.length file)), substring_app_r, substring_all.
  rewrite utf8_valid_app by (assumption || reflexivity). reflexivity.
Qed.

Lemma X_append_then_read_witness :
  let file := "abc" ++ lf_s in
  let record := "put" ++ tab_s ++ "k" in
  utf8_valid record = true /\ (len_s file + len_s record + 1 <= isize_max)%N /\
  read_record_slice (fst (append_record file record))
    (fst (snd (append_record file record))) (snd (snd (append_record file record))) =
  Ok (Some (trim_end (record ++ lf_s))).
Proof.
  intros file record.
  assert (utf8_valid record = true) as H1 by (vm_compute; reflexivity).
  assert ((len_s file + len_s record + 1 <= isize_max)%N) as H2 by (apply N.leb_le; vm_compute; reflexivity).
  split; [exact H1|]. split; [exact H2|]. apply X_append_then_read; assumption.
Defined.

(** X7: Appending a record does not change what an earlier successful
    [read_record_slice] returns, as long as the file stays within
    [isize::MAX] bytes. *)
Theorem X_append_keeps_earlier file record off len r :
  read_record_slice file off len = Ok (Some r) ->
  (len_s file + len_s record + 1 <= isize_max)%N ->
  read_record_slice (fst (append_record file record)) off len = Ok (Some r).
Proof.
  intros H Hs. unfold append_record. cbn [fst]. unfold read_record_slice in *.
  assert (len_s lf_s = 1%N) as L1 by reflexivity.
  destruct (isize_max <? len_s file)%N eqn:E1; [discriminate|].
  assert ((isize_max <? len_s (file ++ record ++ lf_s))%N = false) as ->.
  { apply N.ltb_ge. rewrite !len_s_app, L1. lia. }
  destruct (len_s file <? N.min (off + len) usize_max)%N eqn:E2; [discriminate|].
  apply N.ltb_ge in E1, E2.
  destruct (N.min_spec (off + len) usize_max) as [[_ Em]|[Hge Em]]; rewrite Em in *;
    [|unfold usize_max, u64_max, u64_modulus, isize_max in *; lia].
  assert ((len_s (file ++ record ++ lf_s) <? off + len)%N = false) as ->.
  { apply N.ltb_ge. rewrite len_s_app. lia. }
  rewrite substring_app_l; [exact H|].
  unfold len_s in E2. lia.
Qed.

Lemma X_append_keeps_earlier_witness :
  read_record_slice ("ab" ++ lf_s) 0 3 = Ok (Some "ab") /\
  (len_s ("ab" ++ lf_s) + len_s "cd" + 1 <= isize_max)%N /\
  read_record_slice (fst (append_record ("ab" ++ lf_s) "cd")) 0 3 = Ok (Some "ab").
Proof.
  assert (read_record_slice ("ab" ++ lf_s) 0 3 = Ok (Some "ab")) as H1 by (vm_compute; reflexivity).
  assert ((len_s ("ab" ++ lf_s) + len_s "cd" + 1 <= isize_max)%N) as H2
    by (apply N.leb_le; vm_compute; reflexivity).
  split; [exact H1|]. split; [exact H2|]. apply X_append_keeps_earlier; assumption.
Defined.

(** X8: [load_hint] reads back exactly the index [save_hint] wrote, when
    no key contains a comma or an LF, keys are UTF-8 and the offsets and
    lengths fit in [u64]. *)
Theorem X_hint_roundtrip idx :
  (forall k p, idx !! k = Some p -> hint_ok k p) ->
  load_hint (save_hint idx) = Ok idx.
Proof. apply load_save_hint. Qed.

Lemma X_hint_roundtrip_witness :
  (forall k p, (<["a" := (0%N, 12%N)]> ∅ : gmap string (N * N)) !! k = Some p -> hint_ok k p) /\
  load_hint (save_hint (<["a" := (0%N, 12%N)]> ∅)) = Ok (<["a" := (0%N, 12%N)]> ∅).
Proof.
  assert (forall k p, (<["a" := (0%N, 12%N)]> ∅ : gmap string (N * N)) !! k = Some p -> hint_ok k p) as H
    by (apply hint_ok_single; vm_compute; repeat split; discriminate).
  split; [exact H|]. apply X_hint_roundtrip, H.
Defined.

(** X9: After a successful [put], the hint the engine holds loads back to
    its new offset index, provided the old index and the key satisfy the
    hint conditions and the log fits in [u64] bytes. *)
Theorem X_put_keeps_hint_loadable ser now key value s :
  (forall k p, index s !! k = Some p -> hint_ok k p) ->
  no_char "," key = true -> no_char LF key = true -> utf8_valid key = true ->
  fst (Kv.put ser now key value s) = Ok tt ->
  (len_s (log (snd (Kv.put ser now key value s))) <= u64_max)%N ->
  load_hint (hint (snd (Kv.put ser now key value s))) = Ok (index (snd (Kv.put ser now key value s))).
Proof.
  intros Hok Hc Hl Hu Hput Hlen. unfold Kv.put in *.
  destruct (put_internal_ok_index ser now key value None s Hput) as (len & Ei & Eh & El).
  rewrite Eh. apply load_save_hint. rewrite Ei. intros k p Hk.
  destruct (String.eqb_spec k key) as [->|Hne].
  - rewrite lookup_insert_eq in Hk. injection Hk as <-. repeat split; auto; cbn [fst snd]; lia.
  - rewrite lookup_insert_ne in Hk by congruence. apply Hok, Hk.
Qed.

Lemma X_put_keeps_hint_loadable_witness :
  let s := snd (Kv.put PlainSerializer 1 "b" "2" empty_engine) in
  (forall k p, index s !! k = Some p -> hint_ok k p) /\
  fst (Kv.put PlainSerializer 2 "a" "1" s) = Ok tt /\
  (len_s (log (snd (Kv.put PlainSerializer 2 "a" "1" s))) <= u64_max)%N /\
  load_hint (hint (snd (Kv.put PlainSerializer 2 "a" "1" s))) = Ok (index (snd (Kv.put PlainSerializer 2 "a" "1" s))).
Proof.
  intros s.
  assert (forall k p, index s !! k = Some p -> hint_ok k p) as H1.
  { assert (index s = <["b" := (0%N, 12%N)]> ∅) as -> by (vm_compute; reflexivity).
    apply hint_ok_single. vm_compute. repeat split; discriminate. }
  assert (fst (Kv.put PlainSerializer 2 "a" "1" s) = Ok tt) as H2 by (vm_compute; reflexivity).
  assert ((len_s (log (snd (Kv.put PlainSerializer 2 "a" "1" s))) <= u64_max)%N) as H3
    by (apply N.leb_le; vm_compute; reflexivity).
  split; [exact H1|]. split; [exact H2|]. split; [exact H3|].
  apply X_put_keeps_hint_loadable; [exact H1|reflexivity|reflexivity|reflexivity|exact H2|exact H3].
Defined.

(** X10: After [delete], the hint the engine holds loads back to its new
    offset index, provided the old index satisfies the hint conditions. *)
Theorem X_delete_keeps_hint_loadable ser now key s :
  (forall k p, index s !! k = Some p -> hint_ok k p) ->
  load_hint (hint (snd (Kv.delete ser now key s))) = Ok (index (snd (Kv.delete ser now key s))).
Proof.
  intros Hok. destruct (delete_index ser now key s) as (_ & Ei & Eh).
  rewrite Eh. apply load_save_hint. rewrite Ei. intros k p Hk.
  apply lookup_delete_Some in Hk as [_ Hk]. apply Hok, Hk.
Qed.

Lemma X_delete_keeps_hint_loadable_witness :
  let s := snd (Kv.put PlainSerializer 1 "b" "2" empty_engine) in
  (forall k p, index s !! k = Some p -> hint_ok k p) /\
  load_hint (hint (snd (Kv.delete PlainSerializer 2 "b" s))) = Ok (index (snd (Kv.delete PlainSerializer 2 "b" s))).
Proof.
  intros s.
  assert (forall k p, index s !! k = Some p -> hint_ok k p) as H1.
  { assert (index s = <["b" := (0%N, 12%N)]> ∅) as -> by (vm_compute; reflexivity).
    apply hint_ok_single. vm_compute. repeat split; discriminate. }
  split; [exact H1|]. apply X_delete_keeps_hint_loadable, H1.
Defined.

(** X11: After [SecondaryIndex.update key old (Some new)] (the texts in
    [json_plain]), [find f sv] returns a key other than [key] exactly when
    it did before, and returns [key] exactly when [new] is a JSON object
    binding [f] to a value whose string form is [sv]. *)
Theorem X_sec_update_find key old new idx f sv k :
  match old with Some o => json_plain o = true | None => True end -> json_plain new = true ->
  In k (SecondaryIndex.find (SecondaryIndex.update key old (Some new) idx) f sv) <->
  (In k (SecondaryIndex.find idx f sv) /\ ~ (k = key /\ In (f, sv) (fields_of old))) \/
  (k = key /\ exists m x, Json.from_str new = Some (Json.Object m) /\ In (f, x) m /\
                          sv = SecondaryIndex.strval x).
Proof. intros _ _. rewrite !sec_find, sec_update, fields_of_spec. reflexivity. Qed.

Lemma X_sec_update_find_witness :
  let o := "{" ++ Json.quoted "a" ++ ":1}" in
  let n := "{" ++ Json.quoted "a" ++ ":2}" in
  let idx := SecondaryIndex.update "j" None (Some o) ∅ in
  json_plain o = true /\ json_plain n = true /\
  (In "k" (SecondaryIndex.find (SecondaryIndex.update "k" (Some o) (Some n) idx) "a" "2") <->
   (In "k" (SecondaryIndex.find idx "a" "2") /\ ~ ("k" = "k" /\ In ("a", "2") (fields_of (Some o)))) \/
   ("k" = "k" /\ exists m x, Json.from_str n = Some (Json.Object m) /\ In ("a", x) m /\
                             "2" = SecondaryIndex.strval x)).
Proof.
  intros o n idx.
  assert (json_plain o = true) as H1 by (vm_compute; reflexivity).
  assert (json_plain n = true) as H2 by (vm_compute; reflexivity).
  split; [exact H1|]. split; [exact H2|].
  apply (X_sec_update_find "k" (Some o) n idx "a" "2" "k"); [exact H1|exact H2].
Defined.

(** X12: After [SecondaryIndex.remove key old] (the text in
    [json_plain]), [find f sv] returns exactly the keys it returned
    before, except [key] when [old] bound [f] to [sv]. *)
Theorem X_sec_remove_find key old idx f sv k :
  match old with Some o => json_plain o = true | None => True end ->
  In k (SecondaryIndex.find (SecondaryIndex.remove key old idx) f sv) <->
  In k (SecondaryIndex.find idx f sv) /\ ~ (k = key /\ In (f, sv) (fields_of old)).
Proof. intros _. rewrite !sec_find, sec_remove. reflexivity. Qed.

Lemma X_sec_remove_find_witness :
  let o := "{" ++ Json.quoted "a" ++ ":1}" in
  let idx := SecondaryIndex.update "j" None (Some o) (SecondaryIndex.update "k" None (Some o) ∅) in
  json_plain o = true /\
  (In "j" (SecondaryIndex.find (SecondaryIndex.remove "k" (Some o) idx) "a" "1") <->
   In "j" (SecondaryIndex.find idx "a" "1") /\ ~ ("j" = "k" /\ In ("a", "1") (fields_of (Some o)))).
Proof.
  intros o idx.
  assert (json_plain o = true) as H1 by (vm_compute; reflexivity).
  split; [exact H1|].
  apply (X_sec_remove_find "k" (Some o) idx "a" "1" "j"). exact H1.
Defined.

(** X13: [scan] returns exactly the keys of the offset index that start
    with the prefix and lie within the inclusive range (when these are
    given). *)
Theorem X_scan_keys ser now prefix range s k :
  In k (map fst (fst (Kv.scan ser now prefix range s))) <->
  is_Some (index s !! k) /\
  (forall p, prefix = Some p -> starts_with p k = true) /\
  (forall a b, range = Some (a, b) -> String.leb a k = true /\ String.leb k b = true).
Proof.
  rewrite scan_keys_eq, filter_In, in_sort_keys, <- list_elem_of_In, list_elem_of_fmap.
  assert ((exists y, k = y.1 /\ y ∈ map_to_list (index s)) <-> is_Some (index s !! k)) as ->.
  { split.
    - intros ([k' x] & -> & H). apply elem_of_map_to_list in H. exists x. exact H.
    - intros [x H]. exists (k, x). split; [reflexivity|]. apply elem_of_map_to_list, H. }
  rewrite opt_forall, opt_forall2. unfold scan_skip. rewrite negb_orb, andb_true_iff.
  assert (forall a b, String.leb a b = negb (String.ltb b a)) as Hl.
  { intros a b. unfold String.leb, String.ltb. rewrite String.compare_antisym.
    destruct (String.compare b a); reflexivity. }
  destruct prefix as [p|], range as [[a b]|]; cbn [negb];
    rewrite ?negb_orb, ?andb_true_iff, ?negb_involutive, ?Hl; tauto.
Qed.

(** X14: The keys [scan] returns are in strictly increasing byte order. *)
Theorem X_scan_sorted ser now prefix range s :
  StronglySorted slt (map fst (fst (Kv.scan ser now prefix range s))).
Proof.
  rewrite scan_keys_eq. apply strongly_sorted_filter, Sorted_StronglySorted; [exact slt_trans|].
  apply sorted_sort_keys, NoDup_fst_map_to_list.
Qed.

(** X15: [scan] does not change the log, the offset index, the secondary
    index or the hint. *)
Theorem X_scan_read_only ser now prefix range s :
  let s' := snd (Kv.scan ser now prefix range s) in
  log s' = log s /\ index s' = index s /\ sec_index s' = sec_index s /\ hint s' = hint s.
Proof. apply scan_loop_frame. Qed.

(** X16: [list_rpop] right after a successful [list_rpush] of [v] returns
    [v] as a JSON string. *)
Theorem X_rpush_then_rpop ser now now' k v s :
  fst (Kv.list_rpush ser now k v s) = Ok tt ->
  fst (Kv.list_rpop ser now' k (snd (Kv.list_rpush ser now k v s))) = Some (Json.quoted v).
Proof.
  unfold Kv.list_rpush. pose proof (get_json_wf ser now k s) as Hw.
  destruct (Kv.get_json ser now k s) as [j s1]. cbn [fst] in Hw.
  set (arr := match match j with Some x => x | None => Json.Array [] end with
              | Json.Array vec => Json.Array (vec ++ [Json.Str v])
              | _ => Json.Array [Json.Str v]
              end).
  intros Hok. pose proof (get_json_after_put ser now now' k (Json.to_string arr) s1 Hok) as G.
  assert (Harr : json_wf arr = true).
  { apply (pushed_wf j v (fun vec => vec ++ [Json.Str v])%list); [exact Hw|].
    intros vec Hv. apply forallb_app_str, Hv. }
  rewrite json_from_to_string in G by exact Harr.
  unfold Kv.list_rpop. destruct (Kv.get_json ser now' k _) as [j2 s2]. cbn [fst] in G. subst j2.
  subst arr. destruct j as [[]|]; try reflexivity.
  destruct l as [|a l]; [reflexivity|]. rewrite <- app_comm_cons. cbn [fst].
  rewrite app_comm_cons, List.last_last. reflexivity.
Qed.

Lemma X_rpush_then_rpop_witness :
  fst (Kv.list_rpush PlainSerializer 1 "L" "a" empty_engine) = Ok tt /\
  fst (Kv.list_rpop PlainSerializer 2 "L" (snd (Kv.list_rpush PlainSerializer 1 "L" "a" empty_engine))) =
  Some (Json.quoted "a").
Proof. split; [vm_compute; reflexivity|apply X_rpush_then_rpop; vm_compute; reflexivity]. Defined.

(** X17: [list_lpop] right after a successful [list_lpush] of [v] returns
    [v] as a JSON string. *)
Theorem X_lpush_then_lpop ser now now' k v s :
  fst (Kv.list_lpush ser now k v s) = Ok tt ->
  fst (Kv.list_lpop ser now' k (snd (Kv.list_lpush ser now k v s))) = Some (Json.quoted v).
Proof.
  unfold Kv.list_lpush. pose proof (get_json_wf ser now k s) as Hw.
  destruct (Kv.get_json ser now k s) as [j s1]. cbn [fst] in Hw.
  set (arr := match match j with Some x => x | None => Json.Array [] end with
              | Json.Array vec => Json.Array (Json.Str v :: vec)
              | _ => Json.Array [Json.Str v]
              end).
  intros Hok. pose proof (get_json_after_put ser now now' k (Json.to_string arr) s1 Hok) as G.
  assert (Harr : json_wf arr = true).
  { apply (pushed_wf j v (fun vec => Json.Str v :: vec)); [exact Hw|]. intros vec Hv. exact Hv. }
  rewrite json_from_to_string in G by exact Harr.
  unfold Kv.list_lpop. destruct (Kv.get_json ser now' k _) as [j2 s2]. cbn [fst] in G. subst j2.
  subst arr. destruct j as [[]|]; reflexivity.
Qed.

Lemma X_lpush_then_lpop_witness :
  fst (Kv.list_lpush PlainSerializer 1 "L" "a" empty_engine) = Ok tt /\
  fst (Kv.list_lpop PlainSerializer 2 "L" (snd (Kv.list_lpush PlainSerializer 1 "L" "a" empty_engine))) =
  Some (Json.quoted "a").
Proof. split; [vm_compute; reflexivity|apply X_lpush_then_lpop; vm_compute; reflexivity]. Defined.

(** X18: A successful [list_push] increases [list_len] by one. *)
Theorem X_push_len ser now now' k v s :
  fst (Kv.list_push ser now k v s) = Ok tt ->
  fst (Kv.list_len ser now' k (snd (Kv.list_push ser now k v s))) = S (fst (Kv.list_len ser now k s)).
Proof.
  unfold Kv.list_push, Kv.list_len. pose proof (get_json_wf ser now k s) as Hw.
  destruct (Kv.get_json ser now k s) as [j s1]. cbn [fst] in Hw.
  set (arr := match match j with Some x => x | None => Json.Array [] end with
              | Json.Array vec => Json.Array (vec ++ [Json.Str v])
              | _ => Json.Array [Json.Str v]
              end).
  intros Hok. pose proof (get_json_after_put ser now now' k (Json.to_string arr) s1 Hok) as G.
  assert (Harr : json_wf arr = true).
  { apply (pushed_wf j v (fun vec => vec ++ [Json.Str v])%list); [exact Hw|].
    intros vec Hv. apply forallb_app_str, Hv. }
  rewrite json_from_to_string in G by exact Harr.
  destruct (Kv.get_json ser now' k _) as [j2 s2]. cbn [fst] in G. subst j2.
  subst arr. destruct j as [[]|]; cbn [fst length]; try reflexivity.
  rewrite length_app. simpl. lia.
Qed.

Lemma X_push_len_witness :
  let s := snd (Kv.list_push PlainSerializer 1 "L" "a" empty_engine) in
  fst (Kv.list_push PlainSerializer 2 "L" "b" s) = Ok tt /\
  fst (Kv.list_len PlainSerializer 3 "L" (snd (Kv.list_push PlainSerializer 2 "L" "b" s))) =
  S (fst (Kv.list_len PlainSerializer 2 "L" s)).
Proof.
  intros s. split; [vm_compute; reflexivity|apply X_push_len; vm_compute; reflexivity].
Defined.

(** X19: [list_lpop] on a key that does not hold a non-empty JSON array
    (its stored text, if any, in [json_plain]) returns nothing and writes nothing to the log or the index. *)
Theorem X_lpop_non_list_no_write ser now k s :
  (forall x, fst (Kv.get ser now k s) = Some x -> json_plain x = true) ->
  (forall v vec, fst (Kv.get_json ser now k s) <> Some (Json.Array (v :: vec))) ->
  fst (Kv.list_lpop ser now k s) = None /\
  log (snd (Kv.list_lpop ser now k s)) = log s /\ index (snd (Kv.list_lpop ser now k s)) = index s.
Proof.
  intros _ H. pose proof (get_json_frame ser now k s) as [F1 F2]. unfold Kv.list_lpop.
  destruct (Kv.get_json ser now k s) as [[[| | | | [|v vec] |]|] s1]; cbn [fst snd] in *;
    try (exfalso; eapply H; reflexivity); auto.
Qed.

Lemma X_lpop_non_list_no_write_witness :
  let s := snd (Kv.put PlainSerializer 1 "k" "5" empty_engine) in
  (forall x, fst (Kv.get PlainSerializer 2 "k" s) = Some x -> json_plain x = true) /\
  (forall v vec, fst (Kv.get_json PlainSerializer 2 "k" s) <> Some (Json.Array (v :: vec))) /\
  fst (Kv.list_lpop PlainSerializer 2 "k" s) = None /\
  log (snd (Kv.list_lpop PlainSerializer 2 "k" s)) = log s /\
  index (snd (Kv.list_lpop PlainSerializer 2 "k" s)) = index s.
Proof.
  intros s.
  assert (forall v vec, fst (Kv.get_json PlainSerializer 2 "k" s) <> Some (Json.Array (v :: vec))) as H
    by (intros v vec; vm_compute; discriminate).
  assert (forall x, fst (Kv.get PlainSerializer 2 "k" s) = Some x -> json_plain x = true) as P
    by (intros x Hx; vm_compute in Hx; injection Hx as <-; vm_compute; reflexivity).
  split; [exact P|]. split; [exact H|]. apply X_lpop_non_list_no_write; [exact P|exact H].
Defined.

(** X20: [list_rpop] on a key that does not hold a non-empty JSON array
    (its stored text, if any, in [json_plain]) returns nothing and writes nothing to the log or the index. *)
Theorem X_rpop_non_list_no_write ser now k s :
  (forall x, fst (Kv.get ser now k s) = Some x -> json_plain x = true) ->
  (forall v vec, fst (Kv.get_json ser now k s) <> Some (Json.Array (v :: vec))) ->
  fst (Kv.list_rpop ser now k s) = None /\
  log (snd (Kv.list_rpop ser now k s)) = log s /\ index (snd (Kv.list_rpop ser now k s)) = index s.
Proof.
  intros _ H. pose proof (get_json_frame ser now k s) as [F1 F2]. unfold Kv.list_rpop.
  destruct (Kv.get_json ser now k s) as [[[| | | | [|v vec] |]|] s1]; cbn [fst snd] in *;
    try (exfalso; eapply H; reflexivity); auto.
Qed.

Lemma X_rpop_non_list_no_write_witness :
  let s := snd (Kv.put PlainSerializer 1 "k" "5" empty_engine) in
  (forall x, fst (Kv.get PlainSerializer 2 "k" s) = Some x -> json_plain x = true) /\
  (forall v vec, fst (Kv.get_json PlainSerializer 2 "k" s) <> Some (Json.Array (v :: vec))) /\
  fst (Kv.list_rpop PlainSerializer 2 "k" s) = None /\
  log (snd (Kv.list_rpop PlainSerializer 2 "k" s)) = log s /\
  index (snd (Kv.list_rpop PlainSerializer 2 "k" s)) = index s.
Proof.
  intros s.
  assert (forall v vec, fst (Kv.get_json PlainSerializer 2 "k" s) <> Some (Json.Array (v :: vec))) as H
    by (intros v vec; vm_compute; discriminate).
  assert (forall x, fst (Kv.get PlainSerializer 2 "k" s) = Some x -> json_plain x = true) as P
    by (intros x Hx; vm_compute in Hx; injection Hx as <-; vm_compute; reflexivity).
  split; [exact P|]. split; [exact H|]. apply X_rpop_non_list_no_write; [exact P|exact H].
Defined.

(** X21: Adding the same member twice with [set_add] stores the same value
    as adding it once (the text stored before, if any, in [json_plain]). *)
Theorem X_set_add_idempotent ser now now' now'' k v s :
  (forall x, fst (Kv.get ser now k s) = Some x -> json_plain x = true) ->
  fst (Kv.set_add ser now k v s) = Ok tt ->
  fst (Kv.set_add ser now' k v (snd (Kv.set_add ser now k v s))) = Ok tt ->
  fst (Kv.get ser now'' k (snd (Kv.set_add ser now' k v (snd (Kv.set_add ser now k v s))))) =
  fst (Kv.get ser now'' k (snd (Kv.set_add ser now k v s))).
Proof.
  intros _ H1 H2. destruct (set_add_first ser now k v s H1) as (vec & L & Hw & Hin).
  set (s1 := snd (Kv.set_add ser now k v s)) in *.
  assert (G : fst (Kv.get_json ser now' k s1) = Some (Json.Array vec)).
  { rewrite get_json_fst, (get_lru_hit _ _ _ _ _ L). apply json_from_to_string, Hw. }
  rewrite (set_add_present _ _ _ _ _ _ G Hin) in H2 |- *.
  apply put_internal_ok_lru in H2. rewrite (get_lru_hit _ _ _ _ _ H2), (get_lru_hit _ _ _ _ _ L).
  reflexivity.
Qed.

Lemma X_set_add_idempotent_witness :
  let s1 := snd (Kv.set_add PlainSerializer 1 "S" "a" empty_engine) in
  (forall x, fst (Kv.get PlainSerializer 1 "S" empty_engine) = Some x -> json_plain x = true) /\
  fst (Kv.set_add PlainSerializer 1 "S" "a" empty_engine) = Ok tt /\
  fst (Kv.set_add PlainSerializer 2 "S" "a" s1) = Ok tt /\
  fst (Kv.get PlainSerializer 3 "S" (snd (Kv.set_add PlainSerializer 2 "S" "a" s1))) =
  fst (Kv.get PlainSerializer 3 "S" s1).
Proof.
  intros s1.
  assert (fst (Kv.set_add PlainSerializer 1 "S" "a" empty_engine) = Ok tt) as H1 by (vm_compute; reflexivity).
  assert (fst (Kv.set_add PlainSerializer 2 "S" "a" s1) = Ok tt) as H2 by (vm_compute; reflexivity).
  assert (forall x, fst (Kv.get PlainSerializer 1 "S" empty_engine) = Some x -> json_plain x = true) as P
    by (intros x Hx; vm_compute in Hx; discriminate).
  split; [exact P|]. split; [exact H1|]. split; [exact H2|]. apply X_set_add_idempotent; assumption.
Defined.

(** X22: [hash_get] right after a successful [hash_set] of field [f] to
    [v] returns [v] as a JSON string. *)
Theorem X_hash_set_then_get ser now now' k f v s :
  fst (Kv.hash_set ser now k f v s) = Ok tt ->
  fst (Kv.hash_get ser now' k f (snd (Kv.hash_set ser now k f v s))) = Some (Json.quoted v).
Proof.
  unfold Kv.hash_set. destruct (Kv.get ser now k s) as [o s1].
  set (obj := Json.map_insert f (Json.Str v) (Kv.stored_map o)). intros Hok.
  pose proof (get_json_after_put ser now now' k _ s1 Hok) as G.
  rewrite json_from_to_string in G by (apply map_insert_wf; [apply stored_map_wf|reflexivity]).
  unfold Kv.hash_get. destruct (Kv.get_json ser now' k _) as [j s2]. cbn [fst] in G |- *. subst j.
  unfold obj. rewrite get_map_insert. reflexivity.
Qed.

Lemma X_hash_set_then_get_witness :
  fst (Kv.hash_set PlainSerializer 1 "H" "f" "v" empty_engine) = Ok tt /\
  fst (Kv.hash_get PlainSerializer 2 "H" "f" (snd (Kv.hash_set PlainSerializer 1 "H" "f" "v" empty_engine))) =
  Some (Json.quoted "v").
Proof. split; [vm_compute; reflexivity|apply X_hash_set_then_get; vm_compute; reflexivity]. Defined.

(** X23: [hash_get] of field [f] right after a successful [hash_del] of
    [f] returns nothing. *)
Theorem X_hash_del_then_get ser now now' k f s :
  fst (Kv.hash_del ser now k f s) = Ok tt ->
  fst (Kv.hash_get ser now' k f (snd (Kv.hash_del ser now k f s))) = None.
Proof.
  unfold Kv.hash_del. destruct (Kv.get ser now k s) as [o s1]. intros Hok.
  pose proof (get_json_after_put ser now now' k _ s1 Hok) as G.
  rewrite json_from_to_string in G by (apply map_remove_wf, stored_map_wf).
  unfold Kv.hash_get. destruct (Kv.get_json ser now' k _) as [j s2]. cbn [fst] in G |- *. subst j.
  rewrite get_map_remove. reflexivity.
Qed.

Lemma X_hash_del_then_get_witness :
  let s := snd (Kv.hash_set PlainSerializer 1 "H" "f" "v" empty_engine) in
  fst (Kv.hash_del PlainSerializer 2 "H" "f" s) = Ok tt /\
  fst (Kv.hash_get PlainSerializer 3 "H" "f" (snd (Kv.hash_del PlainSerializer 2 "H" "f" s))) = None.
Proof. intros s. split; [vm_compute; reflexivity|apply X_hash_del_then_get; vm_compute; reflexivity]. Defined.

(** X24: After a successful [hash_set] of field [f] to [v], [hash_getall]
    returns a map in which [f] is bound to [v] as a JSON string. *)
Theorem X_hash_set_then_getall ser now now' k f v s :
  fst (Kv.hash_set ser now k f v s) = Ok tt ->
  exists h, fst (Kv.hash_getall ser now' k (snd (Kv.hash_set ser now k f v s))) = Some h /\
            h !! f = Some (Json.quoted v).
Proof.
  unfold Kv.hash_set. destruct (Kv.get ser now k s) as [o s1].
  set (obj := Json.map_insert f (Json.Str v) (Kv.stored_map o)). intros Hok.
  assert (Hw : json_wf (Json.Object obj) = true)
    by (apply map_insert_wf; [apply stored_map_wf|reflexivity]).
  pose proof (put_internal_ok_lru _ _ _ _ _ _ Hok) as L.
  pose proof (get_lru_hit ser now' k _ _ L) as G.
  unfold Kv.hash_getall. destruct (Kv.get ser now' k _) as [o2 s2]. cbn [fst] in G |- *. subst o2.
  unfold Json.map_from_str. rewrite json_from_to_string by exact Hw. cbn [option_map].
  eexists; split; [reflexivity|].
  apply (fold_insert_in obj ∅ f (Json.Str v)).
  - cbn [json_wf] in Hw. apply andb_prop in Hw as [Hs _]. exact Hs.
  - apply in_map_insert.
Qed.

Lemma X_hash_set_then_getall_witness :
  fst (Kv.hash_set PlainSerializer 1 "H" "f" "v" empty_engine) = Ok tt /\
  exists h, fst (Kv.hash_getall PlainSerializer 2 "H" (snd (Kv.hash_set PlainSerializer 1 "H" "f" "v" empty_engine))) = Some h /\
            h !! "f" = Some (Json.quoted "v").
Proof. split; [vm_compute; reflexivity|apply X_hash_set_then_getall; vm_compute; reflexivity]. Defined.

(** X25: [json_get_field] right after a successful [json_set_field] of a
    value [v] in [json_plain] returns the new value: the JSON form of [v] when [v] parses, otherwise
    [v] as a JSON string. *)
Theorem X_json_set_then_get_field ser now now' k f v s :
  json_plain v = true ->
  fst (Kv.json_set_field ser now k f v s) = Ok tt ->
  fst (Kv.json_get_field ser now' k f (snd (Kv.json_set_field ser now k f v s))) =
  Some (match Json.from_str v with Some w => Json.to_string w | None => Json.quoted v end).
Proof.
  intros _. destruct (json_set_field_spec ser now k f v s) as [s1 E]. rewrite E. intros Hok.
  pose proof (get_json_after_put ser now now' k _ s1 Hok) as G.
  rewrite json_from_to_string in G
    by (apply map_insert_wf; [apply json_set_root_wf|apply new_val_wf]).
  unfold Kv.json_get_field. destruct (Kv.get_json ser now' k _) as [j s2]. cbn [fst] in G |- *. subst j.
  rewrite get_map_insert. destruct (Json.from_str v); reflexivity.
Qed.

Lemma X_json_set_then_get_field_witness :
  json_plain "[1]" = true /\
  fst (Kv.json_set_field PlainSerializer 1 "J" "f" "[1]" empty_engine) = Ok tt /\
  fst (Kv.json_get_field PlainSerializer 2 "J" "f" (snd (Kv.json_set_field PlainSerializer 1 "J" "f" "[1]" empty_engine))) =
  Some (match Json.from_str "[1]" with Some w => Json.to_string w | None => Json.quoted "[1]" end).
Proof.
  split; [vm_compute; reflexivity|].
  split; [vm_compute; reflexivity|apply X_json_set_then_get_field; vm_compute; reflexivity].
Defined.

(** X26: [json_set_field] on a key that does not hold a JSON object
    (the stored text, if any, and the new value in [json_plain]) replaces the stored value by the one-field object binding the field to
    the new value. *)
Theorem X_json_set_field_replaces_non_object ser now now' k f v s :
  (forall x, fst (Kv.get ser now k s) = Some x -> json_plain x = true) -> json_plain v = true ->
  (forall m, fst (Kv.get_json ser now k s) <> Some (Json.Object m)) ->
  fst (Kv.json_set_field ser now k f v s) = Ok tt ->
  fst (Kv.get ser now' k (snd (Kv.json_set_field ser now k f v s))) =
  Some (Json.to_string (Json.Object
          [(f, match Json.from_str v with Some w => w | None => Json.Str v end)])).
Proof.
  intros _ _ Hn. destruct (json_set_field_spec ser now k f v s) as [s1 E]. rewrite E. intros Hok.
  apply put_internal_ok_lru in Hok. rewrite (get_lru_hit _ _ _ _ _ Hok).
  rewrite get_json_fst in Hn. do 3 f_equal.
  destruct (fst (Kv.get ser now k s)) as [x|]; [|reflexivity].
  destruct (Json.from_str x) as [w|]; [|reflexivity].
  destruct w; try reflexivity. exfalso. eapply Hn. reflexivity.
Qed.

Lemma X_json_set_field_replaces_non_object_witness :
  let s := snd (Kv.put PlainSerializer 1 "J" "5" empty_engine) in
  (forall x, fst (Kv.get PlainSerializer 2 "J" s) = Some x -> json_plain x = true) /\
  json_plain "x" = true /\
  (forall m, fst (Kv.get_json PlainSerializer 2 "J" s) <> Some (Json.Object m)) /\
  fst (Kv.json_set_field PlainSerializer 2 "J" "f" "x" s) = Ok tt /\
  fst (Kv.get PlainSerializer 3 "J" (snd (Kv.json_set_field PlainSerializer 2 "J" "f" "x" s))) =
  Some (Json.to_string (Json.Object
          [("f", match Json.from_str "x" with Some w => w | None => Json.Str "x" end)])).
Proof.
  intros s.
  assert (forall m, fst (Kv.get_json PlainSerializer 2 "J" s) <> Some (Json.Object m)) as H1
    by (intros m; vm_compute; discriminate).
  assert (fst (Kv.json_set_field PlainSerializer 2 "J" "f" "x" s) = Ok tt) as H2 by (vm_compute; reflexivity).
  assert (forall x, fst (Kv.get PlainSerializer 2 "J" s) = Some x -> json_plain x = true) as P
    by (intros x Hx; vm_compute in Hx; injection Hx as <-; vm_compute; reflexivity).
  assert (json_plain "x" = true) as P' by (vm_compute; reflexivity).
  split; [exact P|]. split; [exact P'|].
  split; [exact H1|]. split; [exact H2|]. apply X_json_set_field_replaces_non_object; assumption.
Defined.
